(** * uq: a disk-backed message queue broker (topics and consumer lines)

    A shallow embedding of the queue engine of [queue/uQueue.go] (the broker,
    type [UnitedQueue]) and of the topic implementation of the same package
    (type [topic]), followed by the properties of the push path, of the
    reclamation pass, of key routing and of startup recovery.

    Conventions of the embedding:
    - a [uint64] is an [N] below [2^64]; [++] and [--] are written with their
      wrap-around ([incr64], [decr64]); a [time.Duration] is a [Z];
    - a [[]byte] is a [list Byte.byte]; a Go [string] is a [string];
    - a Go [map[string]*T] is a [gmap string T]; a [range] over a map visits the
      keys in an order chosen by the runtime, which the embedding receives as an
      argument [ord] (see [range_of]);
    - the key/value backend ([store.Storage]) is a finite map together with a
      schedule of failures and a journal of the operations performed; code that
      calls it lives in the state monad [M];
    - locks are not modelled: every operation is embedded as the sequential
      code that runs while its locks are held; a call that takes a lock which
      it already holds ends with the outcome [Blocks], a call that panics with
      [Panics].  *)

From stdpp Require Import gmap strings list fin_maps pretty.
From Stdlib Require Import ZArith Lia Ascii.

Open Scope N_scope.

(** ** Machine integers *)

Definition two64 : N := 18446744073709551616.
Definition maxUint64 : N := 18446744073709551615.

(** [x++] and [x--] on a [uint64]. *)
Definition incr64 (x : N) : N := (x + 1) mod two64.
Definition decr64 (x : N) : N := (x + maxUint64) mod two64.

Definition is_uint64 (x : N) : Prop := x < two64.

(** ** Byte slices *)

Abbreviation bytes := (list Byte.byte).

Definition byte_of_N (n : N) : Byte.byte :=
  default Byte.x00 (Byte.of_N (n mod 256)).

(** [binary.LittleEndian.PutUint64] on a fresh slice of 8 bytes. *)
Definition PutUint64 (v : N) : bytes :=
  [ byte_of_N v; byte_of_N (v / 2 ^ 8); byte_of_N (v / 2 ^ 16);
    byte_of_N (v / 2 ^ 24); byte_of_N (v / 2 ^ 32); byte_of_N (v / 2 ^ 40);
    byte_of_N (v / 2 ^ 48); byte_of_N (v / 2 ^ 56) ].

(** [binary.LittleEndian.Uint64]: it reads [b[7]] first, which panics on a
    slice shorter than 8 bytes ([None]). *)
Definition Uint64 (b : bytes) : option N :=
  match b with
  | b0 :: b1 :: b2 :: b3 :: b4 :: b5 :: b6 :: b7 :: _ =>
      Some (Byte.to_N b0 + Byte.to_N b1 * 2 ^ 8 + Byte.to_N b2 * 2 ^ 16
            + Byte.to_N b3 * 2 ^ 24 + Byte.to_N b4 * 2 ^ 32
            + Byte.to_N b5 * 2 ^ 40 + Byte.to_N b6 * 2 ^ 48
            + Byte.to_N b7 * 2 ^ 56)
  | _ => None
  end.

(** ** Errors (package [utils]) *)

Inductive ErrCode :=
  | ErrBadKey | ErrBadRequest
  | ErrTopicExisted | ErrTopicNotExisted
  | ErrLineExisted | ErrLineNotExisted
  | ErrNotFound | ErrNone | ErrInternalError.

(** A Go [error] value: either one built by [utils.NewError], or the plain
    error of the storage backend. *)
Inductive error :=
  | NewError (code : ErrCode) (msg : string)
  | StorageError (msg : string).

(** Modelled from the spec: [utils.Error.Error()], which is not part of the
    sources at hand; the spec only says that each error carries a short context
    string, which is what the text is taken to be. *)
Definition Error_text (e : error) : string :=
  match e with
  | NewError _ m => m
  | StorageError m => m
  end.

Definition has_code (c : ErrCode) (e : option error) : Prop :=
  ∃ m, e = Some (NewError c m).

(** Modelled from the spec: [utils.Acatui], which is not part of the sources at
    hand; the spec writes the key of message [i] of topic [T] as ["{T}:{i}"],
    the id in decimal. *)
Definition Acatui (s sep : string) (n : N) : string :=
  s +:+ sep +:+ pretty n.

(** Modelled from the spec: [utils.ItoaQuick], which is not part of the sources
    at hand; a decimal rendering, used only in error messages. *)
Definition ItoaQuick (n : nat) : string := pretty n.

(** ** The key/value backend ([store.Storage]) *)

Inductive kvop :=
  | OpGet (k : string)
  | OpSet (k : string) (v : bytes)
  | OpDel (k : string).

(** Modelled from the spec: the backend is an interface whose implementations
    are not part of the sources at hand.  Its contract is [get(key) → bytes |
    NotFound], [set(key, bytes) → ok | err], [del(key) → ok | err], synchronous
    and durable on successful return.  [faults] schedules the outcome of the
    coming operations ([true]: the operation fails and leaves the data as they
    are; an exhausted schedule means no more failures); [journal] records every
    operation with its outcome ([true]: it succeeded), oldest first. *)
Record Storage := mkStorage {
  data : gmap string bytes;
  faults : list bool;
  journal : list (kvop * bool)
}.

Definition next_fault (s : Storage) : bool := default false (faults s !! 0%nat).

Definition record (op : kvop) (ok : bool) (d : gmap string bytes) (s : Storage)
  : Storage :=
  {| data := d; faults := drop 1 (faults s); journal := journal s ++ [(op, ok)] |}.

(** The state monad of code that talks to the backend. *)
Definition M (A : Type) : Type := Storage → A * Storage.

Definition ret {A} (a : A) : M A := λ s, (a, s).
Definition bind {A B} (m : M A) (k : A → M B) : M B :=
  λ s, let (a, s') := m s in k a s'.

Notation "'do' x <- m ; k" := (bind m (λ x, k))
  (at level 10, x name, m at level 100, k at level 200).
Notation "'do' ' p <- m ; k" := (bind m (λ x, match x with p => k end))
  (at level 10, p pattern, m at level 100, k at level 200).

Definition io_failure : string := "storage failure".
Definition not_found : string := "key not found".

Definition Storage_Get (k : string) : M (error + bytes) := λ s,
  if next_fault s then (inl (StorageError io_failure), record (OpGet k) false (data s) s)
  else match data s !! k with
       | Some v => (inr v, record (OpGet k) true (data s) s)
       | None => (inl (StorageError not_found), record (OpGet k) false (data s) s)
       end.

Definition Storage_Set (k : string) (v : bytes) : M (option error) := λ s,
  if next_fault s then (Some (StorageError io_failure), record (OpSet k v) false (data s) s)
  else (None, record (OpSet k v) true (<[k := v]> (data s)) s).

Definition Storage_Del (k : string) : M (option error) := λ s,
  if next_fault s then (Some (StorageError io_failure), record (OpDel k) false (data s) s)
  else (None, record (OpDel k) true (delete k (data s)) s).

(** ** Ranging over a map *)

(** [ord] is an order in which a [range] statement may visit the keys of [m]. *)
Definition range_of {V} (m : gmap string V) (ord : list string) : Prop :=
  ord ≡ₚ (map_to_list m).*1.

(** ** The Go library *)

(** [strings.Split(s, sep)] for a separator of one byte, the only use the
    broker makes of it: the parts of [s] between the occurrences of [sep]. *)
Fixpoint Split (s : string) (sep : ascii) : list string :=
  match s with
  | EmptyString => [EmptyString]
  | String c r =>
      if Ascii.eqb c sep then EmptyString :: Split r sep
      else match Split r sep with
           | p :: ps => String c p :: ps
           | [] => [String c EmptyString]
           end
  end.

Inductive NumError := ErrSyntax | ErrRange.

(** The text of a [strconv.NumError] (without the quoting of the input). *)
Definition NumError_text (s : string) (e : NumError) : string :=
  "strconv.ParseUint: parsing " +:+ s +:+
  match e with
  | ErrSyntax => ": invalid syntax"
  | ErrRange => ": value out of range"
  end.

(** The digit loop of [strconv.ParseUint(s, 10, 0)] on a 64-bit platform:
    [n] is the value read so far. A byte that is no decimal digit is a syntax
    error (a letter is a digit of value 10 or more, refused in base 10). *)
Fixpoint ParseUint_digits (cs : string) (n : N) : NumError + N :=
  match cs with
  | EmptyString => inr n
  | String c r =>
      let v := N_of_ascii c in
      if (48 <=? v) && (v <=? 57) then
        let d := v - 48 in
        if maxUint64 / 10 + 1 <=? n then inl ErrRange
        else
          let n10 := (n * 10) mod two64 in
          let n1 := (n10 + d) mod two64 in
          if (n1 <? n10) || (maxUint64 <? n1) then inl ErrRange
          else ParseUint_digits r n1
      else inl ErrSyntax
  end.

(** [strconv.ParseUint(s, 10, 0)]. *)
Definition ParseUint (s : string) : NumError + N :=
  match s with
  | EmptyString => inl ErrSyntax
  | _ => ParseUint_digits s 0
  end.

(** An in-flight record and the snapshot of a line (types of the line
    implementation; [loadLine] reads the fields [Head], [Ihead], [Inflights]
    and [Tid]). *)
Record inflightMessage := mkInflight { Tid : N; Exp : Z }.
Record lineStore := mkLineStore {
  Head : N;
  Ihead : N;
  Inflights : list inflightMessage
}.

(** What the broker uses of [encoding/gob] and of [time]: the encoders and
    decoders of the three catalog types, and the text form of a duration.
    An encoder returns the error text when it fails. *)
Class GoLib := {
  gobEncodeQueue : list string → string + bytes;
  gobDecodeQueue : bytes → option (list string);
  gobEncodeTopic : list string → string + bytes;
  gobDecodeTopic : bytes → option (list string);
  gobEncodeLine : lineStore → string + bytes;
  gobDecodeLine : bytes → option lineStore;
  ParseDuration : string → string + Z;
  Duration_String : Z → string
}.

(** ** Constants of the broker *)

Definition StorageKeyWord : string := "UnitedQueueKey".
Definition KeyTopicHead : string := ":head".
Definition KeyTopicTail : string := ":tail".
Definition KeyLineRecycle : string := ":recycle".

(** ** Access to the backend ([UnitedQueue.setData], [getData], [delData]) *)

Definition setData (key : string) (v : bytes) : M (option error) :=
  do err <- Storage_Set key v;
  match err with
  | Some e => ret (Some (NewError ErrInternalError (Error_text e)))
  | None => ret None
  end.

Definition getData (key : string) : M (error + bytes) :=
  do r <- Storage_Get key;
  match r with
  | inl e => ret (inl (NewError ErrInternalError (Error_text e)))
  | inr v => ret (inr v)
  end.

Definition delData (key : string) : M (option error) :=
  do err <- Storage_Del key;
  match err with
  | Some e => ret (Some (NewError ErrInternalError (Error_text e)))
  | None => ret None
  end.

(** ** Lines

    The line implementation is not part of the sources at hand. The record has
    the fields that [newLine] and [loadLine] assign; the operations the topic
    calls are modelled from the spec. The handle [l.t] to the owning topic is
    replaced by the two things read through it: the topic's name and tail. *)
Module Line.

Record line := mkLine {
  name : string;
  head : N;
  recycle : Z;
  recycleKey : string;
  inflight : list inflightMessage;
  ihead : N;
  imap : gmap N bool
}.

Definition set_head (v : N) (l : line) : line :=
  mkLine (name l) v (recycle l) (recycleKey l) (inflight l) (ihead l) (imap l).
Definition set_ihead (v : N) (l : line) : line :=
  mkLine (name l) (head l) (recycle l) (recycleKey l) (inflight l) v (imap l).
Definition set_inflight (v : list inflightMessage) (l : line) : line :=
  mkLine (name l) (head l) (recycle l) (recycleKey l) v (ihead l) (imap l).
Definition set_imap (v : gmap N bool) (l : line) : line :=
  mkLine (name l) (head l) (recycle l) (recycleKey l) (inflight l) (ihead l) v.

Section Operations.
Context `{GoLib}.

(** Modelled from the spec: [line.exportLine], absent from the sources; the
    spec persists the line catalog [{head, ihead, inflight}] at
    ["{topic}/{line}"]. *)
Definition exportLine (tname : string) (l : line) : M (option error) :=
  match gobEncodeLine (mkLineStore (head l) (ihead l) (inflight l)) with
  | inl m => ret (Some (NewError ErrInternalError m))
  | inr b => setData (tname +:+ "/" +:+ name l) b
  end.

(** Modelled from the spec: [line.exportRecycle], absent from the sources; the
    spec persists the recycle duration as text at ["{topic}/{line}:recycle"],
    the key that [newLine] stores in [recycleKey]. *)
Definition exportRecycle (l : line) : M (option error) :=
  setData (recycleKey l) (String.list_byte_of_string (Duration_String (recycle l))).

(** Modelled from the spec: [line.pop], absent from the sources. Spec 4.2:
    first the recycle sweep (an expired front record of a line with a positive
    recycle is moved to the back with a new expiry and redelivered); otherwise
    the line is empty when [head == topic.tail]; otherwise the payload at
    [head] is fetched from the topic and [head] advances, with [ihead] when the
    line acknowledges on delivery, and with a new in-flight record when it has
    a positive recycle. *)
Definition pop (tname : string) (ttail : N) (now : Z) (l : line)
  : M ((error + N * bytes) * line) :=
  let deliver :=
    if head l =? ttail then ret (inl (NewError ErrNone "line pop"), l)
    else
      do r <- getData (Acatui tname ":" (head l));
      match r with
      | inl e => ret (inl e, l)
      | inr v =>
          if (0 <? recycle l)%Z then
            ret (inr (head l, v),
                 set_head (incr64 (head l))
                   (set_imap (<[head l := true]> (imap l))
                      (set_inflight
                         (inflight l ++ [mkInflight (head l) (now + recycle l)])
                         l)))
          else
            ret (inr (head l, v),
                 set_head (incr64 (head l)) (set_ihead (incr64 (ihead l)) l))
      end in
  match inflight l with
  | m :: rest =>
      if (Exp m <=? now)%Z && (0 <? recycle l)%Z then
        do r <- getData (Acatui tname ":" (Tid m));
        match r with
        | inl e => ret (inl e, l)
        | inr v =>
            ret (inr (Tid m, v),
                 set_inflight (rest ++ [mkInflight (Tid m) (now + recycle l)]) l)
        end
      else deliver
  | [] => deliver
  end.

(** Modelled from the spec: [line.mPop], absent from the sources. Spec 4.2:
    it repeats [pop] up to [n] times, stops on empty or error and returns what
    it accumulated. [now i] is the clock read by the [i]-th pop. *)
Fixpoint mPop_loop (k i : nat) (tname : string) (ttail : N) (now : nat → Z)
    (l : line) (acc : list (N * bytes)) : M (list (N * bytes) * line) :=
  match k with
  | O => ret (acc, l)
  | S k' =>
      do '(r, l') <- pop tname ttail (now i) l;
      match r with
      | inl _ => ret (acc, l')
      | inr m => mPop_loop k' (S i) tname ttail now l' (acc ++ [m])
      end
  end.

Definition mPop (tname : string) (ttail : N) (now : nat → Z) (n : Z) (l : line)
  : M (list (N * bytes) * line) :=
  mPop_loop (Z.to_nat n) 0 tname ttail now l [].

Fixpoint remove_tid (id : N) (ms : list inflightMessage) : list inflightMessage :=
  match ms with
  | [] => []
  | m :: rest => if Tid m =? id then rest else m :: remove_tid id rest
  end.

(** The sweep of [ihead] after a confirm; at most [head - ihead] steps. *)
Fixpoint sweep (k : nat) (l : line) : line :=
  match k with
  | O => l
  | S k' =>
      if (ihead l <? head l) && negb (default false (imap l !! ihead l)) then
        sweep k' (set_ihead (incr64 (ihead l))
                    (set_imap (delete (ihead l) (imap l)) l))
      else l
  end.

(** Modelled from the spec: [line.confirm], absent from the sources. Spec 4.3:
    an id outside [[ihead, head)] or absent from the in-flight sequence is
    refused; otherwise its record is removed, [imap[id]] becomes false and
    [ihead] sweeps over the confirmed ids. *)
Definition confirm (id : N) (l : line) : option error * line :=
  if (id <? ihead l) || (head l <=? id) then
    (Some (NewError ErrNotFound "line confirm"), l)
  else if existsb (λ m, Tid m =? id) (inflight l) then
    let l1 := set_imap (<[id := false]> (imap l))
                (set_inflight (remove_tid id (inflight l)) l) in
    (None, sweep (N.to_nat (head l1 - ihead l1)) l1)
  else (Some (NewError ErrNotFound "line confirm"), l).

(** Modelled from the spec: [line.empty], absent from the sources. Spec 4.3:
    it sets [ihead = head] and clears [inflight] and [imap]. The spec names no
    way for it to fail, so the model reports no error. *)
Definition empty (l : line) : M (option error * line) :=
  ret (None, set_imap ∅ (set_inflight [] (set_ihead (head l) l))).

End Operations.
End Line.

(** How a call ends: it returns, it panics, or it blocks for ever on a lock
    that its own goroutine holds. *)
Inductive outcome (A : Type) :=
  | Returns (a : A)
  | Panics
  | Blocks.
Arguments Returns {A} a.
Arguments Panics {A}.
Arguments Blocks {A}.

(** What the clean pass observes at the top of an iteration: whether the quit
    channel is closed, and whether the deadline has passed. *)
Record tick := mkTick { quitting : bool; overdue : bool }.

(** ** Topics *)
Module Topic.

Record topic := mkTopic {
  name : string;
  lines : gmap string Line.line;
  head : N;
  headKey : string;
  tail : N;
  tailKey : string
}.

Definition set_lines (v : gmap string Line.line) (t : topic) : topic :=
  mkTopic (name t) v (head t) (headKey t) (tail t) (tailKey t).
Definition set_head (v : N) (t : topic) : topic :=
  mkTopic (name t) (lines t) v (headKey t) (tail t) (tailKey t).
Definition set_tail (v : N) (t : topic) : topic :=
  mkTopic (name t) (lines t) (head t) (headKey t) v (tailKey t).

Section Operations.
Context `{GoLib}.

Definition newLine (lname : string) (recycle : Z) (t : topic)
  : M (error + Line.line) :=
  let l := Line.mkLine lname (head t) recycle
             (name t +:+ "/" +:+ lname +:+ KeyLineRecycle) [] (head t) ∅ in
  do err <- Line.exportLine (name t) l;
  match err with
  | Some e => ret (inl e)
  | None =>
      do err <- Line.exportRecycle l;
      match err with
      | Some e => ret (inl e)
      | None => ret (inr l)
      end
  end.

Definition exportHead (t : topic) : M (option error) :=
  do err <- setData (headKey t) (PutUint64 (head t));
  match err with
  | Some e => ret (Some (NewError ErrInternalError (Error_text e)))
  | None => ret None
  end.

Definition exportTail (t : topic) : M (option error) :=
  do err <- setData (tailKey t) (PutUint64 (tail t));
  match err with
  | Some e => ret (Some (NewError ErrInternalError (Error_text e)))
  | None => ret None
  end.

(** The names of the lines, in the order [ord] of the range over [t.lines]. *)
Definition genTopicStore (ord : list string) (t : topic) : list string :=
  omap (λ k, Line.name <$> lines t !! k) ord.

Definition exportTopic (ord : list string) (t : topic) : M (option error) :=
  match gobEncodeTopic (genTopicStore ord t) with
  | inl m => ret (Some (NewError ErrInternalError m))
  | inr b =>
      do err <- setData (name t) b;
      match err with
      | Some e => ret (Some (NewError ErrInternalError (Error_text e)))
      | None => ret None
      end
  end.

(** [createLine]. The registration with the coordinator ([registerLine]) is
    best effort and leaves the topic as it is. When [exportTopic] fails, the
    source locks [linesLock] a second time while the deferred unlock is still
    pending: the call never returns. *)
Definition createLine (lname : string) (recycle : Z) (fromEtcd : bool)
    (ord : list string) (t : topic) : M (outcome (option error) * topic) :=
  match lines t !! lname with
  | Some _ => ret (Returns (Some (NewError ErrLineExisted "topic createLine")), t)
  | None =>
      do r <- newLine lname recycle t;
      match r with
      | inl e => ret (Returns (Some e), t)
      | inr l =>
          let t1 := set_lines (<[lname := l]> (lines t)) t in
          do err <- exportTopic ord t1;
          match err with
          | Some _ => ret (Blocks, t1)
          | None => ret (Returns None, t1)
          end
      end
  end.

(** The loop of [loadLine] that marks the ids of [[ihead, head)] as not in
    flight; [k] bounds the number of iterations. *)
Fixpoint imap_fill (k : nat) (i hd : N) (m : gmap N bool) : gmap N bool :=
  match k with
  | O => m
  | S k' => if i <? hd then imap_fill k' (incr64 i) hd (<[i := false]> m) else m
  end.

Definition loadLine (lineName : string) (lineStoreValue : lineStore) (t : topic)
  : M (error + Line.line) :=
  let recycleKey := name t +:+ "/" +:+ lineName +:+ KeyLineRecycle in
  do r <- getData recycleKey;
  match r with
  | inl e => ret (inl (NewError ErrInternalError (Error_text e)))
  | inr lineRecycleData =>
      match ParseDuration (String.string_of_list_byte lineRecycleData) with
      | inl m => ret (inl (NewError ErrInternalError m))
      | inr lineRecycle =>
          let hd := Head lineStoreValue in
          let ih := Ihead lineStoreValue in
          let imap := imap_fill (N.to_nat (hd - ih)) ih hd ∅ in
          let imap :=
            foldl (λ m msg, <[Tid msg := true]> m) imap
              (Inflights lineStoreValue) in
          ret (inr (Line.mkLine lineName hd lineRecycle recycleKey
                      (Inflights lineStoreValue) ih imap))
      end
  end.

Definition push (d : bytes) (t : topic) : M (option error * topic) :=
  let key := Acatui (name t) ":" (tail t) in
  do err <- setData key d;
  match err with
  | Some e => ret (Some e, t)
  | None =>
      let t1 := set_tail (incr64 (tail t)) t in
      do err <- exportTail t1;
      match err with
      | Some e => ret (Some e, set_tail (decr64 (tail t1)) t1)
      | None => ret (None, t1)
      end
  end.

(** The [range] loop of [mPush]: [Some e] when an iteration returns [e] from
    [mPush], [None] when the loop runs to its end. *)
Fixpoint mPush_loop (oldTail : N) (datas : list bytes) (t : topic)
  : M (option error * topic) :=
  match datas with
  | [] => ret (None, t)
  | d :: rest =>
      if (length d <=? 0)%nat then
        ret (Some (NewError ErrBadRequest "message has no content"), t)
      else
        let key := Acatui (name t) ":" (tail t) in
        do err <- setData key d;
        match err with
        | Some e => ret (Some e, set_tail oldTail t)
        | None => mPush_loop oldTail rest (set_tail (incr64 (tail t)) t)
        end
  end.

Definition mPush (datas : list bytes) (t : topic) : M (option error * topic) :=
  let oldTail := tail t in
  do '(r, t1) <- mPush_loop oldTail datas t;
  match r with
  | Some e => ret (Some e, t1)
  | None =>
      do err <- exportTail t1;
      match err with
      | Some e => ret (Some e, set_tail oldTail t1)
      | None => ret (None, t1)
      end
  end.

Definition pop (lname : string) (now : Z) (t : topic)
  : M ((error + N * bytes) * topic) :=
  match lines t !! lname with
  | None => ret (inl (NewError ErrLineNotExisted "topic pop"), t)
  | Some l =>
      do '(r, l') <- Line.pop (name t) (tail t) now l;
      ret (r, set_lines (<[lname := l']> (lines t)) t)
  end.

Definition mPop (lname : string) (now : nat → Z) (n : Z) (t : topic)
  : M ((error + list (N * bytes)) * topic) :=
  match lines t !! lname with
  | None => ret (inl (NewError ErrLineNotExisted "topic mPop"), t)
  | Some l =>
      do '(r, l') <- Line.mPop (name t) (tail t) now n l;
      ret (inr r, set_lines (<[lname := l']> (lines t)) t)
  end.

Definition confirm (lname : string) (id : N) (t : topic) : option error * topic :=
  match lines t !! lname with
  | None => (Some (NewError ErrLineNotExisted "topic confirm"), t)
  | Some l =>
      let (err, l') := Line.confirm id l in
      (err, set_lines (<[lname := l']> (lines t)) t)
  end.

(** The [range] loop of [empty] over the lines, visited in the order [ord]:
    [Some e] when an iteration returns [e] from [empty]. *)
Fixpoint empty_lines (ord : list string) (t : topic) : M (option error * topic) :=
  match ord with
  | [] => ret (None, t)
  | k :: rest =>
      match lines t !! k with
      | None => empty_lines rest t
      | Some l =>
          do '(err, l') <- Line.empty l;
          let t1 := set_lines (<[k := l']> (lines t)) t in
          match err with
          | Some e => ret (Some e, t1)
          | None => empty_lines rest t1
          end
      end
  end.

Definition empty (ord : list string) (t : topic) : M (option error * topic) :=
  do '(r, t1) <- empty_lines ord t;
  match r with
  | Some e => ret (Some e, t1)
  | None =>
      let t2 := set_head (tail t1) t1 in
      do err <- exportHead t2;
      match err with
      | Some e => ret (Some e, t2)
      | None => ret (None, t2)
      end
  end.

Definition getData (id : N) (t : topic) : M (error + bytes) :=
  getData (Acatui (name t) ":" id).

(** One step of the [range] loop of [getEnd] over the lines. *)
Definition getEnd_step (t : topic) (e : N) (k : string) : N :=
  match lines t !! k with
  | None => e
  | Some l =>
      if (0 <? Line.recycle l)%Z then
        if Line.ihead l <? e then Line.ihead l else e
      else
        if Line.head l <? e then Line.head l else e
  end.

Definition getEnd (ord : list string) (t : topic) : N :=
  if (size (lines t) =? 0)%nat then head t
  else foldl (getEnd_step t) (tail t) ord.

(** The loop of [clean]; [k] bounds the number of iterations and [env] is what
    the successive iterations observe of the quit channel and of the clock. *)
Fixpoint clean_loop (k : nat) (ending : N) (env : list tick) (t : topic)
  : M (bool * topic) :=
  match k with
  | O => ret (false, t)
  | S k' =>
      if head t <? ending then
        let now := default (mkTick false false) (env !! 0%nat) in
        if quitting now then ret (true, t)
        else if overdue now then ret (false, t)
        else
          let key := Acatui (name t) ":" (head t) in
          do err <- delData key;
          match err with
          | Some _ => ret (false, t)
          | None =>
              let t1 := set_head (incr64 (head t)) t in
              do err <- exportHead t1;
              match err with
              | Some _ => ret (false, t1)
              | None => clean_loop k' ending (drop 1 env) t1
              end
          end
      else ret (false, t)
  end.

Definition clean (env : list tick) (ord : list string) (t : topic)
  : M (bool * topic) :=
  let ending := getEnd ord t in
  clean_loop (N.to_nat (ending - head t)) ending env t.

(** The loop of [removeMsgData] over the ids of [[head, tail)]: a deletion that
    fails is logged and the loop goes on; [k] bounds the number of
    iterations. *)
Fixpoint removeMsgData_loop (k : nat) (i : N) (t : topic) : M unit :=
  match k with
  | O => ret ()
  | S k' =>
      if i <? tail t then
        let key := Acatui (name t) ":" i in
        do _ <- delData key;
        removeMsgData_loop k' (incr64 i) t
      else ret ()
  end.

Definition removeMsgData (t : topic) : M (option error) :=
  do _ <- removeMsgData_loop (N.to_nat (tail t - head t)) (head t) t;
  ret None.

End Operations.
End Topic.

(** ** The broker *)

(** A request (package [utils]): the fields that [Create] and [Empty] read. *)
Record QueueRequest := mkRequest {
  TopicName : string;
  LineName : string;
  Recycle : Z
}.

Module UnitedQueue.

Record queue := mkQueue { topics : gmap string Topic.topic }.

Section Operations.
Context `{GoLib}.

(** The loop of [loadTopic] over the listed lines: a line whose catalog is
    missing, empty or undecodable, or that [loadLine] refuses, is skipped. *)
Fixpoint loadLines (names : list string) (t : Topic.topic)
    (lines : gmap string Line.line) : M (gmap string Line.line) :=
  match names with
  | [] => ret lines
  | lineName :: rest =>
      let lineStoreKey := Topic.name t +:+ "/" +:+ lineName in
      do r <- Storage_Get lineStoreKey;
      match r with
      | inl _ => loadLines rest t lines
      | inr lineStoreData =>
          if (length lineStoreData =? 0)%nat then loadLines rest t lines
          else
            match gobDecodeLine lineStoreData with
            | None => loadLines rest t lines
            | Some lineStoreValue =>
                do r <- Topic.loadLine lineName lineStoreValue t;
                match r with
                | inl _ => loadLines rest t lines
                | inr l => loadLines rest t (<[lineName := l]> lines)
                end
            end
      end
  end.

(** [loadTopic]. The anchors are decoded with [binary.LittleEndian.Uint64],
    which panics on a value shorter than 8 bytes. The registration with the
    coordinator and the start of the background worker leave the topic as it
    is. *)
Definition loadTopic (topicName : string) (topicStoreValue : list string)
  : M (outcome (error + Topic.topic)) :=
  let headKey := topicName +:+ KeyTopicHead in
  do r <- Storage_Get headKey;
  match r with
  | inl e => ret (Returns (inl e))
  | inr topicHeadData =>
      match Uint64 topicHeadData with
      | None => ret Panics
      | Some hd =>
          let tailKey := topicName +:+ KeyTopicTail in
          do r <- Storage_Get tailKey;
          match r with
          | inl e => ret (Returns (inl e))
          | inr topicTailData =>
              match Uint64 topicTailData with
              | None => ret Panics
              | Some tl =>
                  let t := Topic.mkTopic topicName ∅ hd headKey tl tailKey in
                  do lines <- loadLines topicStoreValue t ∅;
                  ret (Returns (inr (Topic.set_lines lines t)))
              end
          end
      end
  end.

(** The loop of [loadQueue] over the listed topics. *)
Fixpoint loadTopics (names : list string) (u : queue) : M (outcome unit * queue) :=
  match names with
  | [] => ret (Returns (), u)
  | topicName :: rest =>
      do r <- Storage_Get topicName;
      match r with
      | inl _ => loadTopics rest u
      | inr topicStoreData =>
          if (length topicStoreData =? 0)%nat then loadTopics rest u
          else
            match gobDecodeTopic topicStoreData with
            | None => loadTopics rest u
            | Some topicStoreValue =>
                do r <- loadTopic topicName topicStoreValue;
                match r with
                | Returns (inl _) => loadTopics rest u
                | Returns (inr t) =>
                    loadTopics rest (mkQueue (<[topicName := t]> (topics u)))
                | Panics => ret (Panics, u)
                | Blocks => ret (Blocks, u)
                end
            end
      end
  end.

Definition loadQueue (u : queue) : M (outcome (option error) * queue) :=
  do r <- Storage_Get StorageKeyWord;
  match r with
  | inl _ => ret (Returns None, u)
  | inr unitedQueueStoreData =>
      if (0 <? length unitedQueueStoreData)%nat then
        match gobDecodeQueue unitedQueueStoreData with
        | Some names =>
            do '(r, u') <- loadTopics names u;
            match r with
            | Returns _ => ret (Returns None, u')
            | Panics => ret (Panics, u')
            | Blocks => ret (Blocks, u')
            end
        | None => ret (Returns None, u)
        end
      else ret (Returns None, u)
  end.

Definition newTopic (tname : string) : M (error + Topic.topic) :=
  let t := Topic.mkTopic tname ∅ 0 (tname +:+ KeyTopicHead) 0
             (tname +:+ KeyTopicTail) in
  do err <- Topic.exportHead t;
  match err with
  | Some e => ret (inl e)
  | None =>
      do err <- Topic.exportTail t;
      match err with
      | Some e => ret (inl e)
      | None => ret (inr t)
      end
  end.

(** The names of the topics, in the order [ord] of the range over
    [u.topics]. *)
Definition genQueueStore (ord : list string) (u : queue) : list string :=
  omap (λ k, (λ _, k) <$> topics u !! k) ord.

Definition exportQueue (ord : list string) (u : queue) : M (option error) :=
  match gobEncodeQueue (genQueueStore ord u) with
  | inl m => ret (Some (NewError ErrInternalError m))
  | inr b =>
      do err <- Storage_Set StorageKeyWord b;
      match err with
      | Some e => ret (Some (NewError ErrInternalError (Error_text e)))
      | None => ret None
      end
  end.

Definition createTopic (tname : string) (fromEtcd : bool) (ord : list string)
    (u : queue) : M (option error * queue) :=
  match topics u !! tname with
  | Some _ => ret (Some (NewError ErrTopicExisted "queue createTopic"), u)
  | None =>
      do r <- newTopic tname;
      match r with
      | inl e => ret (Some e, u)
      | inr t =>
          let u1 := mkQueue (<[tname := t]> (topics u)) in
          do err <- exportQueue ord u1;
          match err with
          | Some e => ret (Some e, mkQueue (delete tname (topics u1)))
          | None => ret (None, u1)
          end
      end
  end.

Definition Create (qr : QueueRequest) (ord : list string) (u : queue)
  : M (outcome (option error) * queue) :=
  if decide (TopicName qr = EmptyString) then
    ret (Returns (Some (NewError ErrBadKey "create topic name is nil")), u)
  else if decide (LineName qr ≠ EmptyString) then
    match topics u !! TopicName qr with
    | None => ret (Returns (Some (NewError ErrTopicNotExisted "queue create")), u)
    | Some t =>
        do '(r, t') <- Topic.createLine (LineName qr) (Recycle qr) false ord t;
        ret (r, mkQueue (<[TopicName qr := t']> (topics u)))
    end
  else
    do '(err, u') <- createTopic (TopicName qr) false ord u;
    ret (Returns err, u').

Definition Push (tname : string) (d : bytes) (u : queue) : M (option error * queue) :=
  match topics u !! tname with
  | None => ret (Some (NewError ErrTopicNotExisted "queue push"), u)
  | Some t =>
      do '(err, t') <- Topic.push d t;
      ret (err, mkQueue (<[tname := t']> (topics u)))
  end.

Definition MultiPush (tname : string) (datas : list bytes) (u : queue)
  : M (option error * queue) :=
  match topics u !! tname with
  | None => ret (Some (NewError ErrTopicNotExisted "queue multiPush"), u)
  | Some t =>
      do '(err, t') <- Topic.mPush datas t;
      ret (err, mkQueue (<[tname := t']> (topics u)))
  end.

Definition Pop (key : string) (now : Z) (u : queue)
  : M ((error + N * bytes) * queue) :=
  let parts := Split key "/" in
  if negb (length parts =? 2)%nat then
    ret (inl (NewError ErrBadKey
                ("pop key parts error: " +:+ ItoaQuick (length parts))), u)
  else
    let tName := nth 0 parts EmptyString in
    let lName := nth 1 parts EmptyString in
    match topics u !! tName with
    | None => ret (inl (NewError ErrTopicNotExisted "queue pop"), u)
    | Some t =>
        do '(r, t') <- Topic.pop lName now t;
        ret (r, mkQueue (<[tName := t']> (topics u)))
    end.

Definition MultiPop (key : string) (now : nat → Z) (n : Z) (u : queue)
  : M ((error + list (N * bytes)) * queue) :=
  let parts := Split key "/" in
  if negb (length parts =? 2)%nat then
    ret (inl (NewError ErrBadKey
                ("mPop key parts error: " +:+ ItoaQuick (length parts))), u)
  else
    let tName := nth 0 parts EmptyString in
    let lName := nth 1 parts EmptyString in
    match topics u !! tName with
    | None => ret (inl (NewError ErrTopicNotExisted "queue multiPop"), u)
    | Some t =>
        do '(r, t') <- Topic.mPop lName now n t;
        ret (r, mkQueue (<[tName := t']> (topics u)))
    end.

Definition Confirm (key : string) (u : queue) : option error * queue :=
  let parts := Split key "/" in
  if negb (length parts =? 3)%nat then
    (Some (NewError ErrBadKey
             ("confirm key parts error: " +:+ ItoaQuick (length parts))), u)
  else
    let topicName := nth 0 parts EmptyString in
    let lineName := nth 1 parts EmptyString in
    match ParseUint (nth 2 parts EmptyString) with
    | inl e =>
        (Some (NewError ErrBadKey
                 ("confirm key parse id error: " +:+
                  NumError_text (nth 2 parts EmptyString) e)), u)
    | inr id =>
        match topics u !! topicName with
        | None => (Some (NewError ErrTopicNotExisted "queue confirm"), u)
        | Some t =>
            let (err, t') := Topic.confirm lineName id t in
            (err, mkQueue (<[topicName := t']> (topics u)))
        end
    end.

End Operations.
End UnitedQueue.

(** ** A concrete library, for the examples

    A stand-in for [encoding/gob] and [time] on which the examples below can be
    evaluated: a catalog is a tag byte followed by the names, each closed by a
    line feed; a line snapshot is a tag byte followed by little-endian 64-bit
    words; a duration is its count of nanoseconds followed by [ns]. *)
Module Demo.

Definition nl : ascii := "010"%char.

Definition encodeNames (tag : Byte.byte) (names : list string) : string + bytes :=
  inr (tag :: String.list_byte_of_string
                (foldr (λ n acc, n +:+ String nl acc) EmptyString names)).

Definition decodeNames (tag : Byte.byte) (b : bytes) : option (list string) :=
  match b with
  | t :: rest =>
      if Byte.eqb t tag then
        Some (removelast (Split (String.string_of_list_byte rest) nl))
      else None
  | [] => None
  end.

Definition word_of_Z (z : Z) : N := Z.to_N (z mod Z.of_N two64).
Definition Z_of_word (n : N) : Z :=
  if n <? two64 / 2 then Z.of_N n else (Z.of_N n - Z.of_N two64)%Z.

Definition encodeLine (v : lineStore) : string + bytes :=
  inr (Byte.x4c :: PutUint64 (Head v) ++ PutUint64 (Ihead v) ++
       flat_map (λ m, PutUint64 (Tid m) ++ PutUint64 (word_of_Z (Exp m)))
         (Inflights v)).

Fixpoint decodeInflights (k : nat) (b : bytes) : option (list inflightMessage) :=
  match k, b with
  | _, [] => Some []
  | O, _ => None
  | S k', _ =>
      tid ← Uint64 b;
      ex ← Uint64 (drop 8 b);
      rest ← decodeInflights k' (drop 16 b);
      Some (mkInflight tid (Z_of_word ex) :: rest)
  end.

Definition decodeLine (b : bytes) : option lineStore :=
  match b with
  | t :: rest =>
      if Byte.eqb t Byte.x4c then
        hd ← Uint64 rest;
        ih ← Uint64 (drop 8 rest);
        ms ← decodeInflights (length rest) (drop 16 rest);
        Some (mkLineStore hd ih ms)
      else None
  | [] => None
  end.

Definition durationString (d : Z) : string := pretty d +:+ "ns".

Definition parseDuration (s : string) : string + Z :=
  match Split s "n" with
  | [digits; "s"] =>
      match ParseUint digits with
      | inr n => inr (Z.of_N n)
      | inl e => inl (NumError_text digits e)
      end
  | _ => inl ("time: invalid duration " +:+ s)
  end.

Definition lib : GoLib := {|
  gobEncodeQueue := encodeNames Byte.x51;
  gobDecodeQueue := decodeNames Byte.x51;
  gobEncodeTopic := encodeNames Byte.x54;
  gobDecodeTopic := decodeNames Byte.x54;
  gobEncodeLine := encodeLine;
  gobDecodeLine := decodeLine;
  ParseDuration := parseDuration;
  Duration_String := durationString
|}.

(** A backend that holds nothing and never fails. *)
Definition blank : Storage := mkStorage ∅ [] [].

(** A backend that holds nothing and whose operations fail as scheduled. *)
Definition failing (fs : list bool) : Storage := mkStorage ∅ fs [].

(** A topic as [newTopic] creates it. *)
Definition T0 : Topic.topic := Topic.mkTopic "T" ∅ 0 "T:head" 0 "T:tail".

(** A topic of five messages with two lines: [L1] acknowledges on delivery and
    has read everything; [L2] has a recycle of 10 ns, has delivered four
    messages and had the first two confirmed. *)
Definition L1 : Line.line := Line.mkLine "L1" 5 0 "T/L1:recycle" [] 5 ∅.
Definition L2 : Line.line :=
  Line.mkLine "L2" 4 10 "T/L2:recycle" [mkInflight 2 100; mkInflight 3 100] 2
    (<[3 := true]> {[2 := true]}).
Definition T1 : Topic.topic :=
  Topic.mkTopic "T" (<["L2" := L2]> {["L1" := L1]}) 0 "T:head" 5 "T:tail".

(** The store of [T1], which never fails. *)
Definition store1 : Storage :=
  mkStorage
    (list_to_map
       [("T:0", [Byte.x61]); ("T:1", [Byte.x62]); ("T:2", [Byte.x63]);
        ("T:3", [Byte.x64]); ("T:4", [Byte.x65]);
        ("T:head", PutUint64 0); ("T:tail", PutUint64 5)])
    [] [].

(** The topic [T1] once its first two messages are reclaimed, and its store. *)
Definition T2 : Topic.topic :=
  Topic.mkTopic "T" (<["L2" := L2]> {["L1" := L1]}) 2 "T:head" 5 "T:tail".
Definition store2 : Storage :=
  mkStorage
    (list_to_map
       [("T:2", [Byte.x63]); ("T:3", [Byte.x64]); ("T:4", [Byte.x65]);
        ("T:head", PutUint64 2); ("T:tail", PutUint64 5)])
    [] [].

(** A topic of five messages that has no line. *)
Definition T3 : Topic.topic := Topic.mkTopic "T" ∅ 0 "T:head" 5 "T:tail".

(** A store whose catalog lists the topics [T] and [topic2], each with a
    catalog that lists one line; the tail anchor of [T] is missing. *)
Definition store_missing_anchor : Storage :=
  mkStorage
    (list_to_map
       [("UnitedQueueKey",
         Byte.x51 :: String.list_byte_of_string
                       ("T" +:+ String nl ("topic2" +:+ String nl EmptyString)));
        ("T", Byte.x54 :: String.list_byte_of_string
                            ("reader1" +:+ String nl EmptyString));
        ("T:head", PutUint64 3);
        ("topic2", Byte.x54 :: String.list_byte_of_string
                                 ("reader1" +:+ String nl EmptyString));
        ("topic2:head", PutUint64 1); ("topic2:tail", PutUint64 4)])
    [] [].

(** A store whose catalog lists the topics [T] and [U]; the head anchor of [T]
    holds three bytes. *)
Definition store_short_anchor : Storage :=
  mkStorage
    (list_to_map
       [("UnitedQueueKey", Byte.x51 :: String.list_byte_of_string
                             ("T" +:+ String nl ("U" +:+ String nl EmptyString)));
        ("T", [Byte.x54]); ("T:head", [Byte.x01; Byte.x02; Byte.x03]);
        ("T:tail", PutUint64 0);
        ("U", [Byte.x54]); ("U:head", PutUint64 0); ("U:tail", PutUint64 0)])
    [] [].

End Demo.

(** * Vocabulary of the properties *)

(** The outcome scheduled for the [n]-th coming operation of the backend. *)
Definition fault_at (n : nat) (s : Storage) : bool :=
  default false (faults s !! n).

(** What the [n]-th coming iteration of a clean pass observes. *)
Definition tick_at (n : nat) (env : list tick) : tick :=
  default (mkTick false false) (env !! n).

(** The frontier of a line for reclamation: the first id it has not yet
    released. *)
Definition frontier (l : Line.line) : N :=
  if (0 <? Line.recycle l)%Z then Line.ihead l else Line.head l.

(** A topic as [newTopic] and [loadTopic] build it: its anchors are stored at
    ["{topic}:head"] and ["{topic}:tail"], and its offsets are [uint64]s. *)
Definition wf_topic (t : Topic.topic) : Prop :=
  Topic.headKey t = Topic.name t +:+ KeyTopicHead ∧
  Topic.tailKey t = Topic.name t +:+ KeyTopicTail ∧
  is_uint64 (Topic.head t) ∧ is_uint64 (Topic.tail t).

(** The writes of a batch whose payloads were all accepted. *)
Fixpoint payload_ops (tname : string) (tl : N) (datas : list bytes)
  : list (kvop * bool) :=
  match datas with
  | [] => []
  | d :: rest =>
      (OpSet (Acatui tname ":" tl) d, true) :: payload_ops tname (incr64 tl) rest
  end.

(** The operations of [n] complete iterations of a clean pass that starts at
    id [h]: each deletes the message key and then writes the head anchor. *)
Fixpoint pass_ops (tname hk : string) (h : N) (n : nat) : list (kvop * bool) :=
  match n with
  | O => []
  | S n' =>
      (OpDel (Acatui tname ":" h), true) ::
      (OpSet hk (PutUint64 (h + 1)), true) :: pass_ops tname hk (h + 1) n'
  end.

(** Why a clean pass stops. *)
Inductive stop := Finished | Shutdown | Deadline | DeleteFailed | AnchorFailed.

(** The operations of the iteration at id [h] that stops the pass. *)
Definition last_ops (tname hk : string) (h : N) (why : stop) : list (kvop * bool) :=
  match why with
  | Finished | Shutdown | Deadline => []
  | DeleteFailed => [(OpDel (Acatui tname ":" h), false)]
  | AnchorFailed =>
      [(OpDel (Acatui tname ":" h), true); (OpSet hk (PutUint64 (h + 1)), false)]
  end.

(** The head moves once more in the iteration whose anchor write fails. *)
Definition last_step (why : stop) : N :=
  match why with AnchorFailed => 1 | _ => 0 end.

(** When the pass stops for [why] at id [h]: [tk] is what that iteration
    observes, [f0] and [f1] the outcomes scheduled for its two operations. *)
Definition stop_reason (why : stop) (ending h : N) (tk : tick) (f0 f1 : bool)
  : Prop :=
  match why with
  | Finished => ending ≤ h
  | Shutdown => h < ending ∧ quitting tk = true
  | Deadline => h < ending ∧ quitting tk = false ∧ overdue tk = true
  | DeleteFailed =>
      h < ending ∧ quitting tk = false ∧ overdue tk = false ∧ f0 = true
  | AnchorFailed =>
      h < ending ∧ quitting tk = false ∧ overdue tk = false ∧
      f0 = false ∧ f1 = true
  end.

(** A line after [empty]: nothing delivered is left to confirm. *)
Definition emptied (l : Line.line) : Line.line :=
  Line.set_imap ∅ (Line.set_inflight [] (Line.set_ihead (Line.head l) l)).

(** The number of occurrences of the byte [c] in [s]. *)
Fixpoint count_byte (c : ascii) (s : string) : nat :=
  match s with
  | EmptyString => 0
  | String a r => (if Ascii.eqb a c then 1 else 0) + count_byte c r
  end.

Definition is_digit (c : ascii) : bool :=
  (48 <=? N_of_ascii c) && (N_of_ascii c <=? 57).

Fixpoint all_digits (s : string) : bool :=
  match s with
  | EmptyString => true
  | String c r => is_digit c && all_digits r
  end.

(** The number that the decimal digits [s] denote after the digits of [n]. *)
Fixpoint decimal (s : string) (n : N) : N :=
  match s with
  | EmptyString => n
  | String c r => decimal r (n * 10 + (N_of_ascii c - 48))
  end.

(** The anchors that the store holds are at least 8 bytes long, as
    [exportHead] and [exportTail] write them. *)
Definition anchors_decodable (d : gmap string bytes) : Prop :=
  ∀ tname v,
    d !! (tname +:+ KeyTopicHead) = Some v ∨ d !! (tname +:+ KeyTopicTail) = Some v →
    (8 ≤ length v)%nat.

(** The store agrees with the topic: its anchors hold the topic's head and
    tail. *)
Definition anchored (t : Topic.topic) (s : Storage) : Prop :=
  data s !! Topic.headKey t = Some (PutUint64 (Topic.head t)) ∧
  data s !! Topic.tailKey t = Some (PutUint64 (Topic.tail t)).

(** Every line of the topic is attached under its own name. *)
Definition lines_named (t : Topic.topic) : Prop :=
  ∀ k l, Topic.lines t !! k = Some l → Line.name l = k.

(** Going from [s] to [s'] has only read the store. *)
Definition reads_only (s s' : Storage) : Prop :=
  data s' = data s ∧
  ∃ J, journal s' = journal s ++ J ∧ ∀ op ok, (op, ok) ∈ J → ∃ k, op = OpGet k.

(** What the broker keeps in the store, and the key of each entry as the code
    builds it: the broker catalog ([exportQueue]), the catalog of a topic
    ([exportTopic]), its two anchors ([newTopic], [loadTopic]), a message
    ([push], [mPush], [clean]), the snapshot of a line ([loadTopic]) and the
    recycle duration of a line ([newLine], [loadLine]). *)
Inductive stored :=
  | BrokerCatalog
  | TopicCatalog (T : string)
  | HeadAnchor (T : string)
  | TailAnchor (T : string)
  | Message (T : string) (i : N)
  | LineSnapshot (T L : string)
  | LineRecycle (T L : string).

Definition key_of (e : stored) : string :=
  match e with
  | BrokerCatalog => StorageKeyWord
  | TopicCatalog T => T
  | HeadAnchor T => T +:+ KeyTopicHead
  | TailAnchor T => T +:+ KeyTopicTail
  | Message T i => Acatui T ":" i
  | LineSnapshot T L => T +:+ "/" +:+ L
  | LineRecycle T L => T +:+ "/" +:+ L +:+ KeyLineRecycle
  end.

(** A name without the two separators of the keys. *)
Definition plain (s : string) : Prop :=
  count_byte "/" s = 0%nat ∧ count_byte ":" s = 0%nat.

(** The names of the entry are plain, and its topic is not named as the
    broker's own key. *)
Definition plain_names (e : stored) : Prop :=
  match e with
  | BrokerCatalog => True
  | TopicCatalog T => plain T ∧ T ≠ StorageKeyWord
  | HeadAnchor T | TailAnchor T | Message T _ => plain T
  | LineSnapshot T L | LineRecycle T L => plain T ∧ plain L
  end.

(** The numbers of ['/'] and of [':'] in the key of an entry with plain
    names. *)
Definition separators (e : stored) : nat * nat :=
  match e with
  | BrokerCatalog | TopicCatalog _ => (0, 0)
  | HeadAnchor _ | TailAnchor _ | Message _ _ => (0, 1)
  | LineSnapshot _ _ => (1, 0)
  | LineRecycle _ _ => (1, 1)
  end%nat.

(** A backend that holds [d] and has no failure scheduled. *)
Definition steady (d : gmap string bytes) (s : Storage) : Prop :=
  data s = d ∧ faults s = [].

(** * Properties *)

(** ** Machine integers *)

Lemma incr64_small x : x < maxUint64 → incr64 x = x + 1.
Proof.
  unfold incr64, maxUint64, two64. intros Hx. apply N.mod_small. lia.
Qed.

Lemma decr64_incr64 x : is_uint64 x → decr64 (incr64 x) = x.
Proof.
  unfold is_uint64, decr64, incr64, maxUint64, two64. intros Hx.
  destruct (N.eq_dec x 18446744073709551615) as [->|Hne]; [reflexivity|].
  rewrite (N.mod_small (x + 1)) by lia.
  replace (x + 1 + 18446744073709551615)
    with (x + 1 * 18446744073709551616) by lia.
  rewrite N.Div0.mod_add. apply N.mod_small. lia.
Qed.

(** An anchor that [PutUint64] has encoded decodes to the same offset. *)
Lemma byte_of_N_to_N n : Byte.to_N (byte_of_N n) = n mod 256.
Proof.
  unfold byte_of_N.
  destruct (Byte.of_N (n mod 256)) as [b|] eqn:Hb.
  - simpl. by apply Byte.to_of_N.
  - apply Byte.of_N_None_iff in Hb. pose proof (N.mod_lt n 256 ltac:(done)). lia.
Qed.

Lemma Uint64_PutUint64 v : is_uint64 v → Uint64 (PutUint64 v) = Some v.
Proof.
  unfold is_uint64, two64, Uint64, PutUint64. intros Hv.
  rewrite !byte_of_N_to_N. f_equal.
  change (2 ^ 8) with 256. change (2 ^ 16) with (256 * 256).
  change (2 ^ 24) with (256 * 256 * 256).
  change (2 ^ 32) with (256 * 256 * 256 * 256).
  change (2 ^ 40) with (256 * 256 * 256 * 256 * 256).
  change (2 ^ 48) with (256 * 256 * 256 * 256 * 256 * 256).
  change (2 ^ 56) with (256 * 256 * 256 * 256 * 256 * 256 * 256).
  rewrite <-!N.Div0.div_div.
  set (v1 := v / 256). set (v2 := v1 / 256). set (v3 := v2 / 256).
  set (v4 := v3 / 256). set (v5 := v4 / 256). set (v6 := v5 / 256).
  set (v7 := v6 / 256).
  assert (v = 256 * v1 + v mod 256) by (by apply N.div_mod).
  assert (v1 = 256 * v2 + v1 mod 256) by (by apply N.div_mod).
  assert (v2 = 256 * v3 + v2 mod 256) by (by apply N.div_mod).
  assert (v3 = 256 * v4 + v3 mod 256) by (by apply N.div_mod).
  assert (v4 = 256 * v5 + v4 mod 256) by (by apply N.div_mod).
  assert (v5 = 256 * v6 + v5 mod 256) by (by apply N.div_mod).
  assert (v6 = 256 * v7 + v6 mod 256) by (by apply N.div_mod).
  assert (v7 = 256 * (v7 / 256) + v7 mod 256) by (by apply N.div_mod).
  assert (v7 / 256 = 0) as H7.
  { unfold v7, v6, v5, v4, v3, v2, v1. rewrite !N.Div0.div_div.
    apply N.div_small. lia. }
  clearbody v1 v2 v3 v4 v5 v6 v7. rewrite H7 in *. lia.
Qed.

(** ** The backend *)

Lemma fault_at_0 s : fault_at 0 s = next_fault s.
Proof. reflexivity. Qed.

Lemma fault_at_record n op ok d s :
  fault_at n (record op ok d s) = fault_at (S n) s.
Proof.
  unfold fault_at, record; simpl. by destruct (faults s), n.
Qed.

Lemma setData_ok k v s :
  next_fault s = false →
  setData k v s = (None, record (OpSet k v) true (<[k := v]> (data s)) s).
Proof. intros Hf. unfold setData, bind, Storage_Set. by rewrite Hf. Qed.

Lemma setData_fail k v s :
  next_fault s = true →
  setData k v s
  = (Some (NewError ErrInternalError io_failure),
     record (OpSet k v) false (data s) s).
Proof. intros Hf. unfold setData, bind, Storage_Set. by rewrite Hf. Qed.

Lemma delData_ok k s :
  next_fault s = false →
  delData k s = (None, record (OpDel k) true (delete k (data s)) s).
Proof. intros Hf. unfold delData, bind, Storage_Del. by rewrite Hf. Qed.

Lemma delData_fail k s :
  next_fault s = true →
  delData k s
  = (Some (NewError ErrInternalError io_failure),
     record (OpDel k) false (data s) s).
Proof. intros Hf. unfold delData, bind, Storage_Del. by rewrite Hf. Qed.

Section Properties.
Context `{GoLib}.

Lemma exportTail_ok t s :
  next_fault s = false →
  Topic.exportTail t s
  = (None, record (OpSet (Topic.tailKey t) (PutUint64 (Topic.tail t))) true
             (<[Topic.tailKey t := PutUint64 (Topic.tail t)]> (data s)) s).
Proof. intros Hf. unfold Topic.exportTail, bind. by rewrite setData_ok. Qed.

Lemma exportTail_fail t s :
  next_fault s = true →
  Topic.exportTail t s
  = (Some (NewError ErrInternalError io_failure),
     record (OpSet (Topic.tailKey t) (PutUint64 (Topic.tail t))) false (data s) s).
Proof. intros Hf. unfold Topic.exportTail, bind. by rewrite setData_fail. Qed.

Lemma exportHead_ok t s :
  next_fault s = false →
  Topic.exportHead t s
  = (None, record (OpSet (Topic.headKey t) (PutUint64 (Topic.head t))) true
             (<[Topic.headKey t := PutUint64 (Topic.head t)]> (data s)) s).
Proof. intros Hf. unfold Topic.exportHead, bind. by rewrite setData_ok. Qed.

Lemma exportHead_fail t s :
  next_fault s = true →
  Topic.exportHead t s
  = (Some (NewError ErrInternalError io_failure),
     record (OpSet (Topic.headKey t) (PutUint64 (Topic.head t))) false (data s) s).
Proof. intros Hf. unfold Topic.exportHead, bind. by rewrite setData_fail. Qed.

(** ** The push path *)

(** C4. [push] writes the payload at ["{topic}:{tail}"], then increments
    [tail], then writes the tail anchor. When the payload write fails nothing
    changes; when the anchor write fails [tail] is back at its prior value while
    the payload stays in the store; when both succeed [push] returns no error
    (and no id: its only result is the error). *)
Theorem push_persists_then_advances (t : Topic.topic) (d : bytes) (s : Storage) :
  is_uint64 (Topic.tail t) →
  let key := Acatui (Topic.name t) ":" (Topic.tail t) in
  let anchor := PutUint64 (incr64 (Topic.tail t)) in
  let '(r, t', s') := Topic.push d t s in
  if fault_at 0 s then
    has_code ErrInternalError r ∧ t' = t ∧ data s' = data s ∧
    journal s' = journal s ++ [(OpSet key d, false)]
  else if fault_at 1 s then
    has_code ErrInternalError r ∧ t' = t ∧
    data s' = <[key := d]> (data s) ∧
    journal s' = journal s ++
      [(OpSet key d, true); (OpSet (Topic.tailKey t) anchor, false)]
  else
    r = None ∧ t' = Topic.set_tail (incr64 (Topic.tail t)) t ∧
    data s' = <[Topic.tailKey t := anchor]> (<[key := d]> (data s)) ∧
    journal s' = journal s ++
      [(OpSet key d, true); (OpSet (Topic.tailKey t) anchor, true)].
Proof.
  intros Hu key anchor. unfold Topic.push, bind. fold key.
  rewrite fault_at_0.
  destruct (next_fault s) eqn:Hf0.
  - rewrite setData_fail by done. simpl. split_and!; try done. by eexists.
  - rewrite setData_ok by done.
    set (s1 := record _ _ _ s).
    assert (next_fault s1 = fault_at 1 s) as Hf1.
    { rewrite <-fault_at_0. apply fault_at_record. }
    destruct (fault_at 1 s) eqn:Hf.
    + rewrite exportTail_fail by done. simpl. split_and!.
      * by eexists.
      * rewrite decr64_incr64 by done. by destruct t.
      * done.
      * by rewrite <-app_assoc.
    + rewrite exportTail_ok by done. simpl. split_and!; try done.
      by rewrite <-app_assoc.
Qed.

(** The loop of [mPush] stops at the first empty payload: with [BadRequest] if
    every earlier payload was written, with the backend's error if one of
    these writes failed. *)
Lemma mPush_loop_empty_payload (pre post : list bytes) oldTail t s :
  Forall (λ d : bytes, d ≠ []) pre →
  let '(r, _, _) := Topic.mPush_loop oldTail (pre ++ [] :: post) t s in
  ((∀ i, (i < length pre)%nat → fault_at i s = false) →
     r = Some (NewError ErrBadRequest "message has no content")) ∧
  ((∃ i, (i < length pre)%nat ∧ fault_at i s = true) →
     r = Some (NewError ErrInternalError io_failure)).
Proof.
  intros Hpre. revert t s.
  induction Hpre as [|d pre Hd _ IH]; intros t s; simpl.
  - split; [done|]. intros (i & Hi & _). lia.
  - destruct d as [|b d]; [done|]. simpl. unfold bind.
    destruct (next_fault s) eqn:Hf0.
    + rewrite setData_fail by done. split; [|done].
      intros Hno. specialize (Hno 0%nat ltac:(lia)).
      rewrite fault_at_0 in Hno. congruence.
    + rewrite setData_ok by done.
      set (s1 := record _ _ _ s). set (t1 := Topic.set_tail _ t).
      specialize (IH t1 s1).
      destruct (Topic.mPush_loop oldTail (pre ++ [] :: post) t1 s1)
        as [[r t'] s'].
      destruct IH as [IH1 IH2]. split.
      * intros Hno. apply IH1. intros i Hi. unfold s1.
        rewrite fault_at_record. apply Hno. lia.
      * intros (i & Hi & Hfi). apply IH2. destruct i as [|i].
        { rewrite fault_at_0 in Hfi. congruence. }
        exists i. split; [lia|]. unfold s1. by rewrite fault_at_record.
Qed.

(** C5, amended. A batch with an empty payload always fails; the error is
    [BadRequest] when the writes of the payloads before the first empty one all
    succeed, and the backend's [Internal] error when one of them fails. *)
Theorem mPush_empty_payload_rejected (pre post : list bytes) t s :
  Forall (λ d : bytes, d ≠ []) pre →
  let '(r, _, _) := Topic.mPush (pre ++ [] :: post) t s in
  r ≠ None ∧
  ((∀ i, (i < length pre)%nat → fault_at i s = false) →
     r = Some (NewError ErrBadRequest "message has no content")) ∧
  ((∃ i, (i < length pre)%nat ∧ fault_at i s = true) →
     r = Some (NewError ErrInternalError io_failure)).
Proof.
  intros Hpre. unfold Topic.mPush, bind.
  pose proof (mPush_loop_empty_payload pre post (Topic.tail t) t s Hpre) as Hl.
  destruct (Topic.mPush_loop (Topic.tail t) (pre ++ [] :: post) t s)
    as [[r t1] s1].
  destruct Hl as [Hbad Hint].
  assert (r ≠ None) as Hr.
  { destruct (forallb (λ i, negb (fault_at i s)) (seq 0 (length pre))) eqn:Hall.
    - rewrite Hbad; [done|]. intros i Hi.
      rewrite forallb_forall in Hall.
      specialize (Hall i). rewrite negb_true_iff in Hall. apply Hall.
      apply in_seq. lia.
    - assert (∃ i, (i < length pre)%nat ∧ fault_at i s = true) as Hex.
      { apply not_true_iff_false in Hall.
        destruct (decide (Exists (λ i, fault_at i s = true) (seq 0 (length pre))))
          as [Hex|Hnex].
        - apply Exists_exists in Hex as (i & Hi & Hfi).
          apply list_elem_of_In, in_seq in Hi. exists i. split; [lia|done].
        - exfalso. apply Hall. apply forallb_forall. intros i Hi.
          apply negb_true_iff. apply not_true_is_false. intros Hfi.
          apply Hnex, Exists_exists. exists i. split; [|done].
          by apply list_elem_of_In. }
      by rewrite Hint. }
  destruct r as [e|]; [|done]. simpl. auto.
Qed.

(** The error paths of [mPush] that follow a failure of the backend put [tail]
    back at its value before the batch. *)
Lemma mPush_loop_tail oldTail datas t s :
  let '(r, t', _) := Topic.mPush_loop oldTail datas t s in
  match r with
  | Some (NewError ErrInternalError _) => Topic.tail t' = oldTail
  | Some _ => True
  | None => Topic.tail t' = Nat.iter (length datas) incr64 (Topic.tail t)
  end.
Proof.
  revert t s. induction datas as [|d datas IH]; intros t s; simpl; [done|].
  destruct d as [|b d]; [done|]. simpl. unfold bind.
  destruct (next_fault s) eqn:Hf0.
  - by rewrite setData_fail.
  - rewrite setData_ok by done.
    set (s1 := record _ _ _ s). set (t1 := Topic.set_tail _ t).
    specialize (IH t1 s1).
    destruct (Topic.mPush_loop oldTail datas t1 s1) as [[r t'] s'].
    destruct r as [[[]|]|]; try done.
    rewrite IH. unfold t1. simpl.
    by rewrite <-Nat.iter_succ_r.
Qed.

Lemma mPush_internal_error_restores_tail datas t s :
  let '(r, t', _) := Topic.mPush datas t s in
  has_code ErrInternalError r → Topic.tail t' = Topic.tail t.
Proof.
  unfold Topic.mPush, bind.
  pose proof (mPush_loop_tail (Topic.tail t) datas t s) as Hl.
  destruct (Topic.mPush_loop (Topic.tail t) datas t s) as [[r t1] s1].
  destruct r as [e|].
  - simpl. intros [m [= ->]]. exact Hl.
  - destruct (next_fault s1) eqn:Hf.
    + rewrite exportTail_fail by done. done.
    + rewrite exportTail_ok by done. by intros [m ?].
Qed.

Lemma mPush_loop_journal oldTail datas t s :
  let '(r, t', s') := Topic.mPush_loop oldTail datas t s in
  r = None →
  journal s' = journal s ++ payload_ops (Topic.name t) (Topic.tail t) datas ∧
  Topic.tailKey t' = Topic.tailKey t ∧ Forall (λ d : bytes, d ≠ []) datas.
Proof.
  revert t s. induction datas as [|d datas IH]; intros t s; simpl.
  - intros _. by rewrite app_nil_r.
  - destruct d as [|b d]; [done|]. simpl. unfold bind.
    destruct (next_fault s) eqn:Hf0.
    + by rewrite setData_fail.
    + rewrite setData_ok by done.
      set (s1 := record _ _ _ s). set (t1 := Topic.set_tail _ t).
      specialize (IH t1 s1).
      destruct (Topic.mPush_loop oldTail datas t1 s1) as [[r t'] s'].
      intros Hr. destruct (IH Hr) as (Hj & Hk & Hne).
      split_and!; [|done|by constructor].
      rewrite Hj. unfold s1, t1. simpl. by rewrite <-app_assoc.
Qed.

(** X23. A successful [mPush] writes the payloads in the order of the batch,
    each under the key of the next id, and then, as its last operation and
    once, the new tail anchor; it performs no other operation on the store. *)
Lemma mPush_success_publishes_tail_last datas t s :
  let '(r, t', s') := Topic.mPush datas t s in
  r = None →
  journal s' = journal s ++ payload_ops (Topic.name t) (Topic.tail t) datas ++
               [(OpSet (Topic.tailKey t) (PutUint64 (Topic.tail t')), true)] ∧
  Topic.tail t' = Nat.iter (length datas) incr64 (Topic.tail t).
Proof.
  unfold Topic.mPush, bind.
  pose proof (mPush_loop_journal (Topic.tail t) datas t s) as Hj.
  pose proof (mPush_loop_tail (Topic.tail t) datas t s) as Hl.
  destruct (Topic.mPush_loop (Topic.tail t) datas t s) as [[r t1] s1].
  destruct r as [e|]; [done|].
  destruct (Hj eq_refl) as (Hj1 & Hk & _).
  destruct (next_fault s1) eqn:Hf.
  - by rewrite exportTail_fail.
  - rewrite exportTail_ok by done. intros _. simpl.
    by rewrite Hj1, Hk, <-app_assoc.
Qed.

(** When [mPush] stops at an empty payload, [tail] stays where the accepted
    payloads have moved it: it has advanced once for each payload written
    before the empty one. *)
Lemma mPush_bad_request_tail (pre post : list bytes) t s :
  Forall (λ d : bytes, d ≠ []) pre →
  (∀ i, (i < length pre)%nat → fault_at i s = false) →
  Topic.tail (Topic.mPush (pre ++ [] :: post) t s).1.2
  = Nat.iter (length pre) incr64 (Topic.tail t).
Proof.
  intros Hpre. unfold Topic.mPush, bind.
  generalize (Topic.tail t) at 1 as oldTail. intros oldTail.
  assert (∀ t s,
            (∀ i, (i < length pre)%nat → fault_at i s = false) →
            ∃ t' s', Topic.mPush_loop oldTail (pre ++ [] :: post) t s
                     = (Some (NewError ErrBadRequest "message has no content"),
                        t', s') ∧
                     Topic.tail t' = Nat.iter (length pre) incr64 (Topic.tail t))
    as Hloop.
  { clear t s. induction Hpre as [|d pre Hd _ IH]; intros t s Hno; simpl.
    - by eexists _, _.
    - destruct d as [|b d]; [done|]. simpl. unfold bind.
      rewrite setData_ok by (rewrite <-fault_at_0; apply Hno; simpl; lia).
      edestruct IH as (t' & s' & -> & Ht').
      { intros i Hi. rewrite fault_at_record. apply Hno. simpl. lia. }
      eexists _, _. split; [done|]. rewrite Ht'. simpl.
      by rewrite <-Nat.iter_succ_r. }
  intros Hno. destruct (Hloop t s Hno) as (t' & s' & -> & Ht'). exact Ht'.
Qed.

(** ** The reclamation bound *)

Lemma getEnd_step_min t e k l :
  Topic.lines t !! k = Some l → Topic.getEnd_step t e k = N.min (frontier l) e.
Proof.
  intros Hl. unfold Topic.getEnd_step, frontier. rewrite Hl.
  destruct (0 <? Line.recycle l)%Z.
  - destruct (N.ltb_spec (Line.ihead l) e); lia.
  - destruct (N.ltb_spec (Line.head l) e); lia.
Qed.

Lemma getEnd_step_none t e k :
  Topic.lines t !! k = None → Topic.getEnd_step t e k = e.
Proof. intros Hl. unfold Topic.getEnd_step. by rewrite Hl. Qed.

Lemma getEnd_step_comm t e k1 k2 :
  Topic.getEnd_step t (Topic.getEnd_step t e k1) k2
  = Topic.getEnd_step t (Topic.getEnd_step t e k2) k1.
Proof.
  destruct (Topic.lines t !! k1) as [l1|] eqn:H1;
    destruct (Topic.lines t !! k2) as [l2|] eqn:H2.
  - rewrite !(getEnd_step_min _ _ k1 l1), !(getEnd_step_min _ _ k2 l2) by done.
    lia.
  - by rewrite !(getEnd_step_none _ _ k2).
  - by rewrite !(getEnd_step_none _ _ k1).
  - by rewrite !(getEnd_step_none _ _ k1), !(getEnd_step_none _ _ k2).
Qed.

(** The result of the loop of [getEnd] does not depend on the order in which
    the runtime ranges over the lines. *)
Lemma getEnd_fold_perm t (l1 l2 : list string) :
  l1 ≡ₚ l2 → ∀ e, foldl (Topic.getEnd_step t) e l1 = foldl (Topic.getEnd_step t) e l2.
Proof.
  induction 1 as [|k l1 l2 _ IH|k1 k2 l|l1 l2 l3 _ IH1 _ IH2]; intros e; simpl.
  - done.
  - apply IH.
  - by rewrite getEnd_step_comm.
  - by rewrite IH1.
Qed.

Lemma foldr_min_cap (ns : list N) (a e : N) :
  foldr N.min (N.min a e) ns = N.min a (foldr N.min e ns).
Proof. induction ns as [|n ns IH]; simpl; [done|]. rewrite IH. lia. Qed.

Lemma getEnd_fold_min t (kl : list (string * Line.line)) :
  (∀ k l, (k, l) ∈ kl → Topic.lines t !! k = Some l) →
  ∀ e, foldl (Topic.getEnd_step t) e kl.*1 = foldr N.min e (frontier <$> kl.*2).
Proof.
  induction kl as [|[k l] kl IH]; intros Hkl e; simpl; [done|].
  rewrite (getEnd_step_min t e k l) by (apply Hkl; left).
  rewrite IH by (intros; apply Hkl; by right).
  apply foldr_min_cap.
Qed.

(** The capped minimum really is one: below the cap, below every element, and
    one of them. *)
Lemma capped_min_spec (cap : N) (ns : list N) :
  foldr N.min cap ns ≤ cap ∧
  (∀ n, n ∈ ns → foldr N.min cap ns ≤ n) ∧
  (foldr N.min cap ns = cap ∨ foldr N.min cap ns ∈ ns).
Proof.
  induction ns as [|n ns (IH1 & IH2 & IH3)]; simpl.
  - split_and!; [lia| |by left]. intros n Hn. by apply elem_of_nil in Hn.
  - split_and!.
    + lia.
    + intros m [->|Hm]%elem_of_cons; [lia|]. specialize (IH2 m Hm). lia.
    + destruct (N.min_spec n (foldr N.min cap ns)) as [[_ ->]|[_ ->]].
      * right; left.
      * destruct IH3 as [?|?]; [by left|right; by right].
Qed.

Lemma getEnd_no_lines ord t : Topic.lines t = ∅ → Topic.getEnd ord t = Topic.head t.
Proof. intros Hl. unfold Topic.getEnd. by rewrite Hl, map_size_empty. Qed.

Lemma getEnd_some_lines ord t :
  range_of (Topic.lines t) ord → Topic.lines t ≠ ∅ →
  Topic.getEnd ord t
  = foldr N.min (Topic.tail t) (frontier <$> (map_to_list (Topic.lines t)).*2).
Proof.
  intros Hord Hne. unfold Topic.getEnd.
  destruct (Nat.eqb_spec (size (Topic.lines t)) 0) as [Hsz|_].
  { by apply map_size_empty_iff in Hsz. }
  rewrite (getEnd_fold_perm t _ _ Hord).
  apply getEnd_fold_min. intros k l Hkl. by apply elem_of_map_to_list.
Qed.

(** Every deletion that the loop of [clean] attempts is the deletion of the
    key of an id below [ending]. *)
Lemma clean_loop_deletes_below k ending env t s :
  let '(_, _, s') := Topic.clean_loop k ending env t s in
  ∃ J, journal s' = journal s ++ J ∧
       ∀ key ok, (OpDel key, ok) ∈ J →
                 ∃ i, i < ending ∧ key = Acatui (Topic.name t) ":" i.
Proof.
  revert env t s. induction k as [|k IH]; intros env t s; simpl.
  { exists []. split; [by rewrite app_nil_r|]. intros ?? Hin.
    by apply elem_of_nil in Hin. }
  assert (∃ J : list (kvop * bool), journal s = journal s ++ J ∧
            ∀ key ok, (OpDel key, ok) ∈ J →
                      ∃ i, i < ending ∧ key = Acatui (Topic.name t) ":" i) as Hnil.
  { exists []. split; [by rewrite app_nil_r|]. intros ?? Hin.
    by apply elem_of_nil in Hin. }
  destruct (N.ltb_spec (Topic.head t) ending) as [Hlt|_]; [|done].
  destruct (quitting _); [done|]. destruct (overdue _); [done|].
  unfold bind.
  assert (∀ ok, ∃ J : list (kvop * bool),
            journal s ++ [(OpDel (Acatui (Topic.name t) ":" (Topic.head t)), ok)]
            = journal s ++ J ∧
            ∀ key ok, (OpDel key, ok) ∈ J →
                      ∃ i, i < ending ∧ key = Acatui (Topic.name t) ":" i) as Hdel.
  { intros ok. eexists. split; [done|]. intros key ok' Hin.
    apply list_elem_of_singleton in Hin. injection Hin as -> _.
    by exists (Topic.head t). }
  destruct (next_fault s) eqn:Hf0.
  { rewrite delData_fail by done. simpl. apply Hdel. }
  rewrite delData_ok by done.
  set (s1 := record _ _ _ s). set (t1 := Topic.set_head _ t).
  assert (∀ ok, ∃ J : list (kvop * bool),
            journal s1 ++ [(OpSet (Topic.headKey t1) (PutUint64 (Topic.head t1)), ok)]
            = journal s ++ J ∧
            ∀ key ok, (OpDel key, ok) ∈ J →
                      ∃ i, i < ending ∧ key = Acatui (Topic.name t) ":" i) as Hset.
  { intros ok. unfold s1. simpl. rewrite <-app_assoc. eexists. split; [done|].
    intros key ok' Hin. simpl in Hin.
    apply elem_of_cons in Hin as [Hin|Hin].
    - injection Hin as -> _. by exists (Topic.head t).
    - apply list_elem_of_singleton in Hin. discriminate. }
  destruct (next_fault s1) eqn:Hf1.
  { rewrite exportHead_fail by done. simpl. apply Hset. }
  rewrite exportHead_ok by done.
  set (s2 := record _ _ _ s1).
  specialize (IH (drop 1 env) t1 s2).
  destruct (Topic.clean_loop k ending (drop 1 env) t1 s2) as [[q t'] s'].
  destruct IH as (J & HJ & Hdels).
  destruct (Hset true) as (J0 & HJ0 & Hdels0).
  exists (J0 ++ J). split.
  - rewrite HJ, app_assoc. f_equal. exact HJ0.
  - intros key ok [Hin|Hin]%elem_of_app; [by eapply Hdels0|].
    by eapply Hdels.
Qed.

(** C2. [getEnd] is the topic's head when the topic has no line; otherwise it
    is the minimum, over the lines, of [ihead] for a line with a positive
    recycle and of [head] for the others, capped by the topic's tail. The clean
    pass deletes only keys of ids strictly below that bound. *)
Theorem getEnd_reclamation_bound (ord : list string) (t : Topic.topic) :
  range_of (Topic.lines t) ord →
  (Topic.lines t = ∅ → Topic.getEnd ord t = Topic.head t) ∧
  (Topic.lines t ≠ ∅ →
     Topic.getEnd ord t
     = foldr N.min (Topic.tail t) (frontier <$> (map_to_list (Topic.lines t)).*2) ∧
     Topic.getEnd ord t ≤ Topic.tail t ∧
     (∀ k l, Topic.lines t !! k = Some l → Topic.getEnd ord t ≤ frontier l) ∧
     (Topic.getEnd ord t = Topic.tail t ∨
      ∃ k l, Topic.lines t !! k = Some l ∧ Topic.getEnd ord t = frontier l)) ∧
  (∀ env s, ∃ J,
     journal (Topic.clean env ord t s).2 = journal s ++ J ∧
     ∀ key ok, (OpDel key, ok) ∈ J →
               ∃ i, i < Topic.getEnd ord t ∧ key = Acatui (Topic.name t) ":" i).
Proof.
  intros Hord. split_and!.
  - apply getEnd_no_lines.
  - intros Hne. rewrite (getEnd_some_lines ord t Hord Hne).
    destruct (capped_min_spec (Topic.tail t)
                (frontier <$> (map_to_list (Topic.lines t)).*2))
      as (Hcap & Hall & Hin).
    split_and!; [done|done| |].
    + intros k l Hkl. apply Hall. apply list_elem_of_fmap. exists l. split; [done|].
      apply list_elem_of_fmap. exists (k, l). split; [done|].
      by apply elem_of_map_to_list.
    + destruct Hin as [?|Hin]; [by left|right].
      apply list_elem_of_fmap in Hin as (l & Hfl & Hl).
      apply list_elem_of_fmap in Hl as ([k l'] & -> & Hkl).
      apply elem_of_map_to_list in Hkl. by exists k, l'.
  - intros env s. unfold Topic.clean.
    pose proof (clean_loop_deletes_below
                  (N.to_nat (Topic.getEnd ord t - Topic.head t))
                  (Topic.getEnd ord t) env t s) as Hl.
    destruct (Topic.clean_loop _ _ env t s) as [[q t'] s']. exact Hl.
Qed.

(** ** Message keys *)

Lemma Acatui_inj tname i j :
  Acatui tname ":" i = Acatui tname ":" j → i = j.
Proof.
  unfold Acatui. intros Heq.
  apply String.app_inj in Heq. apply String.app_inj in Heq.
  by apply pretty_N_inj in Heq.
Qed.

Lemma pretty_N_go_ne_h x s s' :
  s ≠ String "h" s' → pretty_N_go x s ≠ String "h" s'.
Proof.
  revert s. induction (N.lt_wf_0 x) as [x _ IH]; intros s Hs.
  assert (x = 0 ∨ 0 < x)%N as [->|Hx] by lia.
  - by rewrite pretty_N_go_0.
  - rewrite pretty_N_go_step by done. apply IH.
    { by apply N.div_lt. }
    unfold pretty_N_char. by repeat case_match.
Qed.

(** The key of a message is never the key of the head anchor. *)
Lemma Acatui_ne_headKey tname i : Acatui tname ":" i ≠ tname +:+ KeyTopicHead.
Proof.
  unfold Acatui, KeyTopicHead. intros Heq.
  apply String.app_inj in Heq. simpl in Heq. injection Heq as Heq.
  revert Heq. unfold pretty, pretty_N. case_decide; [done|].
  by apply pretty_N_go_ne_h.
Qed.

(** ** The clean pass *)

Lemma getEnd_step_le t e k : Topic.getEnd_step t e k ≤ e.
Proof.
  unfold Topic.getEnd_step. destruct (Topic.lines t !! k) as [l|]; [|lia].
  destruct (0 <? Line.recycle l)%Z.
  - destruct (N.ltb_spec (Line.ihead l) e); lia.
  - destruct (N.ltb_spec (Line.head l) e); lia.
Qed.

Lemma getEnd_fold_le t ord : ∀ e, foldl (Topic.getEnd_step t) e ord ≤ e.
Proof.
  induction ord as [|k ord IH]; intros e; simpl; [lia|].
  specialize (IH (Topic.getEnd_step t e k)).
  pose proof (getEnd_step_le t e k). lia.
Qed.

Lemma getEnd_uint64 ord t : wf_topic t → Topic.getEnd ord t ≤ maxUint64.
Proof.
  intros (_ & _ & Hh & Ht). unfold is_uint64, two64 in *. unfold maxUint64.
  unfold Topic.getEnd. destruct (size (Topic.lines t) =? 0)%nat; [lia|].
  pose proof (getEnd_fold_le t ord (Topic.tail t)). lia.
Qed.

Lemma tick_at_drop n env : tick_at n (drop 1 env) = tick_at (S n) env.
Proof. unfold tick_at. by rewrite lookup_drop. Qed.

Lemma set_head_eta t : Topic.set_head (Topic.head t) t = t.
Proof. by destruct t. Qed.

(** The run of the loop of [clean]: [n] complete iterations, then the
    iteration that stops it. *)
Lemma clean_loop_run k ending env t s :
  (N.to_nat (ending - Topic.head t) ≤ k)%nat → ending ≤ maxUint64 →
  let '(q, t', s') := Topic.clean_loop k ending env t s in
  ∃ (n : nat) (why : stop),
    q = match why with Shutdown => true | _ => false end ∧
    t' = Topic.set_head (Topic.head t + N.of_nat n + last_step why) t ∧
    journal s' = journal s ++
      pass_ops (Topic.name t) (Topic.headKey t) (Topic.head t) n ++
      last_ops (Topic.name t) (Topic.headKey t) (Topic.head t + N.of_nat n) why ∧
    stop_reason why ending (Topic.head t + N.of_nat n) (tick_at n env)
      (fault_at (2 * n) s) (fault_at (2 * n + 1) s).
Proof.
  revert env t s. induction k as [|k IH]; intros env t s Hk Hend;
    cbn [Topic.clean_loop].
  { exists 0%nat, Finished. simpl. rewrite !N.add_0_r, set_head_eta, app_nil_r.
    split_and!; try done. lia. }
  destruct (N.ltb_spec (Topic.head t) ending) as [Hlt|Hge].
  2:{ exists 0%nat, Finished. simpl. rewrite !N.add_0_r, set_head_eta, app_nil_r.
      done. }
  change (default _ (env !! 0%nat)) with (tick_at 0 env).
  destruct (quitting (tick_at 0 env)) eqn:Hq.
  { exists 0%nat, Shutdown. simpl. rewrite !N.add_0_r, set_head_eta, app_nil_r.
    done. }
  destruct (overdue (tick_at 0 env)) eqn:Ho.
  { exists 0%nat, Deadline. simpl. rewrite !N.add_0_r, set_head_eta, app_nil_r.
    done. }
  unfold bind.
  destruct (next_fault s) eqn:Hf0.
  { rewrite delData_fail by done. simpl.
    exists 0%nat, DeleteFailed. simpl. rewrite !N.add_0_r, set_head_eta.
    done. }
  rewrite delData_ok by done.
  set (s1 := record _ _ _ s).
  assert (incr64 (Topic.head t) = Topic.head t + 1) as Hincr.
  { apply incr64_small. lia. }
  rewrite Hincr. set (t1 := Topic.set_head _ t).
  assert (next_fault s1 = fault_at 1 s) as Hs1.
  { rewrite <-fault_at_0. apply fault_at_record. }
  destruct (next_fault s1) eqn:Hf1.
  { rewrite exportHead_fail by done. simpl.
    exists 0%nat, AnchorFailed. simpl. rewrite !N.add_0_r.
    split_and!; try done. by rewrite <-app_assoc. }
  rewrite exportHead_ok by done.
  set (s2 := record _ _ _ s1).
  specialize (IH (drop 1 env) t1 s2).
  destruct (Topic.clean_loop k ending (drop 1 env) t1 s2) as [[q t'] s'].
  destruct IH as (n & why & Hq' & Ht' & Hj & Hwhy).
  { unfold t1. simpl. lia. }
  { done. }
  exists (S n), why.
  replace (Topic.head t + N.of_nat (S n)) with (Topic.head t + 1 + N.of_nat n)
    by lia.
  split_and!.
  - done.
  - rewrite Ht'. unfold t1. by destruct t.
  - rewrite Hj. unfold s2, s1, t1. simpl. by rewrite <-!app_assoc.
  - rewrite tick_at_drop in Hwhy.
    replace (2 * S n)%nat with (S (S (2 * n))) by lia.
    replace (S (S (2 * n)) + 1)%nat with (S (S (2 * n + 1))) by lia.
    unfold s2, s1 in Hwhy. rewrite !fault_at_record in Hwhy. exact Hwhy.
Qed.

(** What the loop of [clean] does to the store: the keys of the ids it has
    passed are gone, and no key but these and the head anchor has changed. *)
Lemma clean_loop_data k ending env t s :
  Topic.headKey t = Topic.name t +:+ KeyTopicHead → ending ≤ maxUint64 →
  let '(_, t', s') := Topic.clean_loop k ending env t s in
  Topic.head t ≤ Topic.head t' ≤ N.max (Topic.head t) ending ∧
  (∀ i, Topic.head t ≤ i < Topic.head t' →
        data s' !! Acatui (Topic.name t) ":" i = None) ∧
  (∀ key, key ≠ Topic.headKey t →
          (∀ i, Topic.head t ≤ i < Topic.head t' →
                key ≠ Acatui (Topic.name t) ":" i) →
          data s' !! key = data s !! key).
Proof.
  revert env t s. induction k as [|k IH]; intros env t s Hhk Hend; simpl.
  { split_and!; [lia|lia| |done]. intros i Hi. lia. }
  assert (Topic.head t ≤ Topic.head t ≤ N.max (Topic.head t) ending ∧
          (∀ i, Topic.head t ≤ i < Topic.head t →
                data s !! Acatui (Topic.name t) ":" i = None) ∧
          (∀ key, key ≠ Topic.headKey t →
                  (∀ i, Topic.head t ≤ i < Topic.head t →
                        key ≠ Acatui (Topic.name t) ":" i) →
                  data s !! key = data s !! key)) as Hstay.
  { split_and!; [lia|lia| |done]. intros i Hi. lia. }
  destruct (N.ltb_spec (Topic.head t) ending) as [Hlt|Hge]; [|done].
  destruct (quitting _); [done|]. destruct (overdue _); [done|].
  unfold bind.
  destruct (next_fault s) eqn:Hf0.
  { by rewrite delData_fail. }
  rewrite delData_ok by done.
  set (s1 := record _ _ _ s).
  assert (incr64 (Topic.head t) = Topic.head t + 1) as Hincr.
  { apply incr64_small. lia. }
  rewrite Hincr. set (t1 := Topic.set_head _ t).
  destruct (next_fault s1) eqn:Hf1.
  { rewrite exportHead_fail by done. simpl. split_and!.
    - lia.
    - lia.
    - intros i Hi. assert (i = Topic.head t) as -> by lia.
      apply lookup_delete_eq.
    - intros key _ Hkey. apply lookup_delete_ne.
      intros <-. apply (Hkey (Topic.head t)); [lia|done]. }
  rewrite exportHead_ok by done.
  set (s2 := record _ _ _ s1).
  specialize (IH (drop 1 env) t1 s2 Hhk Hend).
  destruct (Topic.clean_loop k ending (drop 1 env) t1 s2) as [[q t'] s'].
  destruct IH as ([Hle Hmax] & Hgone & Hframe).
  change (Topic.head t1) with (Topic.head t + 1) in *.
  change (Topic.name t1) with (Topic.name t) in *.
  change (Topic.headKey t1) with (Topic.headKey t) in *.
  assert (data s2 = <[Topic.headKey t := PutUint64 (Topic.head t + 1)]>
                      (delete (Acatui (Topic.name t) ":" (Topic.head t)) (data s)))
    as Hs2 by done.
  split_and!.
  - lia.
  - lia.
  - intros i Hi. destruct (N.eq_dec i (Topic.head t)) as [->|Hne].
    + rewrite Hframe.
      * rewrite Hs2, lookup_insert_ne, lookup_delete_eq; [done|].
        rewrite Hhk. intros Heq. by eapply Acatui_ne_headKey.
      * rewrite Hhk. apply Acatui_ne_headKey.
      * intros j Hj Heq. apply Acatui_inj in Heq. lia.
    + apply Hgone. lia.
  - intros key Hkey Hother. rewrite Hframe.
    + rewrite Hs2, lookup_insert_ne by done. apply lookup_delete_ne.
      intros <-. apply (Hother (Topic.head t)); [lia|done].
    + done.
    + intros i Hi. apply Hother. lia.
Qed.

(** C3. A clean pass runs [n] complete iterations from the topic's head, each
    of which deletes ["{topic}:{head}"], then increments [head], then writes the
    head anchor; it stops when [head] reaches the bound of [getEnd], on
    shutdown, at the deadline, or at the first failure of the backend. When it
    returns, the store has no key ["{topic}:{i}"] for the ids [i] from the old
    head up to the new one. *)
Theorem clean_pass_deletes_then_advances (env : list tick) (ord : list string)
    (t : Topic.topic) (s : Storage) :
  wf_topic t →
  let ending := Topic.getEnd ord t in
  let '(q, t', s') := Topic.clean env ord t s in
  (∃ (n : nat) (why : stop),
     q = match why with Shutdown => true | _ => false end ∧
     t' = Topic.set_head (Topic.head t + N.of_nat n + last_step why) t ∧
     journal s' = journal s ++
       pass_ops (Topic.name t) (Topic.headKey t) (Topic.head t) n ++
       last_ops (Topic.name t) (Topic.headKey t) (Topic.head t + N.of_nat n) why ∧
     stop_reason why ending (Topic.head t + N.of_nat n) (tick_at n env)
       (fault_at (2 * n) s) (fault_at (2 * n + 1) s)) ∧
  Topic.head t ≤ Topic.head t' ≤ N.max (Topic.head t) ending ∧
  (∀ i, Topic.head t ≤ i < Topic.head t' →
        data s' !! Acatui (Topic.name t) ":" i = None).
Proof.
  intros Hwf ending. unfold Topic.clean. fold ending.
  pose proof (getEnd_uint64 ord t Hwf) as Hend. fold ending in Hend.
  destruct Hwf as (Hhk & _).
  pose proof (clean_loop_run (N.to_nat (ending - Topic.head t)) ending env t s
                ltac:(lia) Hend) as Hrun.
  pose proof (clean_loop_data (N.to_nat (ending - Topic.head t)) ending env t s
                Hhk Hend) as Hdata.
  destruct (Topic.clean_loop _ ending env t s) as [[q t'] s'].
  destruct Hdata as (Hle & Hgone & _). done.
Qed.

(** ** Emptying a topic *)

Lemma empty_lines_spec ord t s :
  Topic.empty_lines ord t s
  = (None,
     Topic.set_lines (foldl (λ m k, alter emptied k m) (Topic.lines t) ord) t,
     s).
Proof.
  revert t. induction ord as [|k ord IH]; intros t; simpl.
  - by destruct t.
  - destruct (Topic.lines t !! k) as [l|] eqn:Hl.
    + assert (alter emptied k (Topic.lines t) = <[k := emptied l]> (Topic.lines t))
        as ->.
      { apply map_eq. intros j. destruct (decide (k = j)) as [<-|Hne].
        - by rewrite lookup_insert_eq, lookup_alter_eq, Hl.
        - by rewrite lookup_insert_ne, lookup_alter_ne. }
      unfold bind, Line.empty, ret. fold (emptied l). by rewrite IH.
    + assert (alter emptied k (Topic.lines t) = Topic.lines t) as ->.
      { apply map_eq. intros j. destruct (decide (k = j)) as [<-|Hne].
        - by rewrite lookup_alter_eq, Hl.
        - by rewrite lookup_alter_ne. }
      apply IH.
Qed.

Lemma emptied_idemp l : emptied (emptied l) = emptied l.
Proof. done. Qed.

Lemma alter_emptied_lookup (ord : list string) (m : gmap string Line.line) k :
  foldl (λ m k, alter emptied k m) m ord !! k
  = if decide (k ∈ ord) then emptied <$> m !! k else m !! k.
Proof.
  revert m. induction ord as [|j ord IH]; intros m; cbn [foldl].
  - destruct (decide (k ∈ [])) as [Hin|_]; [by apply elem_of_nil in Hin|done].
  - rewrite IH. destruct (decide (j = k)) as [->|Hne].
    + rewrite lookup_alter_eq. rewrite (decide_True _ _ (list_elem_of_here _ _)).
      case_decide; [|done]. destruct (m !! k); [|done]. simpl.
      by rewrite emptied_idemp.
    + rewrite lookup_alter_ne by done.
      destruct (decide (k ∈ ord)) as [Hin|Hnin].
      * by rewrite decide_True by (by right).
      * rewrite decide_False; [done|].
        intros [?|?]%elem_of_cons; [congruence|done].
Qed.

Lemma empty_lines_all ord t s :
  range_of (Topic.lines t) ord →
  Topic.empty_lines ord t s
  = (None, Topic.set_lines (emptied <$> Topic.lines t) t, s).
Proof.
  intros Hord. rewrite empty_lines_spec. do 3 f_equal.
  apply map_eq. intros k. rewrite alter_emptied_lookup, lookup_fmap.
  case_decide as Hin; [done|].
  destruct (Topic.lines t !! k) as [l|] eqn:Hl; [|done].
  exfalso. apply Hin. unfold range_of in Hord. rewrite Hord.
  apply list_elem_of_fmap. exists (k, l). split; [done|].
  by apply elem_of_map_to_list.
Qed.

(** C6, amended. [empty] on a topic empties each of its lines, then sets the
    topic's head to its tail and writes the head anchor; the tail does not move
    and its anchor is not written. A successful [empty] leaves [head == tail]:
    when [empty] returns nil every line is emptied, the head is the tail, the
    store holds the tail's value under the head anchor, and the write of the
    head anchor is the one operation of the call on the store. *)
Theorem empty_sets_head_to_tail (ord : list string) (t : Topic.topic)
    (s : Storage) :
  range_of (Topic.lines t) ord →
  let '(r, t', s') := Topic.empty ord t s in
  r = None →
  Topic.lines t' = emptied <$> Topic.lines t ∧
  Topic.head t' = Topic.tail t' ∧ Topic.tail t' = Topic.tail t ∧
  journal s' = journal s ++
    [(OpSet (Topic.headKey t) (PutUint64 (Topic.tail t)), true)] ∧
  data s' = <[Topic.headKey t := PutUint64 (Topic.tail t)]> (data s).
Proof.
  intros Hord. unfold Topic.empty, bind. rewrite empty_lines_all by done.
  destruct (next_fault s) eqn:Hf.
  - rewrite exportHead_fail by done. simpl. done.
  - rewrite exportHead_ok by done. simpl. intros _. split_and!; done.
Qed.

(** ** Creating topics and lines *)

Lemma createTopic_names tname fromEtcd ord u s :
  let '(r, u', _) := UnitedQueue.createTopic tname fromEtcd ord u s in
  ∀ k, is_Some (UnitedQueue.topics u' !! k) →
       is_Some (UnitedQueue.topics u !! k) ∨ (k = tname ∧ r = None).
Proof.
  unfold UnitedQueue.createTopic.
  destruct (UnitedQueue.topics u !! tname) as [t|] eqn:Ht; simpl; [by left|].
  unfold bind.
  destruct (UnitedQueue.newTopic tname s) as [[e|t1] s1]; simpl; [by left|].
  destruct (UnitedQueue.exportQueue ord _ s1) as [[e|] s2]; simpl.
  - intros k Hk. left. destruct (decide (tname = k)) as [<-|Hne].
    + rewrite lookup_delete_eq in Hk. by destruct Hk.
    + by rewrite lookup_delete_ne, lookup_insert_ne in Hk.
  - intros k Hk. destruct (decide (tname = k)) as [<-|Hne]; [by right|].
    left. by rewrite lookup_insert_ne in Hk.
Qed.

(** C7, amended. [Create] refuses an empty topic name with [BadKey] and changes
    nothing; every name that [Create] adds to the broker's map of topics is the
    requested topic name, which is not empty. [Create] looks at nothing else in
    the name. *)
Theorem Create_names_are_nonempty (qr : QueueRequest) (ord : list string)
    (u : UnitedQueue.queue) (s : Storage) :
  let '(r, u', s') := UnitedQueue.Create qr ord u s in
  (TopicName qr = EmptyString →
     r = Returns (Some (NewError ErrBadKey "create topic name is nil")) ∧
     u' = u ∧ s' = s) ∧
  (∀ k, is_Some (UnitedQueue.topics u' !! k) →
        is_Some (UnitedQueue.topics u !! k) ∨ (k = TopicName qr ∧ k ≠ EmptyString)) ∧
  ((∀ k, is_Some (UnitedQueue.topics u !! k) → k ≠ EmptyString) →
   ∀ k, is_Some (UnitedQueue.topics u' !! k) → k ≠ EmptyString).
Proof.
  assert (∀ (u' : UnitedQueue.queue),
            (∀ k, is_Some (UnitedQueue.topics u' !! k) →
                  is_Some (UnitedQueue.topics u !! k) ∨
                  (k = TopicName qr ∧ k ≠ EmptyString)) →
            (∀ k, is_Some (UnitedQueue.topics u !! k) → k ≠ EmptyString) →
            ∀ k, is_Some (UnitedQueue.topics u' !! k) → k ≠ EmptyString) as Hinv.
  { intros u' Hadd Hold k Hk. destruct (Hadd k Hk) as [?|[_ ?]]; auto. }
  unfold UnitedQueue.Create.
  destruct (decide (TopicName qr = EmptyString)) as [Hnil|Hname]; simpl.
  { split_and!; [done|by left|done]. }
  destruct (decide (LineName qr ≠ EmptyString)) as [Hline|_].
  - destruct (UnitedQueue.topics u !! TopicName qr) as [t|] eqn:Ht; simpl.
    + unfold bind.
      destruct (Topic.createLine _ _ _ ord t s) as [[r t'] s']. simpl.
      assert (∀ k, is_Some (<[TopicName qr := t']> (UnitedQueue.topics u) !! k) →
                   is_Some (UnitedQueue.topics u !! k) ∨
                   (k = TopicName qr ∧ k ≠ EmptyString)) as Hadd.
      { intros k Hk. destruct (decide (TopicName qr = k)) as [<-|Hne].
        - left. by rewrite Ht.
        - left. by rewrite lookup_insert_ne in Hk. }
      split_and!; [done|done|]. exact (Hinv (UnitedQueue.mkQueue _) Hadd).
    + split_and!; [done|by left|done].
  - unfold bind.
    pose proof (createTopic_names (TopicName qr) false ord u s) as Hct.
    destruct (UnitedQueue.createTopic _ _ ord u s) as [[r u'] s']. simpl.
    assert (∀ k, is_Some (UnitedQueue.topics u' !! k) →
                 is_Some (UnitedQueue.topics u !! k) ∨
                 (k = TopicName qr ∧ k ≠ EmptyString)) as Hadd.
    { intros k Hk. destruct (Hct k Hk) as [?|[-> _]]; [by left|by right]. }
    split_and!; [done|done|]. exact (Hinv u' Hadd).
Qed.

(** ** Request keys *)

Lemma Split_length s c : length (Split s c) = S (count_byte c s).
Proof.
  induction s as [|a r IH]; simpl; [done|].
  destruct (Ascii.eqb a c); simpl; [by rewrite IH|].
  destruct (Split r c) as [|p ps]; [done|]. exact IH.
Qed.

(** [Split] cuts at the separators and nowhere else: joining the parts with
    the separator gives the string back. *)
Lemma Split_join s c : String.concat (String c EmptyString) (Split s c) = s.
Proof.
  induction s as [|a r IH]; simpl; [done|].
  destruct (Ascii.eqb_spec a c) as [->|Hne].
  - pose proof (Split_length r c) as Hlen.
    destruct (Split r c) as [|p ps]; [done|]. simpl in *. by rewrite IH.
  - pose proof (Split_length r c) as Hlen.
    destruct (Split r c) as [|p ps]; [done|]. simpl in *.
    destruct ps; simpl in *; by rewrite <-IH.
Qed.

Lemma mod_two64_wrap x : two64 ≤ x → x < 2 * two64 → x mod two64 = x - two64.
Proof.
  intros Hlo Hhi. symmetry. apply (N.mod_unique x two64 1); [|unfold two64 in *; lia].
  unfold two64 in *. lia.
Qed.

Lemma decimal_ge s : ∀ n, n ≤ decimal s n.
Proof.
  induction s as [|c r IH]; intros n; simpl; [lia|].
  specialize (IH (n * 10 + (N_of_ascii c - 48))). lia.
Qed.

(** On decimal digits, the digit loop of [ParseUint] computes the number they
    denote, and refuses it exactly when it does not fit in 64 bits. *)
Lemma ParseUint_digits_decimal s : ∀ n,
  all_digits s = true → n ≤ maxUint64 →
  ParseUint_digits s n
  = if decimal s n <=? maxUint64 then inr (decimal s n) else inl ErrRange.
Proof.
  induction s as [|c r IH]; intros n Hd Hn; simpl.
  { destruct (N.leb_spec n maxUint64); [done|lia]. }
  simpl in Hd. apply andb_true_iff in Hd as [Hc Hr].
  unfold is_digit in Hc. rewrite Hc.
  apply andb_true_iff in Hc as [Hlo%N.leb_le Hhi%N.leb_le].
  set (d := N_of_ascii c - 48) in *.
  assert (d ≤ 9) as Hd9 by lia.
  pose proof (decimal_ge r (n * 10 + d)) as Hge.
  unfold maxUint64, two64 in *.
  destruct (N.leb_spec (18446744073709551615 / 10 + 1) n) as [Hcut|Hcut].
  { change (18446744073709551615 / 10 + 1) with 1844674407370955162 in Hcut.
    destruct (N.leb_spec (decimal r (n * 10 + d)) 18446744073709551615); [lia|done]. }
  change (18446744073709551615 / 10 + 1) with 1844674407370955162 in Hcut.
  rewrite (N.mod_small (n * 10)) by lia.
  destruct (N.lt_ge_cases (n * 10 + d) 18446744073709551616) as [Hfit|Hov].
  - rewrite (N.mod_small (n * 10 + d)) by lia.
    destruct (N.ltb_spec (n * 10 + d) (n * 10)); [lia|].
    destruct (N.ltb_spec 18446744073709551615 (n * 10 + d)); [lia|].
    simpl. apply IH; [done|lia].
  - pose proof (mod_two64_wrap (n * 10 + d)) as Hw. unfold two64 in Hw.
    rewrite Hw by lia.
    destruct (N.ltb_spec (n * 10 + d - 18446744073709551616) (n * 10)); [|lia].
    simpl.
    destruct (N.leb_spec (decimal r (n * 10 + d)) 18446744073709551615); [lia|done].
Qed.

Lemma ParseUint_digits_syntax s : ∀ n,
  all_digits s = false → ∃ e, ParseUint_digits s n = inl e.
Proof.
  induction s as [|c r IH]; intros n Hd; simpl in *; [done|].
  fold (is_digit c). destruct (is_digit c); simpl in Hd; [|by eexists].
  destruct (_ <=? n); [by eexists|].
  destruct (_ || _); [by eexists|]. by apply IH.
Qed.

(** [ParseUint] accepts exactly the non-empty strings of decimal digits whose
    value fits in 64 bits, and returns that value. *)
Lemma ParseUint_ok_iff s id :
  ParseUint s = inr id ↔
  s ≠ EmptyString ∧ all_digits s = true ∧ decimal s 0 = id ∧ id ≤ maxUint64.
Proof.
  destruct s as [|c r]; [by split; [|intros [? _]]|].
  unfold ParseUint.
  destruct (all_digits (String c r)) eqn:Hd.
  - rewrite ParseUint_digits_decimal by (done || (unfold maxUint64; lia)).
    destruct (N.leb_spec (decimal (String c r) 0) maxUint64) as [Hle|Hgt].
    + split; [intros [= <-]; done|]. by intros (_ & _ & -> & _).
    + split; [done|]. intros (_ & _ & <- & Hle). lia.
  - destruct (ParseUint_digits_syntax (String c r) 0 Hd) as [e ->].
    split; [done|]. by intros (_ & ? & _).
Qed.

(** C8. [Pop] and [MultiPop] fail with [BadKey] unless the key splits on ['/']
    into exactly two parts; [Confirm] fails with [BadKey] unless the key splits
    into exactly three parts and the third parses as an unsigned decimal
    integer. *)
Theorem malformed_keys_are_bad_keys (key : string) (now : Z) (nows : nat → Z)
    (n : Z) (u : UnitedQueue.queue) (s : Storage) :
  (length (Split key "/") ≠ 2%nat →
     (∃ m, (UnitedQueue.Pop key now u s).1.1 = inl (NewError ErrBadKey m)) ∧
     (∃ m, (UnitedQueue.MultiPop key nows n u s).1.1
           = inl (NewError ErrBadKey m))) ∧
  (length (Split key "/") ≠ 3%nat ∨
   (∀ id, ParseUint (nth 2 (Split key "/") EmptyString) ≠ inr id) →
     has_code ErrBadKey (UnitedQueue.Confirm key u).1).
Proof.
  split.
  - intros Hparts. unfold UnitedQueue.Pop, UnitedQueue.MultiPop.
    destruct (Nat.eqb_spec (length (Split key "/")) 2) as [?|_]; [done|].
    simpl. split; by eexists.
  - intros Hbad. unfold UnitedQueue.Confirm.
    destruct (Nat.eqb_spec (length (Split key "/")) 3) as [Hlen|_]; simpl;
      [|by eexists].
    destruct Hbad as [?|Hparse]; [done|].
    destruct (ParseUint (nth 2 (Split key "/") EmptyString)) as [e|id] eqn:Hp.
    + by eexists.
    + by destruct (Hparse id).
Qed.

(** The same in terms of the key itself: the number of parts is one more than
    the number of ['/'] in the key. *)
Lemma keys_need_their_separators (key : string) (now : Z) (u : UnitedQueue.queue)
    (s : Storage) :
  (count_byte "/" key ≠ 1%nat →
     ∃ m, (UnitedQueue.Pop key now u s).1.1 = inl (NewError ErrBadKey m)) ∧
  (count_byte "/" key ≠ 2%nat → has_code ErrBadKey (UnitedQueue.Confirm key u).1).
Proof.
  pose proof (Split_length key "/") as Hlen. split; intros Hc.
  - unfold UnitedQueue.Pop.
    destruct (Nat.eqb_spec (length (Split key "/")) 2) as [?|_]; [lia|].
    simpl. by eexists.
  - unfold UnitedQueue.Confirm.
    destruct (Nat.eqb_spec (length (Split key "/")) 3) as [?|_]; [lia|].
    simpl. by eexists.
Qed.

(** ** New lines *)

Lemma newLine_line lname recycle t s l s' :
  Topic.newLine lname recycle t s = (inr l, s') →
  l = Line.mkLine lname (Topic.head t) recycle
        (Topic.name t +:+ "/" +:+ lname +:+ KeyLineRecycle) [] (Topic.head t) ∅.
Proof.
  unfold Topic.newLine, bind.
  destruct (Line.exportLine _ _ s) as [[e|] s1]; simpl; [done|].
  destruct (Line.exportRecycle _ s1) as [[e|] s2]; simpl; [done|].
  by intros [= <- _].
Qed.

Lemma getData_found key v s :
  fault_at 0 s = false → data s !! key = Some v → (getData key s).1 = inr v.
Proof.
  rewrite fault_at_0. intros Hf Hv. unfold getData, bind, Storage_Get.
  by rewrite Hf, Hv.
Qed.

(** The first [pop] of a line that has delivered nothing yet returns the
    message at the line's head. *)
Lemma pop_fresh_line tname ttail now l v s :
  Line.inflight l = [] → Line.head l ≠ ttail →
  fault_at 0 s = false → data s !! Acatui tname ":" (Line.head l) = Some v →
  (Line.pop tname ttail now l s).1.1 = inr (Line.head l, v).
Proof.
  intros Hin Hne Hf Hv. unfold Line.pop. rewrite Hin.
  destruct (N.eqb_spec (Line.head l) ttail) as [?|_]; [done|].
  unfold bind. pose proof (getData_found _ v s Hf Hv) as Hg.
  destruct (getData _ s) as [r s1]. simpl in Hg. subst r.
  by destruct (0 <? Line.recycle l)%Z.
Qed.

(** C10. A line that [createLine] has created starts at the topic's head:
    its [head] and [ihead] are the topic's head at creation time, its in-flight
    sequence and its [imap] are empty; so, as long as the topic retains a
    message, the first [pop] of the line delivers the message at the topic's
    head, the oldest one retained. *)
Theorem createLine_starts_at_topic_head (lname : string) (recycle : Z)
    (fromEtcd : bool) (ord : list string) (t : Topic.topic) (s : Storage) :
  let '(r, t', _) := Topic.createLine lname recycle fromEtcd ord t s in
  r = Returns None →
  ∃ l, Topic.lines t !! lname = None ∧ Topic.lines t' !! lname = Some l ∧
       Line.name l = lname ∧ Line.recycle l = recycle ∧
       Line.head l = Topic.head t ∧ Line.ihead l = Topic.head t ∧
       Line.inflight l = [] ∧ Line.imap l = ∅ ∧
       Topic.name t' = Topic.name t ∧ Topic.head t' = Topic.head t ∧
       Topic.tail t' = Topic.tail t ∧
       ∀ now payload s1,
         Topic.head t ≠ Topic.tail t → fault_at 0 s1 = false →
         data s1 !! Acatui (Topic.name t) ":" (Topic.head t) = Some payload →
         (Topic.pop lname now t' s1).1.1 = inr (Topic.head t, payload).
Proof.
  unfold Topic.createLine.
  destruct (Topic.lines t !! lname) as [l0|] eqn:Hl0; simpl; [done|].
  unfold bind.
  destruct (Topic.newLine lname recycle t s) as [[e|l] s1] eqn:Hnew; simpl;
    [done|].
  apply newLine_line in Hnew.
  destruct (Topic.exportTopic ord _ s1) as [[e|] s2]; simpl; [done|].
  intros _. exists l. subst l. simpl.
  rewrite lookup_insert_eq. split_and!; try done.
  intros now payload s0 Hne Hf Hv. unfold Topic.pop. simpl.
  rewrite lookup_insert_eq. unfold bind.
  pose proof (pop_fresh_line (Topic.name t) (Topic.tail t) now
                (Line.mkLine lname (Topic.head t) recycle
                   (Topic.name t +:+ "/" +:+ lname +:+ KeyLineRecycle) []
                   (Topic.head t) ∅) payload s0 eq_refl Hne Hf Hv) as Hpop.
  destruct (Line.pop _ _ now _ s0) as [[r l'] s3]. exact Hpop.
Qed.

(** ** Startup recovery *)

Lemma Storage_Get_data k s : data (Storage_Get k s).2 = data s.
Proof.
  unfold Storage_Get. destruct (next_fault s); [done|].
  by destruct (data s !! k).
Qed.

Lemma getData_data k s : data (getData k s).2 = data s.
Proof.
  unfold getData, bind. pose proof (Storage_Get_data k s) as Hd.
  destruct (Storage_Get k s) as [[e|v] s1]; exact Hd.
Qed.

Lemma loadLine_data lineName v t s : data (Topic.loadLine lineName v t s).2 = data s.
Proof.
  unfold Topic.loadLine, bind.
  pose proof (getData_data (Topic.name t +:+ "/" +:+ lineName +:+ KeyLineRecycle) s)
    as Hd.
  destruct (getData _ s) as [[e|b] s1]; [exact Hd|].
  by destruct (ParseDuration _).
Qed.

Lemma loadLines_data names t : ∀ lines s,
  data (UnitedQueue.loadLines names t lines s).2 = data s.
Proof.
  induction names as [|n names IH]; intros lines s; simpl; [done|].
  unfold bind. pose proof (Storage_Get_data (Topic.name t +:+ "/" +:+ n) s) as Hd.
  destruct (Storage_Get _ s) as [[e|b] s1]; simpl in Hd.
  { by rewrite IH. }
  destruct (length b =? 0)%nat; [by rewrite IH|].
  destruct (gobDecodeLine b) as [v|]; [|by rewrite IH].
  pose proof (loadLine_data n v t s1) as Hd1.
  destruct (Topic.loadLine n v t s1) as [[e|l] s2]; simpl in Hd1;
    rewrite IH; congruence.
Qed.

Lemma Uint64_long b : (8 ≤ length b)%nat → is_Some (Uint64 b).
Proof.
  intros Hlen. do 8 (destruct b as [|? b]; [simpl in Hlen; lia|]). by eexists.
Qed.

Lemma Storage_Get_found k s v s' :
  Storage_Get k s = (inr v, s') → data s !! k = Some v.
Proof.
  unfold Storage_Get. destruct (next_fault s); [done|].
  destruct (data s !! k); [|done]. by intros [= -> _].
Qed.

Lemma loadTopic_returns tname lines s :
  anchors_decodable (data s) →
  ∃ r, (UnitedQueue.loadTopic tname lines s).1 = Returns r ∧
       data (UnitedQueue.loadTopic tname lines s).2 = data s.
Proof.
  intros Hanc. unfold UnitedQueue.loadTopic, bind.
  pose proof (Storage_Get_data (tname +:+ KeyTopicHead) s) as Hd1.
  destruct (Storage_Get (tname +:+ KeyTopicHead) s) as [[e|hb] s1] eqn:Hg1;
    simpl in Hd1; [by eexists|].
  apply Storage_Get_found in Hg1.
  destruct (Uint64_long hb) as [hd ->]. { eapply Hanc. by left. }
  pose proof (Storage_Get_data (tname +:+ KeyTopicTail) s1) as Hd2.
  destruct (Storage_Get (tname +:+ KeyTopicTail) s1) as [[e|tb] s2] eqn:Hg2;
    simpl in Hd2; [eexists; split; [done|simpl; congruence]|].
  apply Storage_Get_found in Hg2. rewrite Hd1 in Hg2.
  destruct (Uint64_long tb) as [tl ->]. { eapply Hanc. by right. }
  pose proof (loadLines_data lines
                (Topic.mkTopic tname ∅ hd (tname +:+ KeyTopicHead) tl
                   (tname +:+ KeyTopicTail)) ∅ s2) as Hd3.
  destruct (UnitedQueue.loadLines _ _ _ s2) as [ls s3]. simpl in *.
  eexists; split; [done|congruence].
Qed.

Lemma loadTopics_returns names : ∀ u s,
  anchors_decodable (data s) →
  ∃ u' s', UnitedQueue.loadTopics names u s = (Returns (), u', s').
Proof.
  induction names as [|n names IH]; intros u s Hanc; simpl; [by eexists _, _|].
  unfold bind. pose proof (Storage_Get_data n s) as Hd.
  destruct (Storage_Get n s) as [[e|b] s1]; simpl in Hd.
  { apply IH. by rewrite Hd. }
  destruct (length b =? 0)%nat; [apply IH; by rewrite Hd|].
  destruct (gobDecodeTopic b) as [v|]; [|apply IH; by rewrite Hd].
  destruct (loadTopic_returns n v s1) as (r & Hr & Hd2). { by rewrite Hd. }
  destruct (UnitedQueue.loadTopic n v s1) as [o s2]. simpl in Hr, Hd2. subst o.
  destruct r as [e|t]; apply IH; by rewrite Hd2, Hd.
Qed.

(** Recovery over a store whose anchors are decodable always returns, and
    returns no error: a topic that fails to load is passed over and the loop
    goes on with the topics listed after it. Without a broker catalog the
    broker starts as it is, with no topic loaded. *)
Lemma loadQueue_returns_nil u s :
  anchors_decodable (data s) →
  (∃ u' s', UnitedQueue.loadQueue u s = (Returns None, u', s')) ∧
  (data s !! StorageKeyWord = None → (UnitedQueue.loadQueue u s).1 = (Returns None, u)).
Proof.
  intros Hanc. unfold UnitedQueue.loadQueue, bind. split.
  - pose proof (Storage_Get_data StorageKeyWord s) as Hd.
    destruct (Storage_Get StorageKeyWord s) as [[e|b] s1]; simpl in Hd;
      [by eexists _, _|].
    destruct (0 <? length b)%nat; [|by eexists _, _].
    destruct (gobDecodeQueue b) as [names|]; [|by eexists _, _].
    destruct (loadTopics_returns names u s1) as (u' & s' & ->).
    { by rewrite Hd. }
    by eexists _, _.
  - intros Hnone. unfold Storage_Get. rewrite Hnone.
    by destruct (next_fault s).
Qed.

(** A listed topic whose catalog, head anchor or tail anchor is not in the
    store is skipped: the loop goes on with the topics listed after it, over
    the same data and with the broker's map as it was. *)
Lemma loadTopics_skips n names u s :
  anchors_decodable (data s) →
  data s !! n = None ∨ data s !! (n +:+ KeyTopicHead) = None ∨
  data s !! (n +:+ KeyTopicTail) = None →
  ∃ s1, data s1 = data s ∧
        UnitedQueue.loadTopics (n :: names) u s = UnitedQueue.loadTopics names u s1.
Proof.
  intros Hanc Hmiss. simpl. unfold bind.
  pose proof (Storage_Get_data n s) as Hd.
  destruct (Storage_Get n s) as [[e|b] s1] eqn:Hg; simpl in Hd; [by exists s1|].
  apply Storage_Get_found in Hg.
  destruct Hmiss as [Hn|Hmiss]; [congruence|].
  destruct (length b =? 0)%nat; [by exists s1|].
  destruct (gobDecodeTopic b) as [v|]; [|by exists s1].
  unfold UnitedQueue.loadTopic, bind.
  pose proof (Storage_Get_data (n +:+ KeyTopicHead) s1) as Hd1.
  destruct (Storage_Get (n +:+ KeyTopicHead) s1) as [[e|hb] s2] eqn:Hg1;
    simpl in Hd1; [exists s2; split; [congruence|done]|].
  apply Storage_Get_found in Hg1. rewrite Hd in Hg1.
  destruct Hmiss as [Hh|Ht]; [congruence|].
  destruct (Uint64_long hb) as [hd ->]. { eapply Hanc. by left. }
  pose proof (Storage_Get_data (n +:+ KeyTopicTail) s2) as Hd2.
  destruct (Storage_Get (n +:+ KeyTopicTail) s2) as [[e|tb] s3] eqn:Hg2;
    simpl in Hd2; [exists s3; split; [congruence|done]|].
  apply Storage_Get_found in Hg2. rewrite Hd1, Hd in Hg2. congruence.
Qed.

(** ** Well-formed topics

    [wf_topic] is no restriction: the two functions that build a topic establish
    it, and the operations on a topic keep it. *)

Lemma incr64_uint64 x : is_uint64 (incr64 x).
Proof. unfold is_uint64, incr64. apply N.mod_lt. done. Qed.

Lemma Uint64_uint64 b n : Uint64 b = Some n → is_uint64 n.
Proof.
  unfold Uint64.
  do 8 (destruct b as [|? b]; [done|]). intros [= <-].
  repeat match goal with
         | x : Byte.byte |- _ =>
             pose proof (Byte.to_N_bounded x); generalize dependent (Byte.to_N x);
             clear x; intros
         end.
  unfold is_uint64, two64.
  change (2 ^ 8) with 256. change (2 ^ 16) with 65536.
  change (2 ^ 24) with 16777216. change (2 ^ 32) with 4294967296.
  change (2 ^ 40) with 1099511627776. change (2 ^ 48) with 281474976710656.
  change (2 ^ 56) with 72057594037927936. lia.
Qed.

Lemma newTopic_wf tname s t s' :
  UnitedQueue.newTopic tname s = (inr t, s') → wf_topic t.
Proof.
  unfold UnitedQueue.newTopic, bind.
  destruct (Topic.exportHead _ s) as [[e|] s1]; simpl; [done|].
  destruct (Topic.exportTail _ s1) as [[e|] s2]; simpl; [done|].
  intros [= <- _]. by repeat split.
Qed.

Lemma loadTopic_wf tname lines s t s' :
  UnitedQueue.loadTopic tname lines s = (Returns (inr t), s') → wf_topic t.
Proof.
  unfold UnitedQueue.loadTopic, bind.
  destruct (Storage_Get (tname +:+ KeyTopicHead) s) as [[e|hb] s1]; [done|].
  destruct (Uint64 hb) as [hd|] eqn:Hhd; [|done].
  destruct (Storage_Get (tname +:+ KeyTopicTail) s1) as [[e|tb] s2]; [done|].
  destruct (Uint64 tb) as [tl|] eqn:Htl; [|done].
  destruct (UnitedQueue.loadLines _ _ _ s2) as [ls s3].
  intros [= <- _]. repeat split; simpl; by eapply Uint64_uint64.
Qed.

Lemma push_wf d t s : wf_topic t → wf_topic (Topic.push d t s).1.2.
Proof.
  intros Hwf. pose proof Hwf as (Hhk & Htk & Hh & Ht).
  unfold Topic.push, bind.
  destruct (setData _ d s) as [[e|] s1]; simpl; [done|].
  destruct (Topic.exportTail _ s1) as [[e|] s2]; simpl.
  - rewrite decr64_incr64 by done. by destruct t.
  - repeat split; try done. apply incr64_uint64.
Qed.

Lemma mPush_loop_wf oldTail datas : ∀ t s,
  is_uint64 oldTail → wf_topic t →
  wf_topic (Topic.mPush_loop oldTail datas t s).1.2.
Proof.
  induction datas as [|d datas IH]; intros t s Hold Hwf; simpl; [done|].
  pose proof Hwf as (Hhk & Htk & Hh & Ht).
  destruct (length d <=? 0)%nat; [done|]. unfold bind.
  destruct (setData _ d s) as [[e|] s1]; simpl; [by repeat split|].
  apply IH; [done|]. repeat split; try done. apply incr64_uint64.
Qed.

Lemma mPush_wf datas t s : wf_topic t → wf_topic (Topic.mPush datas t s).1.2.
Proof.
  intros Hwf. pose proof Hwf as (_ & _ & _ & Ht).
  unfold Topic.mPush, bind.
  pose proof (mPush_loop_wf (Topic.tail t) datas t s Ht Hwf) as Hl.
  destruct (Topic.mPush_loop (Topic.tail t) datas t s) as [[[e|] t1] s1];
    simpl in *; [done|].
  destruct Hl as (? & ? & ? & ?).
  destruct (Topic.exportTail t1 s1) as [[e|] s2]; simpl; by repeat split.
Qed.

Lemma empty_wf ord t s : wf_topic t → wf_topic (Topic.empty ord t s).1.2.
Proof.
  intros (Hhk & Htk & Hh & Ht). unfold Topic.empty, bind.
  rewrite empty_lines_spec.
  destruct (Topic.exportHead _ s) as [[e|] s1]; simpl; by repeat split.
Qed.

Lemma clean_wf env ord t s : wf_topic t → wf_topic (Topic.clean env ord t s).1.2.
Proof.
  intros Hwf. pose proof Hwf as (Hhk & Htk & Hh & Ht).
  pose proof (getEnd_uint64 ord t Hwf) as Hend. unfold Topic.clean.
  pose proof (clean_loop_run (N.to_nat (Topic.getEnd ord t - Topic.head t))
                (Topic.getEnd ord t) env t s ltac:(lia) Hend) as Hrun.
  pose proof (clean_loop_data (N.to_nat (Topic.getEnd ord t - Topic.head t))
                (Topic.getEnd ord t) env t s Hhk Hend) as Hdata.
  destruct (Topic.clean_loop _ _ env t s) as [[q t'] s'].
  destruct Hrun as (n & why & _ & Ht' & _). destruct Hdata as ([_ Hmax] & _).
  simpl. rewrite Ht' in Hmax |- *. simpl in *.
  repeat split; try done. simpl.
  unfold is_uint64, two64, maxUint64 in *. lia.
Qed.

(** With enough fuel the loop of [clean] does not depend on its fuel: the
    bound [ending - head] on its iterations is never reached early. *)
Lemma clean_loop_fuel k ending env t s :
  (N.to_nat (ending - Topic.head t) ≤ k)%nat → ending ≤ maxUint64 →
  Topic.clean_loop k ending env t s
  = Topic.clean_loop (N.to_nat (ending - Topic.head t)) ending env t s.
Proof.
  revert env t s. induction k as [|k IH]; intros env t s Hk Hend.
  { by replace (N.to_nat (ending - Topic.head t)) with 0%nat by lia. }
  destruct (N.to_nat (ending - Topic.head t)) as [|k0] eqn:Hk0.
  { cbn [Topic.clean_loop].
    destruct (N.ltb_spec (Topic.head t) ending); [lia|done]. }
  cbn [Topic.clean_loop].
  destruct (N.ltb_spec (Topic.head t) ending) as [Hlt|_]; [|done].
  destruct (quitting _); [done|]. destruct (overdue _); [done|].
  unfold bind. destruct (delData _ s) as [[e|] s1]; [done|].
  destruct (Topic.exportHead _ s1) as [[e|] s2]; [done|].
  assert (incr64 (Topic.head t) = Topic.head t + 1) as Hincr.
  { apply incr64_small. lia. }
  rewrite IH by (simpl; rewrite ?Hincr; (lia || done)).
  simpl. rewrite Hincr. f_equal. lia.
Qed.

(** * Further properties of the code *)

(** ** Keys *)

Lemma String_app_empty_r (s : string) : s +:+ EmptyString = s.
Proof.
  induction s as [|a s IH]; [done|].
  change (String a (s +:+ EmptyString) = String a s). by f_equal.
Qed.

Lemma String_app_ne_self (s t : string) : t ≠ EmptyString → s +:+ t ≠ s.
Proof.
  intros Ht Heq.
  assert (s +:+ t = s +:+ EmptyString) as Heq'
    by (by rewrite String_app_empty_r).
  by apply String.app_inj in Heq'.
Qed.

Lemma headKey_ne_tailKey tname : tname +:+ KeyTopicHead ≠ tname +:+ KeyTopicTail.
Proof. intros Heq. by apply String.app_inj in Heq. Qed.

Lemma pretty_N_go_ne_letter c x s s' :
  is_digit c = false → s ≠ String c s' → pretty_N_go x s ≠ String c s'.
Proof.
  intros Hc. revert s. induction (N.lt_wf_0 x) as [x _ IH]; intros s Hs.
  assert (x = 0 ∨ 0 < x)%N as [->|Hx] by lia.
  - by rewrite pretty_N_go_0.
  - rewrite pretty_N_go_step by done. apply IH.
    { by apply N.div_lt. }
    intros [= Heq _]. rewrite <-Heq in Hc. revert Hc.
    unfold pretty_N_char. by repeat case_match.
Qed.

(** The key of a message is never the key of the tail anchor. *)
Lemma Acatui_ne_tailKey tname i : Acatui tname ":" i ≠ tname +:+ KeyTopicTail.
Proof.
  unfold Acatui, KeyTopicTail. intros Heq.
  apply String.app_inj in Heq. simpl in Heq. injection Heq as Heq.
  revert Heq. unfold pretty, pretty_N. case_decide; [done|].
  by apply pretty_N_go_ne_letter.
Qed.

Lemma StorageKeyWord_ne_headKey tname : StorageKeyWord ≠ tname +:+ KeyTopicHead.
Proof.
  unfold StorageKeyWord, KeyTopicHead. intros Heq.
  do 15 (destruct tname as [|? tname]; [cbv in Heq; discriminate Heq|]).
  cbv in Heq. discriminate Heq.
Qed.

(** ** The anchors in the store *)

(** X1. [newTopic] builds the topic with head 0, tail 0 and no lines, and writes
    its two anchors, the head anchor first. When it returns a topic, the store
    holds both anchors with the value 0 and these two writes are all it did;
    when it returns an error, the error is Internal, one of the two writes
    failed, and the tail anchor has not been written. *)
Theorem newTopic_writes_both_anchors (tname : string) (s : Storage) :
  let t0 := Topic.mkTopic tname ∅ 0 (tname +:+ KeyTopicHead) 0
              (tname +:+ KeyTopicTail) in
  let '(r, s') := UnitedQueue.newTopic tname s in
  match r with
  | inr t =>
      t = t0 ∧ anchored t s' ∧
      journal s' = journal s ++
        [(OpSet (Topic.headKey t0) (PutUint64 0), true);
         (OpSet (Topic.tailKey t0) (PutUint64 0), true)]
  | inl e =>
      has_code ErrInternalError (Some e) ∧
      (fault_at 0 s = true ∨ fault_at 1 s = true) ∧
      data s' !! Topic.tailKey t0 = data s !! Topic.tailKey t0
  end.
Proof.
  intros t0. unfold UnitedQueue.newTopic, bind. fold t0.
  destruct (next_fault s) eqn:Hf0.
  { rewrite exportHead_fail by done. simpl. split_and!; [by eexists|by left|done]. }
  rewrite exportHead_ok by done. set (s1 := record _ _ _ s).
  assert (next_fault s1 = fault_at 1 s) as Hs1.
  { rewrite <-fault_at_0. apply fault_at_record. }
  destruct (next_fault s1) eqn:Hf1.
  { rewrite exportTail_fail by done. simpl. split_and!; [by eexists|by right|].
    apply lookup_insert_ne, headKey_ne_tailKey. }
  rewrite exportTail_ok by done. simpl. split_and!; [done| |by rewrite <-app_assoc].
  split; simpl.
  - rewrite lookup_insert_ne by (symmetry; apply headKey_ne_tailKey).
    apply lookup_insert_eq.
  - apply lookup_insert_eq.
Qed.

(** X2. [push] keeps the store and the topic in step: if the store holds the
    head and tail of a well-formed topic under its anchor keys before a [push],
    it holds the head and tail of the resulting topic after it, whether the
    push succeeds, fails on the payload write or fails on the anchor write. *)
Theorem push_keeps_anchors (d : bytes) (t : Topic.topic) (s : Storage) :
  wf_topic t → anchored t s →
  let '(_, t', s') := Topic.push d t s in anchored t' s'.
Proof.
  intros (Hhk & Htk & Hh & Ht) [Hah Hat]. unfold Topic.push, bind.
  assert (Acatui (Topic.name t) ":" (Topic.tail t) ≠ Topic.headKey t) as Hkh.
  { rewrite Hhk. apply Acatui_ne_headKey. }
  assert (Acatui (Topic.name t) ":" (Topic.tail t) ≠ Topic.tailKey t) as Hkt.
  { rewrite Htk. apply Acatui_ne_tailKey. }
  assert (Topic.tailKey t ≠ Topic.headKey t) as Hth.
  { rewrite Hhk, Htk. intros Heq. symmetry in Heq.
    by apply headKey_ne_tailKey in Heq. }
  destruct (next_fault s) eqn:Hf0.
  { rewrite setData_fail by done. by split. }
  rewrite setData_ok by done. set (s1 := record _ _ _ s).
  destruct (next_fault s1) eqn:Hf1.
  - rewrite exportTail_fail by done. simpl.
    rewrite decr64_incr64 by done. split; simpl.
    + by rewrite lookup_insert_ne.
    + by rewrite lookup_insert_ne.
  - rewrite exportTail_ok by done. simpl. split; simpl.
    + by rewrite !lookup_insert_ne.
    + apply lookup_insert_eq.
Qed.

(** The loop of [mPush] changes the tail and nothing else of the topic, and in
    the store nothing but message keys of the topic. *)
Lemma mPush_loop_frame oldTail datas : ∀ t s,
  let '(_, t', s') := Topic.mPush_loop oldTail datas t s in
  Topic.name t' = Topic.name t ∧ Topic.head t' = Topic.head t ∧
  Topic.headKey t' = Topic.headKey t ∧ Topic.tailKey t' = Topic.tailKey t ∧
  Topic.lines t' = Topic.lines t ∧
  ∀ k, (∀ i, k ≠ Acatui (Topic.name t) ":" i) → data s' !! k = data s !! k.
Proof.
  induction datas as [|d datas IH]; intros t s; simpl; [done|].
  destruct d as [|b d]; [done|]. simpl. unfold bind.
  destruct (next_fault s) eqn:Hf0.
  { by rewrite setData_fail. }
  rewrite setData_ok by done.
  set (s1 := record _ _ _ s). set (t1 := Topic.set_tail _ t).
  specialize (IH t1 s1).
  destruct (Topic.mPush_loop oldTail datas t1 s1) as [[r t'] s'].
  destruct IH as (? & ? & ? & ? & ? & Hframe). split_and!; try done.
  intros k Hk. rewrite Hframe by exact Hk. unfold s1. simpl.
  by rewrite lookup_insert_ne.
Qed.

(** X3. [mPush] keeps the store and the topic in step on success and on every
    failure of the backend: if the store holds the head and tail of a
    well-formed topic under its anchor keys before the batch, then after a
    batch that returns no error or an Internal error it holds the head and tail
    of the resulting topic. *)
Theorem mPush_keeps_anchors (datas : list bytes) (t : Topic.topic) (s : Storage) :
  wf_topic t → anchored t s →
  let '(r, t', s') := Topic.mPush datas t s in
  r = None ∨ has_code ErrInternalError r → anchored t' s'.
Proof.
  intros (Hhk & Htk & Hh & Ht) [Hah Hat]. unfold Topic.mPush, bind.
  pose proof (mPush_loop_frame (Topic.tail t) datas t s) as Hfr.
  pose proof (mPush_loop_tail (Topic.tail t) datas t s) as Htl.
  destruct (Topic.mPush_loop (Topic.tail t) datas t s) as [[r t1] s1].
  destruct Hfr as (Hn & Hhd & Hhk1 & Htk1 & _ & Hframe).
  assert (data s1 !! Topic.headKey t = Some (PutUint64 (Topic.head t))) as Hah1.
  { rewrite Hframe; [done|]. intros i. rewrite Hhk. intros Heq. symmetry in Heq.
    by apply Acatui_ne_headKey in Heq. }
  assert (data s1 !! Topic.tailKey t = Some (PutUint64 (Topic.tail t))) as Hat1.
  { rewrite Hframe; [done|]. intros i. rewrite Htk. intros Heq. symmetry in Heq.
    by apply Acatui_ne_tailKey in Heq. }
  destruct r as [e|].
  - simpl. intros [?|[m [= ->]]]; [done|]. simpl in Htl.
    split; [by rewrite Hhk1, Hhd|by rewrite Htk1, Htl].
  - destruct (next_fault s1) eqn:Hf.
    + rewrite exportTail_fail by done. simpl. intros _.
      split; simpl; [by rewrite Hhk1, Hhd|by rewrite Htk1].
    + rewrite exportTail_ok by done. simpl. intros _. split; simpl.
      * rewrite lookup_insert_ne; [by rewrite Hhk1, Hhd|].
        rewrite Hhk1, Htk1, Hhk, Htk. intros Heq. symmetry in Heq.
        by apply headKey_ne_tailKey in Heq.
      * apply lookup_insert_eq.
Qed.

Lemma iter_incr64 (n : nat) (x : N) :
  x + N.of_nat n < two64 → Nat.iter n incr64 x = x + N.of_nat n.
Proof.
  induction n as [|n IH]; intros Hx; simpl; [lia|].
  rewrite IH by lia. rewrite incr64_small by (unfold two64, maxUint64 in *; lia).
  lia.
Qed.

(** What a run of the loop of [mPush] over accepted payloads leaves in the
    store: payload [i] at id [tail + i], and every other key as it was. *)
Lemma mPush_loop_payloads oldTail datas : ∀ t s,
  Topic.tail t + N.of_nat (length datas) < two64 →
  let '(r, t', s') := Topic.mPush_loop oldTail datas t s in
  r = None →
  (∀ (i : nat) d, datas !! i = Some d →
     data s' !! Acatui (Topic.name t) ":" (Topic.tail t + N.of_nat i) = Some d) ∧
  (∀ k, (∀ i : nat, (i < length datas)%nat →
                    k ≠ Acatui (Topic.name t) ":" (Topic.tail t + N.of_nat i)) →
        data s' !! k = data s !! k).
Proof.
  induction datas as [|d datas IH]; intros t s Hfit; simpl.
  { intros _. split; [|done]. intros i d Hi. by rewrite lookup_nil in Hi. }
  destruct d as [|b d]; [done|]. simpl. unfold bind.
  destruct (next_fault s) eqn:Hf0.
  { by rewrite setData_fail. }
  rewrite setData_ok by done.
  set (s1 := record _ _ _ s). set (t1 := Topic.set_tail _ t).
  assert (incr64 (Topic.tail t) = Topic.tail t + 1) as Hincr.
  { apply incr64_small. simpl in Hfit. unfold two64, maxUint64 in *. lia. }
  specialize (IH t1 s1).
  destruct (Topic.mPush_loop oldTail datas t1 s1) as [[r t'] s'].
  intros Hr. destruct IH as [Hpay Hframe]; [|done|].
  { unfold t1. simpl in *. rewrite Hincr. lia. }
  unfold t1 in Hpay, Hframe. simpl in Hpay, Hframe. rewrite Hincr in Hpay, Hframe.
  split.
  - intros [|i] d0 Hi; simpl in Hi.
    + injection Hi as <-. rewrite Hframe.
      * unfold s1. simpl. rewrite N.add_0_r. apply lookup_insert_eq.
      * intros j _ Heq. apply Acatui_inj in Heq. lia.
    + replace (Topic.tail t + N.of_nat (S i)) with (Topic.tail t + 1 + N.of_nat i)
        by lia.
      by apply Hpay.
  - intros k Hk. rewrite Hframe.
    + unfold s1. simpl. apply lookup_insert_ne. intros Heq.
      apply (Hk 0%nat); [simpl; lia|]. by rewrite N.add_0_r.
    + intros i Hi.
      replace (Topic.tail t + 1 + N.of_nat i) with (Topic.tail t + N.of_nat (S i))
        by lia.
      apply Hk. simpl. lia.
Qed.

(** X4. A successful [mPush] of a batch that fits below 2^64 advances the
    tail by the length of the batch and stores the payloads in order: payload
    [i] of the batch is in the store under the key of message [tail + i], for
    the tail before the batch. *)
Theorem mPush_stores_payloads_in_order (datas : list bytes) (t : Topic.topic)
    (s : Storage) :
  wf_topic t → Topic.tail t + N.of_nat (length datas) < two64 →
  let '(r, t', s') := Topic.mPush datas t s in
  r = None →
  Topic.tail t' = Topic.tail t + N.of_nat (length datas) ∧
  ∀ (i : nat) d, datas !! i = Some d →
    data s' !! Acatui (Topic.name t) ":" (Topic.tail t + N.of_nat i) = Some d.
Proof.
  intros (Hhk & Htk & Hh & Ht) Hfit. unfold Topic.mPush, bind.
  pose proof (mPush_loop_payloads (Topic.tail t) datas t s Hfit) as Hpay.
  pose proof (mPush_loop_tail (Topic.tail t) datas t s) as Htl.
  pose proof (mPush_loop_frame (Topic.tail t) datas t s) as Hfr.
  destruct (Topic.mPush_loop (Topic.tail t) datas t s) as [[r t1] s1].
  destruct r as [e|]; [done|]. destruct (Hpay eq_refl) as [Hp _].
  destruct Hfr as (_ & _ & _ & Htk1 & _).
  destruct (next_fault s1) eqn:Hf.
  { by rewrite exportTail_fail. }
  rewrite exportTail_ok by done. simpl. intros _. split.
  - rewrite Htl. by apply iter_incr64.
  - intros i d Hi. rewrite lookup_insert_ne; [by apply Hp|].
    rewrite Htk1, Htk. intros Heq. symmetry in Heq.
    by apply Acatui_ne_tailKey in Heq.
Qed.

(** X5. [loadTopic] reads back what [exportHead] and [exportTail] wrote: on a
    store that holds the head and tail of a topic under its anchor keys, and
    whose first two reads do not fail, [loadTopic] of the topic's name returns
    a topic with the same name, head, tail and anchor keys. *)
Theorem loadTopic_reads_anchors (names : list string) (t : Topic.topic)
    (s : Storage) :
  wf_topic t → anchored t s → fault_at 0 s = false → fault_at 1 s = false →
  ∃ ls, (UnitedQueue.loadTopic (Topic.name t) names s).1
        = Returns (inr (Topic.mkTopic (Topic.name t) ls (Topic.head t)
                          (Topic.headKey t) (Topic.tail t) (Topic.tailKey t))).
Proof.
  intros (Hhk & Htk & Hh & Ht) [Hah Hat] Hf0 Hf1.
  unfold UnitedQueue.loadTopic, bind. rewrite <-Hhk, <-Htk.
  unfold Storage_Get at 1. rewrite fault_at_0 in Hf0. rewrite Hf0, Hah.
  rewrite Uint64_PutUint64 by done.
  set (s1 := record _ _ _ s).
  assert (next_fault s1 = false) as Hs1.
  { rewrite <-fault_at_0. unfold s1. by rewrite fault_at_record. }
  unfold Storage_Get at 1. rewrite Hs1.
  change (data s1) with (data s). rewrite Hat.
  rewrite Uint64_PutUint64 by done.
  destruct (UnitedQueue.loadLines _ _ _ _) as [ls s3]. by exists ls.
Qed.

(** ** More on the clean pass *)

Lemma clean_loop_noop k ending env t s :
  ending ≤ Topic.head t → Topic.clean_loop k ending env t s = (false, t, s).
Proof.
  intros Hle. destruct k as [|k]; simpl; [done|].
  destruct (N.ltb_spec (Topic.head t) ending); [lia|done].
Qed.

(** X6. A clean pass over a topic that has no line, or whose tail is not above
    its head, does nothing: it performs no operation on the store, leaves the
    topic as it is and reports no shutdown. In particular the messages of a
    topic without lines are never reclaimed. *)
Theorem clean_without_reader_or_backlog_is_noop (env : list tick)
    (ord : list string) (t : Topic.topic) (s : Storage) :
  Topic.lines t = ∅ ∨ Topic.tail t ≤ Topic.head t →
  Topic.clean env ord t s = (false, t, s).
Proof.
  intros Hcase. unfold Topic.clean. apply clean_loop_noop.
  destruct Hcase as [Hnil|Hle].
  - rewrite getEnd_no_lines by done. lia.
  - unfold Topic.getEnd. destruct (size (Topic.lines t) =? 0)%nat; [lia|].
    pose proof (getEnd_fold_le t ord (Topic.tail t)). lia.
Qed.

(** The head anchor along the loop of [clean]. *)
Lemma clean_loop_anchor k ending : ∀ env t s,
  Topic.headKey t = Topic.name t +:+ KeyTopicHead → ending ≤ maxUint64 →
  data s !! Topic.headKey t = Some (PutUint64 (Topic.head t)) →
  let '(_, t', s') := Topic.clean_loop k ending env t s in
  data s' !! Topic.headKey t = Some (PutUint64 (Topic.head t')) ∨
  (Topic.head t < Topic.head t' ∧
   data s' !! Topic.headKey t = Some (PutUint64 (Topic.head t' - 1)) ∧
   last (journal s')
   = Some (OpSet (Topic.headKey t) (PutUint64 (Topic.head t')), false)).
Proof.
  induction k as [|k IH]; intros env t s Hhk Hend Hanc; simpl; [by left|].
  destruct (N.ltb_spec (Topic.head t) ending) as [Hlt|_]; [|by left].
  destruct (quitting _); [by left|]. destruct (overdue _); [by left|].
  unfold bind. destruct (next_fault s) eqn:Hf0.
  { rewrite delData_fail by done. by left. }
  rewrite delData_ok by done. set (s1 := record _ _ _ s).
  assert (incr64 (Topic.head t) = Topic.head t + 1) as Hincr.
  { apply incr64_small. lia. }
  rewrite Hincr. set (t1 := Topic.set_head _ t).
  assert (data s1 !! Topic.headKey t = Some (PutUint64 (Topic.head t))) as Hanc1.
  { unfold s1. simpl. rewrite lookup_delete_ne; [done|]. rewrite Hhk.
    apply Acatui_ne_headKey. }
  destruct (next_fault s1) eqn:Hf1.
  { rewrite exportHead_fail by done. simpl. right. split_and!.
    - lia.
    - by rewrite N.add_sub.
    - by rewrite last_snoc. }
  rewrite exportHead_ok by done. set (s2 := record _ _ _ s1).
  specialize (IH (drop 1 env) t1 s2 Hhk Hend).
  pose proof (clean_loop_data k ending (drop 1 env) t1 s2 Hhk Hend) as Hdata.
  destruct (Topic.clean_loop k ending (drop 1 env) t1 s2) as [[q t'] s'].
  destruct Hdata as ([Hle _] & _). change (Topic.head t1) with (Topic.head t + 1) in Hle.
  destruct IH as [?|(Hlt' & ? & ?)].
  { unfold s2. simpl. apply lookup_insert_eq. }
  { by left. }
  right. split_and!; [lia|done|done].
Qed.

(** X7. A clean pass never moves the tail nor touches the tail anchor, and it
    leaves the head anchor equal to the head, except when its last operation is
    a failed write of the head anchor: then the head in memory is one ahead of
    the anchor in the store, and the message between them is deleted. *)
Theorem clean_keeps_anchors_but_for_a_failed_write (env : list tick)
    (ord : list string) (t : Topic.topic) (s : Storage) :
  wf_topic t → anchored t s →
  let '(_, t', s') := Topic.clean env ord t s in
  Topic.tail t' = Topic.tail t ∧
  data s' !! Topic.tailKey t = Some (PutUint64 (Topic.tail t)) ∧
  (data s' !! Topic.headKey t = Some (PutUint64 (Topic.head t')) ∨
   (Topic.head t < Topic.head t' ∧
    data s' !! Topic.headKey t = Some (PutUint64 (Topic.head t' - 1)) ∧
    data s' !! Acatui (Topic.name t) ":" (Topic.head t' - 1) = None ∧
    last (journal s')
    = Some (OpSet (Topic.headKey t) (PutUint64 (Topic.head t')), false))).
Proof.
  intros Hwf [Hah Hat]. pose proof Hwf as (Hhk & Htk & _).
  pose proof (getEnd_uint64 ord t Hwf) as Hend. unfold Topic.clean.
  set (ending := Topic.getEnd ord t) in *.
  set (k := N.to_nat (ending - Topic.head t)).
  pose proof (clean_loop_anchor k ending env t s Hhk Hend Hah) as Hanc.
  pose proof (clean_loop_data k ending env t s Hhk Hend) as Hdata.
  pose proof (clean_loop_run k ending env t s ltac:(lia) Hend) as Hrun.
  destruct (Topic.clean_loop k ending env t s) as [[q t'] s'].
  destruct Hdata as (_ & Hgone & Hframe).
  destruct Hrun as (n & why & _ & Ht' & _).
  split_and!.
  - by rewrite Ht'.
  - rewrite Hframe; [done| |].
    + rewrite Hhk, Htk. intros Heq. symmetry in Heq.
      by apply headKey_ne_tailKey in Heq.
    + intros i _. rewrite Htk. intros Heq. symmetry in Heq.
      by apply Acatui_ne_tailKey in Heq.
  - destruct Hanc as [?|(Hlt & ? & ?)]; [by left|right].
    split_and!; try done. apply Hgone. lia.
Qed.

(** A pass that nothing interrupts, from a head that is not past the bound. *)
Lemma clean_uninterrupted_run (env : list tick) (ord : list string)
    (t : Topic.topic) (s : Storage) :
  wf_topic t →
  (∀ n, quitting (tick_at n env) = false ∧ overdue (tick_at n env) = false) →
  (∀ n, fault_at n s = false) →
  Topic.head t ≤ Topic.getEnd ord t →
  let '(q, t', s') := Topic.clean env ord t s in
  q = false ∧ Topic.head t' = Topic.getEnd ord t ∧
  (∀ i, Topic.head t ≤ i < Topic.getEnd ord t →
        data s' !! Acatui (Topic.name t) ":" i = None) ∧
  journal s' = journal s ++
    pass_ops (Topic.name t) (Topic.headKey t) (Topic.head t)
      (N.to_nat (Topic.getEnd ord t - Topic.head t)).
Proof.
  intros Hwf Henv Hfaults Hle. pose proof Hwf as (Hhk & _).
  pose proof (getEnd_uint64 ord t Hwf) as Hend. unfold Topic.clean.
  set (ending := Topic.getEnd ord t) in *.
  set (k := N.to_nat (ending - Topic.head t)).
  pose proof (clean_loop_data k ending env t s Hhk Hend) as Hdata.
  pose proof (clean_loop_run k ending env t s ltac:(lia) Hend) as Hrun.
  destruct (Topic.clean_loop k ending env t s) as [[q t'] s'].
  destruct Hdata as ([_ Hmax] & Hgone & _).
  destruct Hrun as (n & why & Hq & Ht' & Hj & Hwhy).
  destruct (Henv n) as [Hquit Hover].
  pose proof (Hfaults (2 * n)%nat) as Hf0. pose proof (Hfaults (2 * n + 1)%nat) as Hf1.
  destruct why; simpl in Hwhy;
    try (destruct Hwhy as (_ & Hwhy); repeat destruct Hwhy as (? & Hwhy);
         congruence).
  rewrite Ht' in Hmax, Hgone |- *. simpl in *.
  rewrite N.add_0_r in *.
  assert (Topic.head t + N.of_nat n = ending) as Heq by lia.
  split_and!; try done.
  - intros i Hi. apply Hgone. lia.
  - rewrite Hj, app_nil_r. do 2 f_equal. unfold k. lia.
Qed.

(** X8. A clean pass that meets no shutdown signal, no deadline and no failure
    of the backend reclaims everything below the bound: it ends with the head
    at the bound of [getEnd], or where it was if the head is already at or past
    the bound (as after [empty], when a line's frontier is behind the topic's
    head); every message key from the old head up to the bound is gone from the
    store, and its operations are exactly one delete and one write of the head
    anchor per message, in order. *)
Theorem clean_uninterrupted_reaches_bound (env : list tick) (ord : list string)
    (t : Topic.topic) (s : Storage) :
  wf_topic t →
  (∀ n, quitting (tick_at n env) = false ∧ overdue (tick_at n env) = false) →
  (∀ n, fault_at n s = false) →
  let '(q, t', s') := Topic.clean env ord t s in
  q = false ∧ Topic.head t' = N.max (Topic.head t) (Topic.getEnd ord t) ∧
  (∀ i, Topic.head t ≤ i < Topic.getEnd ord t →
        data s' !! Acatui (Topic.name t) ":" i = None) ∧
  journal s' = journal s ++
    pass_ops (Topic.name t) (Topic.headKey t) (Topic.head t)
      (N.to_nat (Topic.getEnd ord t - Topic.head t)).
Proof.
  intros Hwf Henv Hfaults.
  destruct (N.le_gt_cases (Topic.head t) (Topic.getEnd ord t)) as [Hle|Hgt].
  - pose proof (clean_uninterrupted_run env ord t s Hwf Henv Hfaults Hle) as Hc.
    destruct (Topic.clean env ord t s) as [[q t'] s'].
    destruct Hc as (Hq & Hh & Hgone & Hj). split_and!; try done.
    rewrite Hh. lia.
  - unfold Topic.clean. rewrite clean_loop_noop by lia. split_and!.
    + done.
    + lia.
    + intros i Hi. lia.
    + replace (N.to_nat (Topic.getEnd ord t - Topic.head t)) with 0%nat by lia.
      simpl. by rewrite app_nil_r.
Qed.

(** ** Purging the messages of a topic *)

Lemma removeMsgData_loop_spec k t : ∀ i s,
  (N.to_nat (Topic.tail t - i) ≤ k)%nat → Topic.tail t ≤ maxUint64 →
  let '(_, s') := Topic.removeMsgData_loop k i t s in
  length (journal s') = (length (journal s) + N.to_nat (Topic.tail t - i))%nat ∧
  (∀ j, i ≤ j < Topic.tail t →
        data s' !! Acatui (Topic.name t) ":" j
        = if fault_at (N.to_nat (j - i)) s then
            data s !! Acatui (Topic.name t) ":" j
          else None) ∧
  (∀ key, (∀ j, i ≤ j < Topic.tail t → key ≠ Acatui (Topic.name t) ":" j) →
          data s' !! key = data s !! key).
Proof.
  induction k as [|k IH]; intros i s Hk Hmax; simpl.
  { split_and!; [lia| |done]. intros j Hj. lia. }
  destruct (N.ltb_spec i (Topic.tail t)) as [Hlt|Hge].
  2:{ split_and!; [lia| |done]. intros j Hj. lia. }
  unfold bind.
  assert (incr64 i = i + 1) as Hincr by (apply incr64_small; lia).
  rewrite Hincr.
  assert (∃ d1, delData (Acatui (Topic.name t) ":" i) s
                = (if next_fault s then Some (NewError ErrInternalError io_failure)
                   else None,
                   record (OpDel (Acatui (Topic.name t) ":" i))
                     (negb (next_fault s)) d1 s) ∧
                d1 = if next_fault s then data s
                     else delete (Acatui (Topic.name t) ":" i) (data s))
    as (d1 & Hdel & Hd1).
  { destruct (next_fault s) eqn:Hf; eexists; split; try reflexivity.
    - by rewrite delData_fail.
    - by rewrite delData_ok. }
  rewrite Hdel. set (s1 := record _ _ d1 s).
  specialize (IH (i + 1) s1 ltac:(lia) Hmax).
  destruct (Topic.removeMsgData_loop k (i + 1) t s1) as [[] s'].
  destruct IH as (Hlen & Hgone & Hframe).
  assert (∀ j, j ≠ i →
            data s1 !! Acatui (Topic.name t) ":" j
            = data s !! Acatui (Topic.name t) ":" j) as Hother.
  { intros j Hj. unfold s1. simpl. rewrite Hd1.
    destruct (next_fault s); [done|]. apply lookup_delete_ne.
    intros Heq. by apply Acatui_inj in Heq. }
  split_and!.
  - rewrite Hlen. unfold s1. simpl. rewrite length_app. simpl. lia.
  - intros j Hj. destruct (N.eq_dec j i) as [->|Hne].
    + rewrite Hframe.
      * rewrite N.sub_diag. change (N.to_nat 0) with 0%nat. rewrite fault_at_0.
        unfold s1. simpl. rewrite Hd1.
        destruct (next_fault s); [done|]. apply lookup_delete_eq.
      * intros j Hj' Heq. apply Acatui_inj in Heq. lia.
    + rewrite Hgone by lia. unfold s1 at 1. rewrite fault_at_record.
      replace (S (N.to_nat (j - (i + 1)))) with (N.to_nat (j - i)) by lia.
      by rewrite Hother.
  - intros key Hkey. rewrite Hframe by (intros j Hj; apply Hkey; lia).
    unfold s1. simpl. rewrite Hd1. destruct (next_fault s); [done|].
    apply lookup_delete_ne. intros Heq. by apply (Hkey i ltac:(lia)).
Qed.

(** X9. [removeMsgData], on a topic whose tail is a 64-bit value, tries to
    delete every message key from head up to tail, once each, goes on after a
    failed delete and returns nil: afterwards a message key in that range is
    absent from the store unless its own delete failed, in which case it is as
    before; every other key is as before. *)
Theorem removeMsgData_purges_what_it_can (t : Topic.topic) (s : Storage) :
  is_uint64 (Topic.tail t) →
  let '(r, s') := Topic.removeMsgData t s in
  r = None ∧
  length (journal s')
  = (length (journal s) + N.to_nat (Topic.tail t - Topic.head t))%nat ∧
  (∀ i, Topic.head t ≤ i < Topic.tail t →
        data s' !! Acatui (Topic.name t) ":" i
        = if fault_at (N.to_nat (i - Topic.head t)) s then
            data s !! Acatui (Topic.name t) ":" i
          else None) ∧
  (∀ key, (∀ i, Topic.head t ≤ i < Topic.tail t →
                key ≠ Acatui (Topic.name t) ":" i) →
          data s' !! key = data s !! key).
Proof.
  intros Ht. unfold Topic.removeMsgData, bind.
  pose proof (removeMsgData_loop_spec
                (N.to_nat (Topic.tail t - Topic.head t)) t (Topic.head t) s
                ltac:(lia)) as Hl.
  destruct (Topic.removeMsgData_loop _ (Topic.head t) t s) as [[] s']. simpl.
  split; [done|]. apply Hl. unfold is_uint64, two64, maxUint64 in *. lia.
Qed.

(** ** Recovery of a line *)

Lemma imap_fill_lookup k hd : ∀ i (m : gmap N bool) j,
  (N.to_nat (hd - i) ≤ k)%nat → hd ≤ maxUint64 →
  Topic.imap_fill k i hd m !! j
  = if decide (i ≤ j < hd) then Some false else m !! j.
Proof.
  induction k as [|k IH]; intros i m j Hk Hmax; simpl.
  { case_decide; [lia|done]. }
  destruct (N.ltb_spec i hd) as [Hlt|Hge].
  2:{ case_decide; [lia|done]. }
  rewrite incr64_small by lia. rewrite IH by lia.
  destruct (decide (j = i)) as [->|Hne].
  - rewrite lookup_insert_eq. rewrite decide_False by lia.
    by rewrite decide_True by lia.
  - rewrite lookup_insert_ne by done.
    destruct (decide (i + 1 ≤ j < hd)).
    + by rewrite decide_True by lia.
    + by rewrite decide_False by lia.
Qed.

Lemma foldl_mark_inflight (ms : list inflightMessage) : ∀ (m : gmap N bool) j,
  foldl (λ m msg, <[Tid msg := true]> m) m ms !! j
  = if decide (j ∈ Tid <$> ms) then Some true else m !! j.
Proof.
  induction ms as [|msg ms IH]; intros m j; cbn [foldl].
  { destruct (decide (j ∈ Tid <$> [])) as [Hin|_]; [|done].
    by apply elem_of_nil in Hin. }
  rewrite IH. rewrite fmap_cons.
  destruct (decide (j ∈ Tid <$> ms)) as [Hin|Hnin].
  - by rewrite decide_True by (by right).
  - destruct (decide (Tid msg = j)) as [<-|Hne].
    + rewrite lookup_insert_eq. by rewrite decide_True by left.
    + rewrite lookup_insert_ne by done. rewrite decide_False; [done|].
      intros [?|?]%elem_of_cons; [congruence|done].
Qed.

(** X10. [loadLine] of a snapshot whose head is a 64-bit value fails only with
    an Internal error (the recycle duration cannot be read or parsed); when it
    succeeds the line has the name asked for, the head, ihead and in-flight
    records of the snapshot, and an [imap] that maps every in-flight id to
    true, every other id of [[ihead, head)] to false, and nothing else. *)
Theorem loadLine_rebuilds_imap (lineName : string) (v : lineStore)
    (t : Topic.topic) (s : Storage) :
  is_uint64 (Head v) →
  let '(r, _) := Topic.loadLine lineName v t s in
  match r with
  | inl e => has_code ErrInternalError (Some e)
  | inr l =>
      Line.name l = lineName ∧ Line.head l = Head v ∧ Line.ihead l = Ihead v ∧
      Line.inflight l = Inflights v ∧
      ∀ j, Line.imap l !! j
           = if decide (j ∈ Tid <$> Inflights v) then Some true
             else if decide (Ihead v ≤ j < Head v) then Some false
             else None
  end.
Proof.
  intros Hhd. unfold Topic.loadLine, bind.
  destruct (getData _ s) as [[e|b] s1]; simpl; [by eexists|].
  destruct (ParseDuration _) as [m|rc]; simpl; [by eexists|].
  split_and!; try done. intros j. rewrite foldl_mark_inflight.
  case_decide; [done|]. rewrite imap_fill_lookup; [done|lia|].
  unfold is_uint64, two64, maxUint64 in *. lia.
Qed.

(** ** Creating a topic *)

Lemma newTopic_topic tname s t s' :
  UnitedQueue.newTopic tname s = (inr t, s') →
  t = Topic.mkTopic tname ∅ 0 (tname +:+ KeyTopicHead) 0 (tname +:+ KeyTopicTail).
Proof.
  unfold UnitedQueue.newTopic, bind.
  destruct (Topic.exportHead _ s) as [[e|] s1]; simpl; [done|].
  destruct (Topic.exportTail _ s1) as [[e|] s2]; simpl; [done|].
  by intros [= <- _].
Qed.

(** X11. [createTopic] either succeeds, and then the name was free and the
    broker's map is the old one with a fresh topic (head 0, tail 0, no lines)
    under it, or fails, and then the broker's map is what it was before the
    call (a topic registered before a failed export of the catalog is removed
    again); on a name already taken the error is TopicExisted and the store is
    not touched. *)
Theorem createTopic_adds_or_restores (tname : string) (fromEtcd : bool)
    (ord : list string) (u : UnitedQueue.queue) (s : Storage) :
  let '(r, u', s') := UnitedQueue.createTopic tname fromEtcd ord u s in
  match r with
  | None =>
      UnitedQueue.topics u !! tname = None ∧
      UnitedQueue.topics u'
      = <[tname := Topic.mkTopic tname ∅ 0 (tname +:+ KeyTopicHead) 0
                     (tname +:+ KeyTopicTail)]> (UnitedQueue.topics u)
  | Some e =>
      UnitedQueue.topics u' = UnitedQueue.topics u ∧
      (is_Some (UnitedQueue.topics u !! tname) →
       e = NewError ErrTopicExisted "queue createTopic" ∧ s' = s)
  end.
Proof.
  unfold UnitedQueue.createTopic.
  destruct (UnitedQueue.topics u !! tname) as [t|] eqn:Ht; simpl; [done|].
  unfold bind.
  destruct (UnitedQueue.newTopic tname s) as [[e|t1] s1] eqn:Hnew; simpl.
  { split; [done|]. by intros [? [=]]. }
  apply newTopic_topic in Hnew. subst t1.
  destruct (UnitedQueue.exportQueue ord _ s1) as [[e|] s2]; simpl.
  - split; [by apply delete_insert_id|]. by intros [? [=]].
  - done.
Qed.

(** What [createTopic] writes: the two anchors of the topic and the broker
    catalog. *)
Lemma createTopic_frame tname fromEtcd ord u s k :
  k ≠ tname +:+ KeyTopicHead → k ≠ tname +:+ KeyTopicTail → k ≠ StorageKeyWord →
  data (UnitedQueue.createTopic tname fromEtcd ord u s).2 !! k = data s !! k.
Proof.
  intros Hh Ht Hq. unfold UnitedQueue.createTopic.
  destruct (UnitedQueue.topics u !! tname); simpl; [done|].
  unfold bind, UnitedQueue.newTopic, bind.
  assert (∀ t s0, data (Topic.exportHead t s0).2 !! k = data s0 !! k
                  ∨ k = Topic.headKey t) as Hexh.
  { intros t s0. destruct (next_fault s0) eqn:Hf.
    - rewrite exportHead_fail by done. by left.
    - rewrite exportHead_ok by done. simpl.
      destruct (decide (k = Topic.headKey t)); [by right|left].
      by rewrite lookup_insert_ne. }
  assert (∀ t s0, data (Topic.exportTail t s0).2 !! k = data s0 !! k
                  ∨ k = Topic.tailKey t) as Hext.
  { intros t s0. destruct (next_fault s0) eqn:Hf.
    - rewrite exportTail_fail by done. by left.
    - rewrite exportTail_ok by done. simpl.
      destruct (decide (k = Topic.tailKey t)); [by right|left].
      by rewrite lookup_insert_ne. }
  set (t0 := Topic.mkTopic _ _ _ _ _ _).
  destruct (Hexh t0 s) as [Hd1|?]; [|done].
  destruct (Topic.exportHead t0 s) as [[e|] s1]; simpl in *; [done|].
  destruct (Hext t0 s1) as [Hd2|?]; [|done].
  destruct (Topic.exportTail t0 s1) as [[e|] s2]; simpl in *; [congruence|].
  unfold UnitedQueue.exportQueue.
  destruct (gobEncodeQueue _) as [m|b]; simpl; [congruence|].
  unfold bind, Storage_Set. destruct (next_fault s2); simpl; [congruence|].
  rewrite lookup_insert_ne by done. congruence.
Qed.

(** X12. [createTopic] does not write the topic's own catalog (the key named
    after the topic): for a name other than the broker's own key, if the store
    holds nothing under the topic's name before the call, it holds nothing
    there after it, and recovery over such a store passes the topic over and
    goes on with the names listed after it. *)
Theorem createTopic_leaves_topic_catalog_unwritten (tname : string)
    (fromEtcd : bool) (ord : list string) (u : UnitedQueue.queue) (s : Storage) :
  tname ≠ StorageKeyWord → data s !! tname = None →
  let '(_, _, s') := UnitedQueue.createTopic tname fromEtcd ord u s in
  data s' !! tname = None ∧
  ∀ rest u0 s2, data s2 = data s' →
    UnitedQueue.loadTopics (tname :: rest) u0 s2
    = UnitedQueue.loadTopics rest u0 (Storage_Get tname s2).2.
Proof.
  intros Hq Hnone.
  pose proof (createTopic_frame tname fromEtcd ord u s tname) as Hfr.
  destruct (UnitedQueue.createTopic tname fromEtcd ord u s) as [[r u'] s'].
  simpl in Hfr.
  assert (data s' !! tname = None) as Hnone'.
  { rewrite Hfr; [done| | |done].
    - intros Heq. symmetry in Heq. by apply String_app_ne_self in Heq.
    - intros Heq. symmetry in Heq. by apply String_app_ne_self in Heq. }
  split; [done|]. intros rest u0 s2 Hd. simpl. unfold bind.
  unfold Storage_Get. rewrite Hd, Hnone'. by destruct (next_fault s2).
Qed.

Lemma omap_all_Some {A} (f : A → option A) (l : list A) :
  (∀ x, x ∈ l → f x = Some x) → omap f l = l.
Proof.
  induction l as [|a l IH]; intros Hall; simpl; [done|].
  rewrite (Hall a) by left. f_equal. apply IH. intros x Hx. apply Hall. by right.
Qed.

Lemma range_of_elem {V} (m : gmap string V) ord k :
  range_of m ord → k ∈ ord ↔ is_Some (m !! k).
Proof.
  unfold range_of. intros ->. rewrite list_elem_of_fmap. split.
  - intros ([k' v] & -> & Hin). apply elem_of_map_to_list in Hin. by eexists.
  - intros [v Hv]. exists (k, v). split; [done|]. by apply elem_of_map_to_list.
Qed.

(** X13. Whatever the order in which the runtime ranges over the broker's
    map, the catalog that [genQueueStore] builds lists every topic of the map
    exactly once and nothing else, and a successful [exportQueue] leaves its
    encoding in the store under the broker's key. *)
Theorem exportQueue_lists_every_topic_once (ord : list string)
    (u : UnitedQueue.queue) (s : Storage) :
  range_of (UnitedQueue.topics u) ord →
  UnitedQueue.genQueueStore ord u = ord ∧ NoDup ord ∧
  (∀ k, k ∈ ord ↔ is_Some (UnitedQueue.topics u !! k)) ∧
  let '(r, s') := UnitedQueue.exportQueue ord u s in
  r = None →
  ∃ b, gobEncodeQueue ord = inr b ∧ data s' !! StorageKeyWord = Some b.
Proof.
  intros Hord.
  assert (UnitedQueue.genQueueStore ord u = ord) as Hgen.
  { unfold UnitedQueue.genQueueStore. apply omap_all_Some. intros k Hk.
    apply (range_of_elem _ _ _ Hord) in Hk as [t ->]. done. }
  split_and!.
  - done.
  - unfold range_of in Hord. rewrite Hord. apply NoDup_fst_map_to_list.
  - intros k. by apply range_of_elem.
  - unfold UnitedQueue.exportQueue. rewrite Hgen.
    destruct (gobEncodeQueue ord) as [m|b]; simpl; [done|].
    unfold bind, Storage_Set. destruct (next_fault s); simpl; [done|].
    intros _. exists b. split; [done|]. apply lookup_insert_eq.
Qed.

(** ** Creating a line *)

(** X14. [createLine] never panics. When it returns an error the topic is as
    it was before the call, and on a name already taken the error is
    LineExisted and the store is not touched. Otherwise the name was free and
    the topic has gained a line that starts at the topic's head with nothing in
    flight; this holds both when the call returns nil and when it blocks on its
    own lock after a failed export of the catalog, so that the line is not
    removed again. *)
Theorem createLine_returns_error_or_attaches (lname : string) (recycle : Z)
    (fromEtcd : bool) (ord : list string) (t : Topic.topic) (s : Storage) :
  let l0 := Line.mkLine lname (Topic.head t) recycle
              (Topic.name t +:+ "/" +:+ lname +:+ KeyLineRecycle) []
              (Topic.head t) ∅ in
  let '(r, t', s') := Topic.createLine lname recycle fromEtcd ord t s in
  match r with
  | Returns (Some e) =>
      t' = t ∧
      (is_Some (Topic.lines t !! lname) →
       e = NewError ErrLineExisted "topic createLine" ∧ s' = s)
  | Returns None | Blocks =>
      Topic.lines t !! lname = None ∧
      t' = Topic.set_lines (<[lname := l0]> (Topic.lines t)) t
  | Panics => False
  end.
Proof.
  intros l0. unfold Topic.createLine.
  destruct (Topic.lines t !! lname) as [l|] eqn:Hl; simpl; [done|].
  unfold bind.
  destruct (Topic.newLine lname recycle t s) as [[e|l] s1] eqn:Hnew; simpl.
  { split; [done|]. by intros [? [=]]. }
  apply newLine_line in Hnew. subst l. fold l0.
  by destruct (Topic.exportTopic ord _ s1) as [[e|] s2].
Qed.

(** X15. After a successful [createLine] on a topic whose lines are stored
    under their own names, the lines are still stored under their own names,
    the catalog that [genTopicStore] builds lists exactly the names of the
    topic's lines, the new one included, and its encoding is in the store under
    the topic's name. *)
Theorem createLine_catalog_lists_the_lines (lname : string) (recycle : Z)
    (fromEtcd : bool) (ord : list string) (t : Topic.topic) (s : Storage) :
  lines_named t → ord ≡ₚ lname :: (map_to_list (Topic.lines t)).*1 →
  let '(r, t', s') := Topic.createLine lname recycle fromEtcd ord t s in
  r = Returns None →
  lines_named t' ∧ range_of (Topic.lines t') ord ∧
  Topic.genTopicStore ord t' = ord ∧
  ∃ b, gobEncodeTopic ord = inr b ∧ data s' !! Topic.name t = Some b.
Proof.
  intros Hnamed Hord. unfold Topic.createLine.
  destruct (Topic.lines t !! lname) as [l|] eqn:Hl; simpl; [done|].
  unfold bind.
  destruct (Topic.newLine lname recycle t s) as [[e|l] s1] eqn:Hnew; simpl;
    [done|].
  apply newLine_line in Hnew.
  set (t1 := Topic.set_lines _ t).
  assert (lines_named t1) as Hnamed1.
  { intros k l' Hk. unfold t1 in Hk. simpl in Hk.
    destruct (decide (lname = k)) as [<-|Hne].
    - rewrite lookup_insert_eq in Hk. injection Hk as <-. by subst l.
    - rewrite lookup_insert_ne in Hk by done. by apply Hnamed. }
  assert (range_of (Topic.lines t1) ord) as Hrange.
  { unfold range_of, t1. simpl. rewrite Hord.
    by rewrite (map_to_list_insert _ _ _ Hl). }
  assert (Topic.genTopicStore ord t1 = ord) as Hgen.
  { unfold Topic.genTopicStore. apply omap_all_Some. intros k Hk.
    apply (range_of_elem _ _ _ Hrange) in Hk as [l' Hl'].
    rewrite Hl'. simpl. f_equal. by apply Hnamed1. }
  unfold Topic.exportTopic. rewrite Hgen.
  destruct (gobEncodeTopic ord) as [m|b]; simpl; [done|].
  unfold bind. destruct (next_fault s1) eqn:Hf.
  { by rewrite setData_fail. }
  rewrite setData_ok by done. simpl. intros _. split_and!; try done.
  exists b. split; [done|]. apply lookup_insert_eq.
Qed.

(** ** Routing by key *)

Lemma Split_nosep s c : count_byte c s = 0%nat → Split s c = [s].
Proof.
  induction s as [|a r IH]; simpl; [done|].
  destruct (Ascii.eqb a c); [done|]. intros Hc. by rewrite IH.
Qed.

Lemma Split_app_sep a b c :
  Split (a +:+ String c b) c = Split a c ++ Split b c.
Proof.
  induction a as [|x a IH].
  - change (EmptyString +:+ String c b) with (String c b). simpl.
    by rewrite Ascii.eqb_refl.
  - change (String x a +:+ String c b) with (String x (a +:+ String c b)).
    simpl. rewrite IH. destruct (Ascii.eqb x c); [done|].
    pose proof (Split_length a c) as Hlen.
    by destruct (Split a c).
Qed.

Lemma Split_parts_nosep s c : ∀ p, p ∈ Split s c → count_byte c p = 0%nat.
Proof.
  induction s as [|a r IH]; simpl.
  { by intros p ->%list_elem_of_singleton. }
  destruct (Ascii.eqb a c) eqn:Hac.
  - intros p [->|Hp]%elem_of_cons; [done|]. by apply IH.
  - pose proof (Split_length r c) as Hlen.
    destruct (Split r c) as [|q qs]; [done|].
    intros p [->|Hp]%elem_of_cons.
    + simpl. rewrite Hac. apply IH. left.
    + apply IH. by right.
Qed.

(** X16. [Pop] splits its key at the one ['/']: for names [T] and [L] without
    ['/'], [Pop] of ["T/L"] fails with TopicNotExisted if the broker has no
    topic [T], with LineNotExisted if [T] has no line [L], and otherwise is the
    [pop] of line [L] against the tail of [T], whose resulting line replaces
    [L] in [T]; no other topic and no other line changes. *)
Theorem Pop_routes_to_topic_and_line (tn ln : string) (now : Z)
    (u : UnitedQueue.queue) (s : Storage) :
  count_byte "/" tn = 0%nat → count_byte "/" ln = 0%nat →
  UnitedQueue.Pop (tn +:+ "/" +:+ ln) now u s
  = match UnitedQueue.topics u !! tn with
    | None => (inl (NewError ErrTopicNotExisted "queue pop"), u, s)
    | Some t =>
        match Topic.lines t !! ln with
        | None => (inl (NewError ErrLineNotExisted "topic pop"), u, s)
        | Some l =>
            let '(r, l', s') := Line.pop (Topic.name t) (Topic.tail t) now l s in
            (r, UnitedQueue.mkQueue
                  (<[tn := Topic.set_lines (<[ln := l']> (Topic.lines t)) t]>
                     (UnitedQueue.topics u)), s')
        end
    end.
Proof.
  intros Htn Hln. unfold UnitedQueue.Pop.
  change (tn +:+ "/" +:+ ln) with (tn +:+ String "/" ln).
  rewrite Split_app_sep, (Split_nosep tn), (Split_nosep ln) by done. simpl.
  destruct (UnitedQueue.topics u !! tn) as [t|] eqn:Ht; [|done].
  unfold bind, Topic.pop.
  destruct (Topic.lines t !! ln) as [l|].
  - unfold bind. by destruct (Line.pop _ _ now l s) as [[r l'] s'].
  - simpl. rewrite insert_id by done. by destruct u.
Qed.

(** X17. A topic whose name contains a ['/'] cannot be reached through a key:
    whatever the key, [Pop], [MultiPop] and [Confirm] leave that topic as it
    is. ([Create] accepts such names.) *)
Theorem slashed_topic_is_unreachable (tn key : string) (now : Z)
    (nows : nat → Z) (n : Z) (u : UnitedQueue.queue) (s : Storage) :
  count_byte "/" tn ≠ 0%nat →
  UnitedQueue.topics (UnitedQueue.Pop key now u s).1.2 !! tn
  = UnitedQueue.topics u !! tn ∧
  UnitedQueue.topics (UnitedQueue.MultiPop key nows n u s).1.2 !! tn
  = UnitedQueue.topics u !! tn ∧
  UnitedQueue.topics (UnitedQueue.Confirm key u).2 !! tn
  = UnitedQueue.topics u !! tn.
Proof.
  intros Htn.
  assert (nth 0 (Split key "/") EmptyString ≠ tn) as Hfirst.
  { pose proof (Split_length key "/") as Hlen.
    pose proof (Split_parts_nosep key "/") as Hparts.
    destruct (Split key "/") as [|p ps]; [done|]. simpl. intros ->.
    apply Htn, Hparts. left. }
  unfold UnitedQueue.Pop, UnitedQueue.MultiPop, UnitedQueue.Confirm.
  split_and!.
  - destruct (negb _); [done|].
    destruct (UnitedQueue.topics u !! nth 0 (Split key "/") EmptyString);
      [|done].
    unfold bind. destruct (Topic.pop _ now _ s) as [[r t'] s']. simpl.
    by rewrite lookup_insert_ne.
  - destruct (negb _); [done|].
    destruct (UnitedQueue.topics u !! nth 0 (Split key "/") EmptyString);
      [|done].
    unfold bind. destruct (Topic.mPop _ nows n _ s) as [[r t'] s']. simpl.
    by rewrite lookup_insert_ne.
  - destruct (negb _); [done|].
    destruct (ParseUint _); [done|].
    destruct (UnitedQueue.topics u !! nth 0 (Split key "/") EmptyString);
      [|done].
    destruct (Topic.confirm _ _ _) as [err t']. simpl.
    by rewrite lookup_insert_ne.
Qed.

Lemma String_app_assoc (a b c : string) : (a +:+ b) +:+ c = a +:+ (b +:+ c).
Proof.
  induction a as [|x a IH]; [done|].
  change (String x ((a +:+ b) +:+ c) = String x (a +:+ (b +:+ c))). by f_equal.
Qed.

Lemma pretty_N_go_app x : ∀ s, pretty_N_go x s = pretty_N_go x EmptyString +:+ s.
Proof.
  induction (N.lt_wf_0 x) as [x _ IH]; intros s.
  assert (x = 0 ∨ 0 < x)%N as [->|Hx] by lia.
  - by rewrite !pretty_N_go_0.
  - rewrite (pretty_N_go_step x s), (pretty_N_go_step x EmptyString) by done.
    set (c := pretty_N_char (x `mod` 10)).
    rewrite (IH (x `div` 10)%N ltac:(by apply N.div_lt) (String c s)).
    rewrite (IH (x `div` 10)%N ltac:(by apply N.div_lt) (String c EmptyString)).
    by rewrite String_app_assoc.
Qed.

Lemma decimal_app a : ∀ b n, decimal (a +:+ b) n = decimal b (decimal a n).
Proof.
  induction a as [|x a IH]; intros b n; [done|].
  change (String x a +:+ b) with (String x (a +:+ b)). simpl. apply IH.
Qed.

Lemma all_digits_app a b : all_digits (a +:+ b) = all_digits a && all_digits b.
Proof.
  induction a as [|x a IH]; [done|].
  change (String x a +:+ b) with (String x (a +:+ b)). simpl.
  by rewrite IH, andb_assoc.
Qed.

Lemma pretty_N_char_digit d :
  d < 10 → is_digit (pretty_N_char d) = true ∧
           N_of_ascii (pretty_N_char d) - 48 = d.
Proof.
  intros Hd.
  assert (d = 0 ∨ d = 1 ∨ d = 2 ∨ d = 3 ∨ d = 4 ∨ d = 5 ∨ d = 6 ∨ d = 7 ∨
          d = 8 ∨ d = 9) as Hcases by lia.
  repeat (destruct Hcases as [->|Hcases]; [done|]). by subst.
Qed.

Lemma pretty_N_go_decimal x :
  all_digits (pretty_N_go x EmptyString) = true ∧
  decimal (pretty_N_go x EmptyString) 0 = x.
Proof.
  induction (N.lt_wf_0 x) as [x _ IH].
  assert (x = 0 ∨ 0 < x)%N as [->|Hx] by lia.
  - by rewrite pretty_N_go_0.
  - rewrite pretty_N_go_step by done. rewrite pretty_N_go_app.
    destruct (IH (x `div` 10)%N ltac:(by apply N.div_lt)) as [Hd Hv].
    destruct (pretty_N_char_digit (x `mod` 10)) as [Hc Hn].
    { by apply N.mod_lt. }
    rewrite all_digits_app, decimal_app, Hd, Hv. simpl. rewrite Hc, Hn.
    split; [done|]. pose proof (N.div_mod x 10 ltac:(done)). lia.
Qed.

Lemma all_digits_no_slash s : all_digits s = true → count_byte "/" s = 0%nat.
Proof.
  induction s as [|c s IH]; simpl; [done|].
  intros [Hc Hs]%andb_true_iff. rewrite IH by done.
  destruct (Ascii.eqb_spec c "/") as [->|_]; [done|done].
Qed.

(** The decimal form of an id is what [ParseUint] reads back. *)
Lemma ParseUint_pretty (id : N) : is_uint64 id → ParseUint (pretty id) = inr id.
Proof.
  intros Hid. apply ParseUint_ok_iff.
  unfold pretty, pretty_N. case_decide as H0.
  - subst. by split_and!.
  - destruct (pretty_N_go_decimal id) as [Hd Hv]. split_and!; try done.
    + intros Heq. rewrite Heq in Hv. simpl in Hv. lia.
    + unfold is_uint64, two64, maxUint64 in *. lia.
Qed.

(** X18. [Confirm] splits its key at the two ['/'] and reads the id in decimal:
    for names [T] and [L] without ['/'] and a 64-bit [id], [Confirm] of
    ["T/L/id"] fails with TopicNotExisted if the broker has no topic [T] and is
    otherwise the [confirm] of [id] on line [L] of topic [T]. *)
Theorem Confirm_routes_to_topic_line_and_id (tn ln : string) (id : N)
    (u : UnitedQueue.queue) :
  count_byte "/" tn = 0%nat → count_byte "/" ln = 0%nat → is_uint64 id →
  UnitedQueue.Confirm (tn +:+ "/" +:+ ln +:+ "/" +:+ pretty id) u
  = match UnitedQueue.topics u !! tn with
    | None => (Some (NewError ErrTopicNotExisted "queue confirm"), u)
    | Some t =>
        let (err, t') := Topic.confirm ln id t in
        (err, UnitedQueue.mkQueue (<[tn := t']> (UnitedQueue.topics u)))
    end.
Proof.
  intros Htn Hln Hid. unfold UnitedQueue.Confirm.
  change (tn +:+ "/" +:+ ln +:+ "/" +:+ pretty id)
    with (tn +:+ String "/" (ln +:+ String "/" (pretty id))).
  assert (count_byte "/" (pretty id) = 0%nat) as Hidc.
  { apply all_digits_no_slash.
    pose proof (ParseUint_pretty id Hid) as Hp.
    by apply ParseUint_ok_iff in Hp as (_ & ? & _). }
  rewrite !Split_app_sep, (Split_nosep tn), (Split_nosep ln),
    (Split_nosep (pretty id)) by done.
  simpl. by rewrite ParseUint_pretty.
Qed.

(** ** Recovery only reads *)

Lemma reads_only_refl s : reads_only s s.
Proof.
  split; [done|]. exists []. split; [by rewrite app_nil_r|].
  intros ?? Hin. by apply elem_of_nil in Hin.
Qed.

Lemma reads_only_trans s1 s2 s3 :
  reads_only s1 s2 → reads_only s2 s3 → reads_only s1 s3.
Proof.
  intros [Hd1 (J1 & Hj1 & Hg1)] [Hd2 (J2 & Hj2 & Hg2)].
  split; [congruence|]. exists (J1 ++ J2). split.
  - by rewrite Hj2, Hj1, app_assoc.
  - intros op ok [?|?]%elem_of_app; eauto.
Qed.

Lemma Storage_Get_reads k s : reads_only s (Storage_Get k s).2.
Proof.
  assert (∀ ok, reads_only s (record (OpGet k) ok (data s) s)) as Hrec.
  { intros ok. split; [done|]. eexists. split; [done|].
    intros op ok' Hin. apply list_elem_of_singleton in Hin.
    injection Hin as -> _. by eexists. }
  unfold Storage_Get. destruct (next_fault s); [apply Hrec|].
  destruct (data s !! k); apply Hrec.
Qed.

Lemma loadLine_reads lineName v t s :
  reads_only s (Topic.loadLine lineName v t s).2.
Proof.
  unfold Topic.loadLine, getData, bind.
  pose proof (Storage_Get_reads
                (Topic.name t +:+ "/" +:+ lineName +:+ KeyLineRecycle) s) as Hg.
  destruct (Storage_Get _ s) as [[e|b] s1]; [exact Hg|]. simpl.
  by destruct (ParseDuration _).
Qed.

Lemma loadLines_reads names t : ∀ lines s,
  reads_only s (UnitedQueue.loadLines names t lines s).2.
Proof.
  induction names as [|n names IH]; intros lines s; simpl;
    [apply reads_only_refl|].
  unfold bind.
  pose proof (Storage_Get_reads (Topic.name t +:+ "/" +:+ n) s) as Hg.
  destruct (Storage_Get _ s) as [[e|b] s1]; simpl in Hg.
  { eapply reads_only_trans; [exact Hg|apply IH]. }
  destruct (length b =? 0)%nat.
  { eapply reads_only_trans; [exact Hg|apply IH]. }
  destruct (gobDecodeLine b) as [v|].
  2:{ eapply reads_only_trans; [exact Hg|apply IH]. }
  pose proof (loadLine_reads n v t s1) as Hl.
  destruct (Topic.loadLine n v t s1) as [[e|l] s2]; simpl in Hl;
    (eapply reads_only_trans; [exact Hg|];
     eapply reads_only_trans; [exact Hl|apply IH]).
Qed.

Lemma loadTopic_reads tname names s :
  reads_only s (UnitedQueue.loadTopic tname names s).2.
Proof.
  unfold UnitedQueue.loadTopic, bind.
  pose proof (Storage_Get_reads (tname +:+ KeyTopicHead) s) as Hg1.
  destruct (Storage_Get (tname +:+ KeyTopicHead) s) as [[e|hb] s1];
    simpl in Hg1; [done|].
  destruct (Uint64 hb) as [hd|]; [|done].
  pose proof (Storage_Get_reads (tname +:+ KeyTopicTail) s1) as Hg2.
  destruct (Storage_Get (tname +:+ KeyTopicTail) s1) as [[e|tb] s2];
    simpl in Hg2; [by eapply reads_only_trans|].
  destruct (Uint64 tb) as [tl|]; [|by eapply reads_only_trans].
  pose proof (loadLines_reads names
                (Topic.mkTopic tname ∅ hd (tname +:+ KeyTopicHead) tl
                   (tname +:+ KeyTopicTail)) ∅ s2) as Hl.
  destruct (UnitedQueue.loadLines _ _ _ s2) as [ls s3]. simpl in *.
  eapply reads_only_trans; [exact Hg1|]. by eapply reads_only_trans.
Qed.

Lemma loadTopics_reads names : ∀ u s,
  reads_only s (UnitedQueue.loadTopics names u s).2.
Proof.
  induction names as [|n names IH]; intros u s; simpl; [apply reads_only_refl|].
  unfold bind. pose proof (Storage_Get_reads n s) as Hg.
  destruct (Storage_Get n s) as [[e|b] s1]; simpl in Hg.
  { eapply reads_only_trans; [exact Hg|apply IH]. }
  destruct (length b =? 0)%nat.
  { eapply reads_only_trans; [exact Hg|apply IH]. }
  destruct (gobDecodeTopic b) as [v|].
  2:{ eapply reads_only_trans; [exact Hg|apply IH]. }
  pose proof (loadTopic_reads n v s1) as Hl.
  destruct (UnitedQueue.loadTopic n v s1) as [[[e|t]| |] s2]; simpl in Hl.
  - eapply reads_only_trans; [exact Hg|].
    eapply reads_only_trans; [exact Hl|apply IH].
  - eapply reads_only_trans; [exact Hg|].
    eapply reads_only_trans; [exact Hl|apply IH].
  - by eapply reads_only_trans.
  - by eapply reads_only_trans.
Qed.

(** X19. Recovery only reads: whatever the store holds and whichever of its
    operations fail, [loadQueue] leaves the data of the store as they are, and
    every operation it performs on the backend is a get. *)
Theorem loadQueue_only_reads (u : UnitedQueue.queue) (s : Storage) :
  reads_only s (UnitedQueue.loadQueue u s).2.
Proof.
  unfold UnitedQueue.loadQueue, bind.
  pose proof (Storage_Get_reads StorageKeyWord s) as Hg.
  destruct (Storage_Get StorageKeyWord s) as [[e|b] s1]; simpl in Hg; [done|].
  destruct (0 <? length b)%nat; [|done].
  destruct (gobDecodeQueue b) as [names|]; [|done].
  pose proof (loadTopics_reads names u s1) as Hl.
  destruct (UnitedQueue.loadTopics names u s1) as [[r u'] s2]. simpl in Hl.
  destruct r; simpl; by eapply reads_only_trans.
Qed.

(** ** From creation to the first message *)

Lemma no_faults_next s : faults s = [] → next_fault s = false.
Proof. unfold next_fault. by intros ->. Qed.

Lemma no_faults_record op ok d s : faults s = [] → faults (record op ok d s) = [].
Proof. unfold record. simpl. by intros ->. Qed.

(** X20. Creating a topic and pushing to it compose: on a backend that does
    not fail and with a catalog that encodes, [Create] of a free, non-empty
    topic name followed by [Push] of a payload to that name both return nil;
    the broker then has the topic with head 0 and tail 1, and the store holds
    the payload under the key of message 0 and the anchors 0 and 1. *)
Theorem Create_then_Push_stores_first_message (tn : string) (d : bytes)
    (ord : list string) (u : UnitedQueue.queue) (s : Storage) :
  tn ≠ EmptyString → UnitedQueue.topics u !! tn = None → faults s = [] →
  (∀ names, ∃ b, gobEncodeQueue names = inr b) →
  let '(r1, u1, s1) := UnitedQueue.Create (mkRequest tn EmptyString 0) ord u s in
  let '(r2, u2, s2) := UnitedQueue.Push tn d u1 s1 in
  r1 = Returns None ∧ r2 = None ∧
  UnitedQueue.topics u2
  = <[tn := Topic.mkTopic tn ∅ 0 (tn +:+ KeyTopicHead) 1 (tn +:+ KeyTopicTail)]>
      (UnitedQueue.topics u) ∧
  data s2 !! Acatui tn ":" 0 = Some d ∧
  data s2 !! (tn +:+ KeyTopicHead) = Some (PutUint64 0) ∧
  data s2 !! (tn +:+ KeyTopicTail) = Some (PutUint64 1).
Proof.
  intros Htn Hnew Hnf Henc. unfold UnitedQueue.Create.
  cbn [TopicName LineName Recycle].
  destruct (decide (tn = EmptyString)) as [?|_]; [done|].
  destruct (decide (EmptyString ≠ EmptyString)) as [?|_]; [done|].
  unfold bind, UnitedQueue.createTopic. rewrite Hnew.
  unfold bind, UnitedQueue.newTopic, bind.
  set (t0 := Topic.mkTopic tn ∅ 0 (tn +:+ KeyTopicHead) 0 (tn +:+ KeyTopicTail)).
  rewrite exportHead_ok by (by apply no_faults_next).
  set (sa := record _ _ _ s).
  assert (faults sa = []) as Hfa by (by apply no_faults_record).
  rewrite exportTail_ok by (by apply no_faults_next).
  set (sb := record _ _ _ sa).
  assert (faults sb = []) as Hfb by (by apply no_faults_record).
  unfold ret at 1. cbv beta iota. unfold UnitedQueue.exportQueue.
  match goal with
  | |- context [gobEncodeQueue ?l] => destruct (Henc l) as [b ->]
  end.
  unfold bind, Storage_Set. rewrite (no_faults_next sb) by done.
  set (sc := record _ _ _ sb).
  assert (faults sc = []) as Hfc by (by apply no_faults_record).
  unfold ret. cbv beta iota.
  unfold UnitedQueue.Push. cbn [UnitedQueue.topics]. rewrite lookup_insert_eq.
  unfold bind, Topic.push, bind.
  rewrite setData_ok by (by apply no_faults_next).
  set (sd := record _ _ _ sc).
  assert (faults sd = []) as Hfd by (by apply no_faults_record).
  rewrite exportTail_ok by (by apply no_faults_next).
  unfold ret. cbv beta iota. subst sd sc sb sa t0.
  cbn [Topic.tail Topic.set_tail Topic.name Topic.tailKey Topic.headKey
       Topic.head Topic.lines fst snd UnitedQueue.topics data record].
  assert (Acatui tn ":" 0 ≠ tn +:+ KeyTopicTail) as Hkt
    by apply Acatui_ne_tailKey.
  assert (Acatui tn ":" 0 ≠ tn +:+ KeyTopicHead) as Hkh
    by apply Acatui_ne_headKey.
  pose proof (headKey_ne_tailKey tn) as Hht.
  split_and!.
  - done.
  - done.
  - by rewrite insert_insert_eq.
  - rewrite lookup_insert_ne by done. apply lookup_insert_eq.
  - rewrite lookup_insert_ne by done.
    rewrite lookup_insert_ne by done.
    rewrite lookup_insert_ne by apply StorageKeyWord_ne_headKey.
    rewrite lookup_insert_ne by done. apply lookup_insert_eq.
  - apply lookup_insert_eq.
Qed.

(** ** Invariants of a topic *)

Lemma mPush_loop_tail_ge oldTail datas : ∀ t s,
  Topic.tail t + N.of_nat (length datas) < two64 → oldTail ≤ Topic.tail t →
  oldTail ≤ Topic.tail (Topic.mPush_loop oldTail datas t s).1.2.
Proof.
  induction datas as [|d datas IH]; intros t s Hfit Hle; simpl; [done|].
  destruct d as [|b d]; [done|]. simpl. unfold bind.
  destruct (next_fault s) eqn:Hf0.
  { rewrite setData_fail by done. simpl. lia. }
  rewrite setData_ok by done.
  assert (incr64 (Topic.tail t) = Topic.tail t + 1) as Hincr.
  { apply incr64_small. simpl in Hfit. unfold two64, maxUint64 in *. lia. }
  apply IH; simpl in *; rewrite Hincr; lia.
Qed.

(** X21. The shape of a topic is an invariant: [newTopic] and [loadTopic]
    return topics whose anchor keys are the topic's name followed by [:head]
    and [:tail] and whose head and tail are below 2^64, and [push], [mPush],
    [empty] and [clean] keep this, whatever their outcome. *)
Theorem wf_topic_is_an_invariant (tname : string) (names : list string)
    (d : bytes) (datas : list bytes) (env : list tick) (ord : list string)
    (t : Topic.topic) (s : Storage) :
  (∀ t0, (UnitedQueue.newTopic tname s).1 = inr t0 → wf_topic t0) ∧
  (∀ t0, (UnitedQueue.loadTopic tname names s).1 = Returns (inr t0) →
         wf_topic t0) ∧
  (wf_topic t →
   wf_topic (Topic.push d t s).1.2 ∧ wf_topic (Topic.mPush datas t s).1.2 ∧
   wf_topic (Topic.empty ord t s).1.2 ∧ wf_topic (Topic.clean env ord t s).1.2).
Proof.
  split_and!.
  - intros t0 Hnew. destruct (UnitedQueue.newTopic tname s) as [r s'] eqn:Hrun.
    simpl in Hnew. subst r. by eapply newTopic_wf.
  - intros t0 Hload.
    destruct (UnitedQueue.loadTopic tname names s) as [r s'] eqn:Hrun.
    simpl in Hload. subst r. by eapply loadTopic_wf.
  - intros Hwf. split_and!.
    + by apply push_wf.
    + by apply mPush_wf.
    + by apply empty_wf.
    + by apply clean_wf.
Qed.

(** X22. The head of a topic never passes its tail: if head <= tail before,
    then head <= tail after a clean pass and after [empty], whatever their
    outcome, and after [push] and [mPush] as long as the tail does not wrap
    around 2^64. *)
Theorem head_stays_behind_tail (d : bytes) (datas : list bytes)
    (env : list tick) (ord : list string) (t : Topic.topic) (s : Storage) :
  wf_topic t → Topic.head t ≤ Topic.tail t →
  (let t' := (Topic.clean env ord t s).1.2 in Topic.head t' ≤ Topic.tail t') ∧
  (let t' := (Topic.empty ord t s).1.2 in Topic.head t' ≤ Topic.tail t') ∧
  (Topic.tail t < maxUint64 →
   let t' := (Topic.push d t s).1.2 in Topic.head t' ≤ Topic.tail t') ∧
  (Topic.tail t + N.of_nat (length datas) < two64 →
   let t' := (Topic.mPush datas t s).1.2 in Topic.head t' ≤ Topic.tail t').
Proof.
  intros Hwf Hle. pose proof Hwf as (Hhk & Htk & Hh & Ht). split_and!.
  - pose proof (getEnd_uint64 ord t Hwf) as Hend. unfold Topic.clean.
    pose proof (clean_loop_run (N.to_nat (Topic.getEnd ord t - Topic.head t))
                  (Topic.getEnd ord t) env t s ltac:(lia) Hend) as Hrun.
    pose proof (clean_loop_data (N.to_nat (Topic.getEnd ord t - Topic.head t))
                  (Topic.getEnd ord t) env t s Hhk Hend) as Hdata.
    destruct (Topic.clean_loop _ _ env t s) as [[q t'] s'].
    destruct Hrun as (n & why & _ & Ht' & _). destruct Hdata as ([_ Hmax] & _).
    simpl. rewrite Ht' in Hmax |- *. simpl in *.
    assert (Topic.getEnd ord t ≤ Topic.tail t); [|lia].
    unfold Topic.getEnd. destruct (size (Topic.lines t) =? 0)%nat; [lia|].
    apply getEnd_fold_le.
  - unfold Topic.empty, bind. rewrite empty_lines_spec.
    destruct (Topic.exportHead _ s) as [[e|] s1]; simpl; lia.
  - intros Hroom. unfold Topic.push, bind.
    assert (incr64 (Topic.tail t) = Topic.tail t + 1) as Hincr
      by (by apply incr64_small).
    destruct (setData _ d s) as [[e|] s1]; simpl; [done|].
    destruct (Topic.exportTail _ s1) as [[e|] s2]; simpl.
    + rewrite decr64_incr64 by done. lia.
    + lia.
  - intros Hroom. unfold Topic.mPush, bind.
    pose proof (mPush_loop_tail_ge (Topic.tail t) datas t s Hroom ltac:(lia))
      as Hge.
    pose proof (mPush_loop_frame (Topic.tail t) datas t s) as Hfr.
    destruct (Topic.mPush_loop (Topic.tail t) datas t s) as [[r t1] s1].
    destruct Hfr as (_ & Hhead & _). simpl in Hge.
    destruct r as [e|]; simpl; [lia|].
    destruct (Topic.exportTail t1 s1) as [[e|] s2]; simpl; lia.
Qed.

(** ** The keys of the store *)

Lemma count_byte_app c a b :
  count_byte c (a +:+ b) = (count_byte c a + count_byte c b)%nat.
Proof.
  induction a as [|x a IH]; [done|].
  change (String x a +:+ b) with (String x (a +:+ b)). simpl. rewrite IH. lia.
Qed.

Lemma all_digits_count c s :
  is_digit c = false → all_digits s = true → count_byte c s = 0%nat.
Proof.
  intros Hc. induction s as [|x s IH]; simpl; [done|].
  intros [Hx Hs]%andb_true_iff. rewrite IH by done.
  destruct (Ascii.eqb_spec x c) as [->|_]; [congruence|done].
Qed.

Lemma all_digits_pretty (i : N) : all_digits (pretty i) = true.
Proof.
  unfold pretty, pretty_N. case_decide; [done|].
  by destruct (pretty_N_go_decimal i).
Qed.

(** A key made of a name without [c], then [c], then a rest without [c],
    splits at [c] into the name and the rest. *)
Lemma Split_name_rest c T r :
  count_byte c T = 0%nat → count_byte c r = 0%nat →
  Split (T +:+ String c r) c = [T; r].
Proof.
  intros HT Hr. by rewrite Split_app_sep, !Split_nosep.
Qed.

Lemma name_rest_inj c T U r r' :
  count_byte c T = 0%nat → count_byte c U = 0%nat →
  count_byte c r = 0%nat → count_byte c r' = 0%nat →
  T +:+ String c r = U +:+ String c r' → T = U ∧ r = r'.
Proof.
  intros HT HU Hr Hr' Heq. apply (f_equal (λ k, Split k c)) in Heq.
  rewrite !Split_name_rest in Heq by done. by injection Heq.
Qed.

Lemma key_of_separators e :
  plain_names e →
  (count_byte "/" (key_of e), count_byte ":" (key_of e)) = separators e.
Proof.
  pose proof (λ c i H, all_digits_count c (pretty i) H (all_digits_pretty i))
    as Hnum.
  destruct e as [|T|T|T|T i|T L|T L]; simpl;
    unfold plain, Acatui, KeyTopicHead, KeyTopicTail, KeyLineRecycle.
  - done.
  - by intros [[-> ->] _].
  - intros [HT1 HT2]. by rewrite !count_byte_app, HT1, HT2.
  - intros [HT1 HT2]. by rewrite !count_byte_app, HT1, HT2.
  - intros [HT1 HT2].
    by rewrite !count_byte_app, HT1, HT2, (Hnum "/"%char i eq_refl),
         (Hnum ":"%char i eq_refl).
  - intros [[HT1 HT2] [HL1 HL2]].
    by rewrite !count_byte_app, HT1, HT2, HL1, HL2.
  - intros [[HT1 HT2] [HL1 HL2]].
    by rewrite !count_byte_app, HT1, HT2, HL1, HL2.
Qed.

(** X25. No two entries of the store share a key, as long as the names are
    plain: for topic and line names that contain neither ['/'] nor [':'], and
    topics not named as the broker's own key, the broker catalog, the catalog
    of a topic, its head anchor, its tail anchor, its messages, the snapshot of
    a line and the recycle duration of a line are stored under keys that
    determine the entry: equal keys mean the same kind of entry, the same
    topic, the same line and the same message id. *)
Theorem key_of_plain_names_inj (e1 e2 : stored) :
  plain_names e1 → plain_names e2 → key_of e1 = key_of e2 → e1 = e2.
Proof.
  intros H1 H2 Heq.
  assert (separators e1 = separators e2) as Hsep.
  { rewrite <-!key_of_separators by done. by rewrite Heq. }
  pose proof (λ c i H, all_digits_count c (pretty i) H (all_digits_pretty i))
    as Hnum.
  destruct e1 as [|T|T|T|T i|T L|T L], e2 as [|U|U|U|U j|U M|U M];
    try discriminate Hsep; clear Hsep; simpl in *;
    unfold plain, Acatui, KeyTopicHead, KeyTopicTail, KeyLineRecycle in *.
  - done.
  - by destruct H2 as [_ []].
  - by destruct H1 as [_ []].
  - by subst.
  - destruct H1, H2. by destruct (name_rest_inj ":" T U "head" "head") as [-> _].
  - destruct H1, H2.
    by destruct (name_rest_inj ":" T U "head" "tail") as [_ ?].
  - destruct H1, H2.
    destruct (name_rest_inj ":" T U "head" (pretty j)) as [_ Hd];
      [done|done|done|by apply Hnum|done|].
    pose proof (all_digits_pretty j) as Hj. by rewrite <-Hd in Hj.
  - destruct H1, H2.
    by destruct (name_rest_inj ":" T U "tail" "head") as [_ ?].
  - destruct H1, H2. by destruct (name_rest_inj ":" T U "tail" "tail") as [-> _].
  - destruct H1, H2.
    destruct (name_rest_inj ":" T U "tail" (pretty j)) as [_ Hd];
      [done|done|done|by apply Hnum|done|].
    pose proof (all_digits_pretty j) as Hj. by rewrite <-Hd in Hj.
  - destruct H1, H2.
    destruct (name_rest_inj ":" T U (pretty i) "head") as [_ Hd];
      [done|done|by apply Hnum|done|done|].
    pose proof (all_digits_pretty i) as Hi. by rewrite Hd in Hi.
  - destruct H1, H2.
    destruct (name_rest_inj ":" T U (pretty i) "tail") as [_ Hd];
      [done|done|by apply Hnum|done|done|].
    pose proof (all_digits_pretty i) as Hi. by rewrite Hd in Hi.
  - destruct H1, H2.
    destruct (name_rest_inj ":" T U (pretty i) (pretty j)) as [-> Hd];
      [done|done|by apply Hnum|by apply Hnum|done|].
    by apply pretty_N_inj in Hd as ->.
  - destruct H1 as [[] []], H2 as [[] []].
    by destruct (name_rest_inj "/" T U L M) as [-> ->].
  - destruct H1 as [[] [HL1 HL2]], H2 as [[] [HM1 HM2]].
    destruct (name_rest_inj "/" T U (L +:+ ":recycle") (M +:+ ":recycle"))
      as [-> Hd]; [done|done| | |done|].
    { rewrite count_byte_app, HL1. done. }
    { rewrite count_byte_app, HM1. done. }
    by destruct (name_rest_inj ":" L M "recycle" "recycle") as [-> _].
Qed.

(** ** Recovery of what the store lists *)

Lemma Storage_Get_steady d k s :
  steady d s →
  (Storage_Get k s).1
  = match d !! k with
    | Some v => inr v
    | None => inl (StorageError not_found)
    end ∧
  steady d (Storage_Get k s).2.
Proof.
  intros [Hd Hf]. unfold Storage_Get. rewrite no_faults_next by done.
  rewrite Hd. destruct (d !! k); (split; [done|by split; [|simpl; rewrite Hf]]).
Qed.

Lemma loadLine_steady d lineName v t s :
  steady d s → steady d (Topic.loadLine lineName v t s).2.
Proof.
  intros Hs. unfold Topic.loadLine, getData, bind.
  destruct (Storage_Get_steady d
              (Topic.name t +:+ "/" +:+ lineName +:+ KeyLineRecycle) s Hs)
    as [_ Hs1].
  destruct (Storage_Get _ s) as [[e|b] s1]; [exact Hs1|]. simpl.
  by destruct (ParseDuration _).
Qed.

Lemma loadLines_steady d names t : ∀ lines s,
  steady d s → steady d (UnitedQueue.loadLines names t lines s).2.
Proof.
  induction names as [|n names IH]; intros lines s Hs; simpl; [done|].
  unfold bind.
  destruct (Storage_Get_steady d (Topic.name t +:+ "/" +:+ n) s Hs) as [_ Hs1].
  destruct (Storage_Get _ s) as [[e|b] s1]; simpl in Hs1; [by apply IH|].
  destruct (length b =? 0)%nat; [by apply IH|].
  destruct (gobDecodeLine b) as [v|]; [|by apply IH].
  pose proof (loadLine_steady d n v t s1 Hs1) as Hs2.
  destruct (Topic.loadLine n v t s1) as [[e|l] s2]; by apply IH.
Qed.

(** [loadTopic] on a steady backend: it fails when an anchor is missing, and
    otherwise returns the topic of the two anchors. *)
Lemma loadTopic_steady d tname lnames s :
  steady d s → anchors_decodable d →
  steady d (UnitedQueue.loadTopic tname lnames s).2 ∧
  ∃ r, (UnitedQueue.loadTopic tname lnames s).1 = Returns r ∧
       ∀ h tl, d !! (tname +:+ KeyTopicHead) = Some (PutUint64 h) →
               d !! (tname +:+ KeyTopicTail) = Some (PutUint64 tl) →
               is_uint64 h → is_uint64 tl →
               ∃ ls, r = inr (Topic.mkTopic tname ls h (tname +:+ KeyTopicHead)
                                tl (tname +:+ KeyTopicTail)).
Proof.
  intros Hs Hanc. unfold UnitedQueue.loadTopic, bind.
  destruct (Storage_Get_steady d (tname +:+ KeyTopicHead) s Hs) as [Hr1 Hs1].
  destruct (Storage_Get (tname +:+ KeyTopicHead) s) as [r1 s1].
  simpl in Hr1, Hs1. subst r1.
  destruct (d !! (tname +:+ KeyTopicHead)) as [hb|] eqn:Hhb.
  2:{ split; [done|]. eexists. split; [done|]. intros h tl Hh. discriminate. }
  destruct (Uint64_long hb) as [hd Hhd]. { eapply Hanc. by left. }
  rewrite Hhd.
  destruct (Storage_Get_steady d (tname +:+ KeyTopicTail) s1 Hs1) as [Hr2 Hs2].
  destruct (Storage_Get (tname +:+ KeyTopicTail) s1) as [r2 s2].
  simpl in Hr2, Hs2. subst r2.
  destruct (d !! (tname +:+ KeyTopicTail)) as [tb|] eqn:Htb.
  2:{ split; [done|]. eexists. split; [done|]. intros h tl _ Ht. discriminate. }
  destruct (Uint64_long tb) as [tl0 Htl]. { eapply Hanc. by right. }
  rewrite Htl.
  pose proof (loadLines_steady d lnames
                (Topic.mkTopic tname ∅ hd (tname +:+ KeyTopicHead) tl0
                   (tname +:+ KeyTopicTail)) ∅ s2 Hs2) as Hs3.
  destruct (UnitedQueue.loadLines _ _ _ s2) as [ls s3]. simpl in *.
  split; [done|]. eexists. split; [done|].
  intros h tl [= ->] [= ->] Hh Ht.
  rewrite Uint64_PutUint64 in Hhd, Htl by done.
  injection Hhd as <-. injection Htl as <-. by exists ls.
Qed.

(** The loop of [loadQueue] on a steady backend: it runs to its end, and a
    topic whose catalog and anchors the store holds is in the map afterwards
    if it is listed, or was in the map before. *)
Lemma loadTopics_steady d T tcat lnames h tl names : ∀ u s,
  steady d s → anchors_decodable d →
  d !! T = Some tcat → tcat ≠ [] → gobDecodeTopic tcat = Some lnames →
  d !! (T +:+ KeyTopicHead) = Some (PutUint64 h) → is_uint64 h →
  d !! (T +:+ KeyTopicTail) = Some (PutUint64 tl) → is_uint64 tl →
  let recovered (u0 : UnitedQueue.queue) :=
    ∃ ls, UnitedQueue.topics u0 !! T
          = Some (Topic.mkTopic T ls h (T +:+ KeyTopicHead) tl
                    (T +:+ KeyTopicTail)) in
  let '(r, u', _) := UnitedQueue.loadTopics names u s in
  r = Returns () ∧ (T ∈ names ∨ recovered u → recovered u').
Proof.
  intros u s Hs Hanc HT Hne Hdec Hh Hhu Ht Htu recovered. revert u s Hs.
  induction names as [|n names IH]; intros u s Hs; simpl.
  { split; [done|]. intros [Hin|Hrec]; [by apply elem_of_nil in Hin|done]. }
  unfold bind.
  destruct (Storage_Get_steady d n s Hs) as [Hr1 Hs1].
  destruct (Storage_Get n s) as [r1 s1]. simpl in Hr1, Hs1. subst r1.
  assert (∀ u1 s2, steady d s2 →
            (T ∈ n :: names ∨ recovered u → T ∈ names ∨ recovered u1) →
            let '(r, u', _) := UnitedQueue.loadTopics names u1 s2 in
            r = Returns () ∧ (T ∈ n :: names ∨ recovered u → recovered u'))
    as Hgo.
  { intros u1 s2 Hs2 Hstep. pose proof (IH u1 s2 Hs2) as Hrest.
    destruct (UnitedQueue.loadTopics names u1 s2) as [[r u'] s'].
    destruct Hrest as [-> Hrest]. split; [done|]. intros Hcase.
    by apply Hrest, Hstep. }
  assert (n ≠ T → T ∈ n :: names ∨ recovered u → T ∈ names ∨ recovered u)
    as Hother.
  { intros Hn [[?|?]%elem_of_cons|?]; [done|by left|by right]. }
  destruct (decide (n = T)) as [->|Hn].
  - rewrite HT. destruct tcat as [|b tcat]; [done|]. simpl. rewrite Hdec.
    destruct (loadTopic_steady d T lnames s1 Hs1 Hanc) as (Hs2 & r & Hr & Hfound).
    destruct (UnitedQueue.loadTopic T lnames s1) as [o s2].
    simpl in Hr, Hs2. subst o.
    destruct (Hfound h tl Hh Ht Hhu Htu) as [ls ->].
    apply Hgo; [done|]. intros _. right. exists ls. simpl.
    apply lookup_insert_eq.
  - destruct (d !! n) as [b|]; [|by apply Hgo; auto].
    destruct (length b =? 0)%nat; [by apply Hgo; auto|].
    destruct (gobDecodeTopic b) as [v|]; [|by apply Hgo; auto].
    destruct (loadTopic_steady d n v s1 Hs1 Hanc) as (Hs2 & r & Hr & _).
    destruct (UnitedQueue.loadTopic n v s1) as [o s2].
    simpl in Hr, Hs2. subst o.
    destruct r as [e|t]; [by apply Hgo; auto|].
    apply Hgo; [done|]. intros Hcase.
    destruct (Hother Hn Hcase) as [?|[ls Hls]]; [by left|].
    right. exists ls. simpl. by rewrite lookup_insert_ne.
Qed.

(** X26. Recovery brings back every topic that the store lists and holds: on a
    backend without failures whose anchors are decodable, if the broker
    catalog lists a topic, and the store holds a non-empty catalog of that
    topic that decodes and its two anchors, then [loadQueue] returns nil and
    the broker has the topic afterwards, with its name, the head and tail of
    the anchors and its two anchor keys. *)
Theorem loadQueue_recovers_listed_topic (T : string) (names lnames : list string)
    (cat tcat : bytes) (h tl : N) (u : UnitedQueue.queue) (s : Storage) :
  faults s = [] → anchors_decodable (data s) →
  data s !! StorageKeyWord = Some cat → cat ≠ [] →
  gobDecodeQueue cat = Some names → T ∈ names →
  data s !! T = Some tcat → tcat ≠ [] → gobDecodeTopic tcat = Some lnames →
  data s !! (T +:+ KeyTopicHead) = Some (PutUint64 h) → is_uint64 h →
  data s !! (T +:+ KeyTopicTail) = Some (PutUint64 tl) → is_uint64 tl →
  let '(r, u', _) := UnitedQueue.loadQueue u s in
  r = Returns None ∧
  ∃ ls, UnitedQueue.topics u' !! T
        = Some (Topic.mkTopic T ls h (T +:+ KeyTopicHead) tl
                  (T +:+ KeyTopicTail)).
Proof.
  intros Hf Hanc Hcat Hne Hdec Hin HT HTne HTdec Hh Hhu Ht Htu.
  assert (steady (data s) s) as Hs by done.
  unfold UnitedQueue.loadQueue, bind.
  destruct (Storage_Get_steady (data s) StorageKeyWord s Hs) as [Hr1 Hs1].
  destruct (Storage_Get StorageKeyWord s) as [r1 s1].
  simpl in Hr1, Hs1. subst r1. rewrite Hcat.
  destruct cat as [|b cat]; [done|]. simpl. rewrite Hdec.
  pose proof (loadTopics_steady (data s) T tcat lnames h tl names u s1 Hs1 Hanc
                HT HTne HTdec Hh Hhu Ht Htu) as Hl.
  destruct (UnitedQueue.loadTopics names u s1) as [[r u'] s'].
  destruct Hl as [-> Hrec]. simpl. split; [done|]. apply Hrec. by left.
Qed.

(** ** What an operation leaves alone *)

(** X27. The operations on a topic write within the topic's own keys: [push]
    changes nothing in the store but the key of the message at the tail and
    the tail anchor, [mPush] nothing but message keys of the topic and the tail
    anchor, and a clean pass nothing but the head anchor and the keys of the
    messages from the head up to the bound of [getEnd]; in particular a clean
    pass never deletes a message at or above the bound. This holds whatever
    the outcome of the operation. *)
Theorem topic_operations_touch_only_their_keys (d : bytes) (datas : list bytes)
    (env : list tick) (ord : list string) (t : Topic.topic) (s : Storage)
    (key : string) :
  wf_topic t →
  (key ≠ Topic.tailKey t → key ≠ Acatui (Topic.name t) ":" (Topic.tail t) →
   data (Topic.push d t s).2 !! key = data s !! key) ∧
  (key ≠ Topic.tailKey t → (∀ i, key ≠ Acatui (Topic.name t) ":" i) →
   data (Topic.mPush datas t s).2 !! key = data s !! key) ∧
  (key ≠ Topic.headKey t →
   (∀ i, Topic.head t ≤ i < Topic.getEnd ord t →
         key ≠ Acatui (Topic.name t) ":" i) →
   data (Topic.clean env ord t s).2 !! key = data s !! key).
Proof.
  intros Hwf. pose proof Hwf as (Hhk & Htk & Hh & Ht). split_and!.
  - intros Hkt Hkm. unfold Topic.push, bind.
    destruct (next_fault s) eqn:Hf0.
    { by rewrite setData_fail. }
    rewrite setData_ok by done. set (s1 := record _ _ _ s).
    destruct (next_fault s1) eqn:Hf1.
    + rewrite exportTail_fail by done. simpl. by rewrite lookup_insert_ne.
    + rewrite exportTail_ok by done. simpl. by rewrite !lookup_insert_ne.
  - intros Hkt Hkm. unfold Topic.mPush, bind.
    pose proof (mPush_loop_frame (Topic.tail t) datas t s) as Hfr.
    destruct (Topic.mPush_loop (Topic.tail t) datas t s) as [[r t1] s1].
    destruct Hfr as (_ & _ & _ & Htk1 & _ & Hframe).
    destruct r as [e|]; simpl; [by apply Hframe|].
    destruct (next_fault s1) eqn:Hf1.
    + rewrite exportTail_fail by done. simpl. by apply Hframe.
    + rewrite exportTail_ok by done. simpl.
      rewrite lookup_insert_ne by (by rewrite Htk1). by apply Hframe.
  - intros Hkh Hkm. pose proof (getEnd_uint64 ord t Hwf) as Hend.
    unfold Topic.clean.
    pose proof (clean_loop_data (N.to_nat (Topic.getEnd ord t - Topic.head t))
                  (Topic.getEnd ord t) env t s Hhk Hend) as Hdata.
    destruct (Topic.clean_loop _ _ env t s) as [[q t'] s'].
    destruct Hdata as ([_ Hmax] & _ & Hframe). simpl.
    apply Hframe; [done|]. intros i Hi. apply Hkm. lia.
Qed.

(** ** Recovery passes over what it cannot load *)

Lemma loadTopics_leaves_missing T names : ∀ u s,
  anchors_decodable (data s) →
  data s !! T = None ∨ data s !! (T +:+ KeyTopicHead) = None ∨
  data s !! (T +:+ KeyTopicTail) = None →
  UnitedQueue.topics (UnitedQueue.loadTopics names u s).1.2 !! T
  = UnitedQueue.topics u !! T.
Proof.
  induction names as [|n names IH]; intros u s Hanc Hmiss; [done|].
  destruct (decide (n = T)) as [->|Hn].
  { destruct (loadTopics_skips T names u s Hanc Hmiss) as (s1 & Hd & ->).
    apply IH; by rewrite Hd. }
  simpl. unfold bind. pose proof (Storage_Get_data n s) as Hd.
  destruct (Storage_Get n s) as [[e|b] s1]; simpl in Hd.
  { apply IH; by rewrite Hd. }
  destruct (length b =? 0)%nat; [apply IH; by rewrite Hd|].
  destruct (gobDecodeTopic b) as [v|]; [|apply IH; by rewrite Hd].
  destruct (loadTopic_returns n v s1) as (r & Hr & Hd2). { by rewrite Hd. }
  destruct (UnitedQueue.loadTopic n v s1) as [o s2]. simpl in Hr, Hd2. subst o.
  destruct r as [e|t].
  - apply IH; by rewrite Hd2, Hd.
  - rewrite IH by (by rewrite Hd2, Hd). simpl. by rewrite lookup_insert_ne.
Qed.

(** X24. Recovery over a store whose anchors are decodable always returns, and
    returns nil; without a broker catalog the broker is left as it is. A listed
    topic whose catalog, head anchor or tail anchor is not in the store is
    passed over: the loop goes on with the topics listed after it, over the
    same data and with the broker's map as it was, and when recovery returns
    the broker has under that name what it had before. *)
Theorem loadQueue_passes_over_unloadable_topics (T : string)
    (names : list string) (u : UnitedQueue.queue) (s : Storage) :
  anchors_decodable (data s) →
  (∃ u' s', UnitedQueue.loadQueue u s = (Returns None, u', s')) ∧
  (data s !! StorageKeyWord = None →
   (UnitedQueue.loadQueue u s).1 = (Returns None, u)) ∧
  (data s !! T = None ∨ data s !! (T +:+ KeyTopicHead) = None ∨
   data s !! (T +:+ KeyTopicTail) = None →
   (∃ s1, data s1 = data s ∧
          UnitedQueue.loadTopics (T :: names) u s
          = UnitedQueue.loadTopics names u s1) ∧
   UnitedQueue.topics (UnitedQueue.loadQueue u s).1.2 !! T
   = UnitedQueue.topics u !! T).
Proof.
  intros Hanc. destruct (loadQueue_returns_nil u s Hanc) as [Hnil Hnone].
  split; [exact Hnil|]. split; [exact Hnone|].
  intros Hmiss. split; [by apply loadTopics_skips|].
  unfold UnitedQueue.loadQueue, bind.
  pose proof (Storage_Get_data StorageKeyWord s) as Hd.
  destruct (Storage_Get StorageKeyWord s) as [[e|b] s1]; simpl in Hd; [done|].
  destruct (0 <? length b)%nat; [|done].
  destruct (gobDecodeQueue b) as [listed|]; [|done].
  pose proof (loadTopics_leaves_missing T listed u s1) as Hl.
  destruct (UnitedQueue.loadTopics listed u s1) as [[r u'] s'].
  simpl in Hl. rewrite <-Hl by (by rewrite Hd). by destruct r.
Qed.

End Properties.

(** * The properties at concrete inputs *)

#[local] Existing Instance Demo.lib.

(** ** The push path *)

Lemma push_persists_then_advances_witness :
  is_uint64 (Topic.tail Demo.T0) ∧
  (Topic.push [Byte.x61] Demo.T0 Demo.blank).1.1 = None ∧
  Topic.tail (Topic.push [Byte.x61] Demo.T0 Demo.blank).1.2 = 1.
Proof.
  assert (is_uint64 (Topic.tail Demo.T0)) as Hu by reflexivity.
  split; [exact Hu|].
  pose proof (push_persists_then_advances Demo.T0 [Byte.x61] Demo.blank Hu)
    as Hp.
  destruct (Topic.push [Byte.x61] Demo.T0 Demo.blank) as [[r t'] s'].
  change (fault_at 0 Demo.blank) with false in Hp.
  change (fault_at 1 Demo.blank) with false in Hp.
  destruct Hp as (-> & -> & _). split; reflexivity.
Defined.

(** C1, at the failing input. A batch of one payload followed by an empty one,
    on a fresh topic and a backend that never fails: [mPush] fails with
    [BadRequest], and when it returns the topic's tail is 1, not the 0 it was
    before the batch; the first payload is in the store and the tail anchor
    has not been written. *)
Theorem mPush_bad_request_keeps_partial_tail :
  let '(r, t', s') := Topic.mPush [[Byte.x61]; []] Demo.T0 Demo.blank in
  r = Some (NewError ErrBadRequest "message has no content") ∧
  Topic.tail Demo.T0 = 0 ∧ Topic.tail t' = 1 ∧
  data s' !! "T:0" = Some [Byte.x61] ∧
  journal s' = [(OpSet "T:0" [Byte.x61], true)].
Proof. vm_compute. done. Qed.

Lemma mPush_empty_payload_rejected_witness :
  Forall (λ d : bytes, d ≠ []) [[Byte.x61]] ∧
  (Topic.mPush [[Byte.x61]; []] Demo.T0 Demo.blank).1.1
  = Some (NewError ErrBadRequest "message has no content").
Proof.
  assert (Forall (λ d : bytes, d ≠ []) [[Byte.x61]]) as Hpre.
  { constructor; [discriminate|constructor]. }
  split; [exact Hpre|].
  pose proof (mPush_empty_payload_rejected [[Byte.x61]] [] Demo.T0
                Demo.blank Hpre) as Hm.
  simpl app in Hm.
  destruct (Topic.mPush [[Byte.x61]; []] Demo.T0 Demo.blank)
    as [[r t'] s'].
  destruct Hm as (_ & Hbad & _). apply Hbad.
  intros i _. by destruct i.
Defined.

(** C5 as stated fails: the batch has an empty payload, but the write of the
    payload before it fails, and [mPush] returns the backend's error, not
    [BadRequest]. *)
Lemma mPush_backend_error_before_empty_payload :
  let datas : list bytes := [[Byte.x61]; []] in
  let '(r, _, _) := Topic.mPush datas Demo.T0 (Demo.failing [true]) in
  [] ∈ datas ∧ r = Some (NewError ErrInternalError io_failure) ∧
  ¬ has_code ErrBadRequest r.
Proof.
  vm_compute. split_and!; [right; left|done|]. intros [m Hm]. discriminate.
Qed.

(** ** The reclamation bound and the clean pass *)

Lemma T1_range : range_of (Topic.lines Demo.T1) ["L1"; "L2"].
Proof. unfold range_of. vm_compute. reflexivity. Defined.

Lemma T1_wf : wf_topic Demo.T1.
Proof. repeat split. Defined.

Lemma getEnd_reclamation_bound_witness :
  range_of (Topic.lines Demo.T1) ["L1"; "L2"] ∧
  Topic.getEnd ["L1"; "L2"] Demo.T1 ≤ frontier Demo.L2.
Proof.
  split; [exact T1_range|].
  destruct (getEnd_reclamation_bound ["L1"; "L2"] Demo.T1 T1_range)
    as (_ & Hsome & _).
  destruct Hsome as (_ & _ & Hlow & _).
  { intros Hnil. by apply (f_equal (λ m, m !! "L1")) in Hnil. }
  by apply (Hlow "L2").
Defined.

Lemma clean_pass_deletes_then_advances_witness :
  wf_topic Demo.T1 ∧
  data (Topic.clean [] ["L1"; "L2"] Demo.T1 Demo.store1).2 !! "T:1" = None.
Proof.
  split; [exact T1_wf|].
  pose proof (clean_pass_deletes_then_advances [] ["L1"; "L2"] Demo.T1
                Demo.store1 T1_wf) as Hc.
  destruct (Topic.clean [] ["L1"; "L2"] Demo.T1 Demo.store1)
    as [[q t'] s'] eqn:Hrun.
  assert (Topic.head t' = 2) as Hhead.
  { apply (f_equal (λ r, Topic.head r.1.2)) in Hrun. vm_compute in Hrun.
    by symmetry. }
  destruct Hc as (_ & _ & Hgone). simpl. rewrite Hhead in Hgone.
  apply (Hgone 1). by vm_compute.
Defined.

(** The clean pass of the spec's scenario of two lines: the bound is the
    [ihead] of the line that still has deliveries to confirm, and the pass
    deletes the two messages below it, each before the anchor moves. *)
Example clean_pass_scenario :
  let '(q, t', s') := Topic.clean [] ["L1"; "L2"] Demo.T1 Demo.store1 in
  Topic.getEnd ["L1"; "L2"] Demo.T1 = 2 ∧ q = false ∧ Topic.head t' = 2 ∧
  journal s' = [(OpDel "T:0", true); (OpSet "T:head" (PutUint64 1), true);
                (OpDel "T:1", true); (OpSet "T:head" (PutUint64 2), true)] ∧
  data s' !! "T:0" = None ∧ data s' !! "T:1" = None ∧
  data s' !! "T:2" = Some [Byte.x63].
Proof. vm_compute. done. Qed.

(** A pass that is told to quit at its second iteration stops there. *)
Example clean_pass_shutdown :
  let '(q, t', s') :=
    Topic.clean [mkTick false false; mkTick true false] ["L1"; "L2"] Demo.T1
      Demo.store1 in
  q = true ∧ Topic.head t' = 1 ∧ data s' !! "T:1" = Some [Byte.x62].
Proof. vm_compute. done. Qed.

(** ** Emptying a topic *)

Lemma empty_sets_head_to_tail_witness :
  range_of (Topic.lines Demo.T1) ["L1"; "L2"] ∧
  (Topic.empty ["L1"; "L2"] Demo.T1 Demo.store1).1.1 = None ∧
  Topic.head (Topic.empty ["L1"; "L2"] Demo.T1 Demo.store1).1.2 = 5 ∧
  data (Topic.empty ["L1"; "L2"] Demo.T1 Demo.store1).2 !! "T:head"
  = Some (PutUint64 5).
Proof.
  split; [exact T1_range|].
  pose proof (empty_sets_head_to_tail ["L1"; "L2"] Demo.T1 Demo.store1
                T1_range) as He.
  destruct (Topic.empty ["L1"; "L2"] Demo.T1 Demo.store1)
    as [[r t'] s'] eqn:Hrun.
  assert (r = None) as Hr.
  { apply (f_equal (λ x, x.1.1)) in Hrun. vm_compute in Hrun. by symmetry. }
  split; [exact Hr|].
  destruct (He Hr) as (_ & Hh & Ht & _ & Hd). simpl. split.
  - rewrite Hh, Ht. reflexivity.
  - rewrite Hd. reflexivity.
Defined.

(** C6 as stated fails: a successful [empty] performs one operation on the
    store, the write of the head anchor; it does not write the tail anchor. *)
Lemma empty_does_not_write_tail_anchor :
  let '(r, t', s') := Topic.empty ["L1"; "L2"] Demo.T1 Demo.store1 in
  r = None ∧ Topic.tailKey t' = "T:tail" ∧
  journal s' = [(OpSet "T:head" (PutUint64 5), true)] ∧
  ¬ ∃ v ok, (OpSet (Topic.tailKey t') v, ok) ∈ journal s'.
Proof.
  vm_compute. split_and!; [done|done|done|].
  intros (v & ok & Hin). apply list_elem_of_singleton in Hin. discriminate.
Qed.

(** Nor does [empty] repair a tail anchor that is behind: after a batch that
    stopped at an empty payload, a successful [empty] leaves the store with a
    head anchor of 2 and a tail anchor of 1. *)
Example empty_leaves_tail_anchor_behind :
  let '(_, t0, s0) := Topic.push [Byte.x60] Demo.T0 Demo.blank in
  let '(_, t1, s1) := Topic.mPush [[Byte.x61]; []] t0 s0 in
  let '(r, t2, s2) := Topic.empty [] t1 s1 in
  r = None ∧ Topic.head t2 = 2 ∧ Topic.tail t2 = 2 ∧
  data s2 !! "T:head" = Some (PutUint64 2) ∧
  data s2 !! "T:tail" = Some (PutUint64 1).
Proof. vm_compute. done. Qed.

(** ** Creating topics and lines *)

Lemma Create_names_are_nonempty_witness :
  (UnitedQueue.Create (mkRequest EmptyString EmptyString 0) []
     (UnitedQueue.mkQueue ∅) Demo.blank).1.1
  = Returns (Some (NewError ErrBadKey "create topic name is nil")).
Proof.
  pose proof (Create_names_are_nonempty (mkRequest EmptyString EmptyString 0) []
                (UnitedQueue.mkQueue ∅) Demo.blank) as Hc.
  destruct (UnitedQueue.Create (mkRequest EmptyString EmptyString 0) []
              (UnitedQueue.mkQueue ∅) Demo.blank) as [[r u'] s'].
  destruct Hc as (Hnil & _). by destruct (Hnil eq_refl) as (-> & _).
Defined.

(** C7 as stated fails: [Create] accepts a topic name with a ['/'] and one with
    a [':'], and both names are then in the broker's map of topics. *)
Lemma Create_accepts_separators :
  let '(r1, u1, s1) :=
    UnitedQueue.Create (mkRequest "a/b" EmptyString 0) ["a/b"]
      (UnitedQueue.mkQueue ∅) Demo.blank in
  let '(r2, u2, _) :=
    UnitedQueue.Create (mkRequest "a:b" EmptyString 0) ["a/b"; "a:b"] u1 s1 in
  r1 = Returns None ∧ r2 = Returns None ∧
  is_Some (UnitedQueue.topics u2 !! "a/b") ∧
  is_Some (UnitedQueue.topics u2 !! "a:b") ∧
  count_byte "/" "a/b" = 1%nat ∧ count_byte ":" "a:b" = 1%nat.
Proof. vm_compute. split_and!; try done; by eexists. Qed.

Lemma createLine_starts_at_topic_head_witness :
  (Topic.createLine "L3" 0 false ["L1"; "L2"; "L3"] Demo.T2
     Demo.store2).1.1 = Returns None ∧
  Topic.head Demo.T2 = 2 ∧ Topic.head Demo.T2 ≠ Topic.tail Demo.T2 ∧
  let '(_, t', s') :=
    Topic.createLine "L3" 0 false ["L1"; "L2"; "L3"] Demo.T2 Demo.store2 in
  ∃ l, Topic.lines t' !! "L3" = Some l ∧
       Line.head l = 2 ∧ Line.ihead l = 2 ∧
       Line.inflight l = [] ∧ Line.imap l = ∅ ∧
       (Topic.pop "L3" 0 t' s').1.1 = inr (2, [Byte.x63]).
Proof.
  pose proof (createLine_starts_at_topic_head "L3" 0 false ["L1"; "L2"; "L3"]
                Demo.T2 Demo.store2) as Hc.
  destruct (Topic.createLine "L3" 0 false ["L1"; "L2"; "L3"] Demo.T2
              Demo.store2) as [[r t'] s'] eqn:Hrun.
  assert (r = Returns None) as Hr.
  { apply (f_equal (λ x, x.1.1)) in Hrun. vm_compute in Hrun. by symmetry. }
  assert (Topic.head Demo.T2 ≠ Topic.tail Demo.T2) as Hne by discriminate.
  assert (fault_at 0 s' = false) as Hf.
  { change s' with (r, t', s').2. rewrite <-Hrun. reflexivity. }
  assert (data s' !! "T:2" = Some [Byte.x63]) as Hv.
  { change s' with (r, t', s').2. rewrite <-Hrun. reflexivity. }
  split; [exact Hr|]. split; [reflexivity|]. split; [exact Hne|].
  destruct (Hc Hr) as (l & _ & Hl & _ & _ & Hh & Hi & Hin & Him & _ & _ & _ & Hpop).
  exists l. split; [exact Hl|]. split; [exact Hh|]. split; [exact Hi|].
  split; [exact Hin|]. split; [exact Him|].
  exact (Hpop 0%Z [Byte.x63] s' Hne Hf Hv).
Defined.

(** ** Request keys *)

Lemma malformed_keys_are_bad_keys_witness :
  length (Split "T" "/") ≠ 2%nat ∧
  ∃ m, (UnitedQueue.Pop "T" 0 (UnitedQueue.mkQueue ∅) Demo.blank).1.1
       = inl (NewError ErrBadKey m).
Proof.
  assert (length (Split "T" "/") ≠ 2%nat) as Hlen by (vm_compute; lia).
  split; [exact Hlen|].
  destruct (malformed_keys_are_bad_keys "T" 0 (λ _, 0%Z) 1
              (UnitedQueue.mkQueue ∅) Demo.blank) as (Hpop & _).
  by destruct (Hpop Hlen) as (? & _).
Defined.

(** The keys of the spec's scenario: a confirm without an id, a confirm with
    an id that is no number, a pop without a line. *)
Example bad_key_scenario :
  has_code ErrBadKey (UnitedQueue.Confirm "T/L" (UnitedQueue.mkQueue ∅)).1 ∧
  has_code ErrBadKey (UnitedQueue.Confirm "T/L/abc" (UnitedQueue.mkQueue ∅)).1 ∧
  ∃ m, (UnitedQueue.Pop "T" 0 (UnitedQueue.mkQueue ∅) Demo.blank).1.1
       = inl (NewError ErrBadKey m).
Proof. vm_compute. split_and!; by eexists. Qed.

(** ** Startup recovery *)

(** C9, at the failing input. The catalog lists two topics; the head anchor of
    the first holds three bytes. Recovery does not skip that topic and load the
    second: decoding the anchor panics, and [loadQueue] never returns. *)
Theorem loadQueue_panics_on_short_anchor :
  let '(r, u', _) :=
    UnitedQueue.loadQueue (UnitedQueue.mkQueue ∅) Demo.store_short_anchor in
  gobDecodeQueue (default [] (data Demo.store_short_anchor !! StorageKeyWord))
  = Some ["T"; "U"] ∧
  r = Panics ∧ UnitedQueue.topics u' = ∅.
Proof. vm_compute. done. Qed.

(** With an anchor of eight bytes in its place the same store is recovered:
    both topics are loaded. *)
Example loadQueue_recovers_decodable_store :
  let s := mkStorage (<["T:head" := PutUint64 0]> (data Demo.store_short_anchor))
             [] [] in
  let '(r, u', _) := UnitedQueue.loadQueue (UnitedQueue.mkQueue ∅) s in
  r = Returns None ∧
  is_Some (UnitedQueue.topics u' !! "T") ∧ is_Some (UnitedQueue.topics u' !! "U").
Proof. vm_compute. split_and!; [done|by eexists..]. Qed.

(** ** The line operations of the spec

    The spec's scenario of confirms out of order, on a line that has delivered
    three messages: confirming 1 leaves [ihead] at 0, confirming 0 sweeps it
    to 2, confirming 2 brings it to the line's head. *)
Example out_of_order_confirm :
  let l0 := Line.mkLine "L" 3 10 "T/L:recycle"
              [mkInflight 0 10; mkInflight 1 10; mkInflight 2 10] 0
              (<[2 := true]> (<[1 := true]> {[0 := true]})) in
  let l1 := (Line.confirm 1 l0).2 in
  let l2 := (Line.confirm 0 l1).2 in
  let l3 := (Line.confirm 2 l2).2 in
  Line.ihead l1 = 0 ∧ Line.ihead l2 = 2 ∧ Line.ihead l3 = 3 ∧
  Line.inflight l3 = [] ∧ (Line.confirm 2 l3).1 ≠ None.
Proof. vm_compute. done. Qed.

(** ** The anchors in the store *)

Lemma store1_anchored : anchored Demo.T1 Demo.store1.
Proof. split; reflexivity. Defined.

Lemma push_keeps_anchors_witness :
  wf_topic Demo.T1 ∧ anchored Demo.T1 Demo.store1 ∧
  anchored (Topic.push [Byte.x61] Demo.T1 Demo.store1).1.2
    (Topic.push [Byte.x61] Demo.T1 Demo.store1).2.
Proof.
  split; [exact T1_wf|]. split; [exact store1_anchored|].
  pose proof (push_keeps_anchors [Byte.x61] Demo.T1 Demo.store1 T1_wf
                store1_anchored) as Hp.
  by destruct (Topic.push [Byte.x61] Demo.T1 Demo.store1) as [[r t'] s'].
Defined.

Lemma mPush_keeps_anchors_witness :
  wf_topic Demo.T1 ∧ anchored Demo.T1 Demo.store1 ∧
  anchored (Topic.mPush [[Byte.x61]; [Byte.x62]] Demo.T1 Demo.store1).1.2
    (Topic.mPush [[Byte.x61]; [Byte.x62]] Demo.T1 Demo.store1).2.
Proof.
  split; [exact T1_wf|]. split; [exact store1_anchored|].
  pose proof (mPush_keeps_anchors [[Byte.x61]; [Byte.x62]] Demo.T1
                Demo.store1 T1_wf store1_anchored) as Hp.
  destruct (Topic.mPush [[Byte.x61]; [Byte.x62]] Demo.T1 Demo.store1)
    as [[r t'] s'] eqn:Hrun.
  assert (r = None) as Hr.
  { apply (f_equal (λ x, x.1.1)) in Hrun. vm_compute in Hrun. by symmetry. }
  apply Hp. by left.
Defined.

Lemma mPush_stores_payloads_in_order_witness :
  wf_topic Demo.T1 ∧
  Topic.tail Demo.T1 + N.of_nat (length [[Byte.x61]; [Byte.x62]]) < two64 ∧
  data (Topic.mPush [[Byte.x61]; [Byte.x62]] Demo.T1 Demo.store1).2
    !! "T:6" = Some [Byte.x62].
Proof.
  assert (Topic.tail Demo.T1 + N.of_nat (length [[Byte.x61]; [Byte.x62]])
          < two64) as Hfit by reflexivity.
  split; [exact T1_wf|]. split; [exact Hfit|].
  pose proof (mPush_stores_payloads_in_order [[Byte.x61]; [Byte.x62]] Demo.T1
                Demo.store1 T1_wf Hfit) as Hp.
  destruct (Topic.mPush [[Byte.x61]; [Byte.x62]] Demo.T1 Demo.store1)
    as [[r t'] s'] eqn:Hrun.
  assert (r = None) as Hr.
  { apply (f_equal (λ x, x.1.1)) in Hrun. vm_compute in Hrun. by symmetry. }
  destruct (Hp Hr) as (_ & Hpay).
  exact (Hpay 1%nat [Byte.x62] eq_refl).
Defined.

Lemma mPush_success_publishes_tail_last_witness :
  (Topic.mPush [[Byte.x61]] Demo.T0 Demo.blank).1.1 = None ∧
  journal (Topic.mPush [[Byte.x61]] Demo.T0 Demo.blank).2
  = [(OpSet "T:0" [Byte.x61], true); (OpSet "T:tail" (PutUint64 1), true)].
Proof.
  pose proof (mPush_success_publishes_tail_last [[Byte.x61]] Demo.T0
                Demo.blank) as Hp.
  destruct (Topic.mPush [[Byte.x61]] Demo.T0 Demo.blank)
    as [[r t'] s'] eqn:Hrun.
  assert (r = None) as Hr.
  { apply (f_equal (λ x, x.1.1)) in Hrun. vm_compute in Hrun. by symmetry. }
  split; [exact Hr|].
  destruct (Hp Hr) as (Hj & Ht). simpl. rewrite Hj, Ht. reflexivity.
Defined.

Lemma loadTopic_reads_anchors_witness :
  wf_topic Demo.T1 ∧ anchored Demo.T1 Demo.store1 ∧
  fault_at 0 Demo.store1 = false ∧ fault_at 1 Demo.store1 = false ∧
  ∃ ls, (UnitedQueue.loadTopic "T" [] Demo.store1).1
        = Returns (inr (Topic.mkTopic "T" ls 0 "T:head" 5 "T:tail")).
Proof.
  split; [exact T1_wf|]. split; [exact store1_anchored|].
  split; [reflexivity|]. split; [reflexivity|].
  exact (loadTopic_reads_anchors [] Demo.T1 Demo.store1 T1_wf
           store1_anchored eq_refl eq_refl).
Defined.

(** ** The clean pass *)

Lemma clean_without_reader_or_backlog_is_noop_witness :
  let t1 := (Topic.empty ["L1"; "L2"] Demo.T1 Demo.store1).1.2 in
  Topic.lines Demo.T3 = ∅ ∧ Topic.head Demo.T3 < Topic.tail Demo.T3 ∧
  data Demo.store1 !! "T:0" = Some [Byte.x61] ∧
  Topic.clean [] [] Demo.T3 Demo.store1
  = (false, Demo.T3, Demo.store1) ∧
  Topic.lines t1 ≠ ∅ ∧ Topic.tail t1 ≤ Topic.head t1 ∧
  Topic.clean [] ["L1"; "L2"] t1 Demo.store1 = (false, t1, Demo.store1).
Proof.
  intros t1.
  assert (Topic.tail t1 ≤ Topic.head t1) as Hle by (by vm_compute).
  split; [reflexivity|]. split; [reflexivity|]. split; [reflexivity|].
  split.
  { apply clean_without_reader_or_backlog_is_noop. left. reflexivity. }
  split.
  { intros Hnil. by apply (f_equal (λ m, m !! "L1")) in Hnil. }
  split; [exact Hle|].
  apply clean_without_reader_or_backlog_is_noop. right. exact Hle.
Defined.

Lemma clean_keeps_anchors_but_for_a_failed_write_witness :
  wf_topic Demo.T1 ∧ anchored Demo.T1 Demo.store1 ∧
  data (Topic.clean [] ["L1"; "L2"] Demo.T1 Demo.store1).2 !! "T:tail"
  = Some (PutUint64 5).
Proof.
  split; [exact T1_wf|]. split; [exact store1_anchored|].
  pose proof (clean_keeps_anchors_but_for_a_failed_write [] ["L1"; "L2"]
                Demo.T1 Demo.store1 T1_wf store1_anchored) as Hc.
  destruct (Topic.clean [] ["L1"; "L2"] Demo.T1 Demo.store1)
    as [[q t'] s'].
  destruct Hc as (_ & Ht & _). exact Ht.
Defined.

Lemma clean_uninterrupted_reaches_bound_witness :
  let t1 := (Topic.empty ["L1"; "L2"] Demo.T1 Demo.store1).1.2 in
  let s1 := (Topic.empty ["L1"; "L2"] Demo.T1 Demo.store1).2 in
  wf_topic Demo.T1 ∧
  (∀ n, quitting (tick_at n []) = false ∧ overdue (tick_at n []) = false) ∧
  (∀ n, fault_at n Demo.store1 = false) ∧
  Topic.getEnd ["L1"; "L2"] Demo.T1 = 2 ∧
  Topic.head (Topic.clean [] ["L1"; "L2"] Demo.T1 Demo.store1).1.2 = 2 ∧
  wf_topic t1 ∧ (∀ n, fault_at n s1 = false) ∧
  Topic.head t1 = 5 ∧ Topic.getEnd ["L1"; "L2"] t1 = 4 ∧
  Topic.head (Topic.clean [] ["L1"; "L2"] t1 s1).1.2 = 5.
Proof.
  intros t1 s1.
  assert (∀ n, quitting (tick_at n []) = false ∧ overdue (tick_at n []) = false)
    as Hticks by (intros n; split; reflexivity).
  assert (∀ n, fault_at n Demo.store1 = false) as Hfaults
    by (intros n; reflexivity).
  assert (wf_topic t1) as Hwf1 by (repeat split).
  assert (∀ n, fault_at n s1 = false) as Hfaults1 by (intros n; reflexivity).
  split; [exact T1_wf|]. split; [exact Hticks|]. split; [exact Hfaults|].
  split; [reflexivity|]. split.
  { pose proof (clean_uninterrupted_reaches_bound [] ["L1"; "L2"] Demo.T1
                  Demo.store1 T1_wf Hticks Hfaults) as Hc.
    destruct (Topic.clean [] ["L1"; "L2"] Demo.T1 Demo.store1)
      as [[q t'] s'].
    destruct Hc as (_ & Hh & _). simpl. rewrite Hh. reflexivity. }
  split; [exact Hwf1|]. split; [exact Hfaults1|].
  split; [reflexivity|]. split; [reflexivity|].
  pose proof (clean_uninterrupted_reaches_bound [] ["L1"; "L2"] t1 s1 Hwf1
                Hticks Hfaults1) as Hc.
  destruct (Topic.clean [] ["L1"; "L2"] t1 s1) as [[q t'] s'].
  destruct Hc as (_ & Hh & _). simpl. rewrite Hh. reflexivity.
Defined.

Lemma removeMsgData_purges_what_it_can_witness :
  is_uint64 (Topic.tail Demo.T1) ∧
  data (Topic.removeMsgData Demo.T1 Demo.store1).2 !! "T:3" = None ∧
  data (Topic.removeMsgData Demo.T1 Demo.store1).2 !! "T:tail"
  = Some (PutUint64 5).
Proof.
  assert (is_uint64 (Topic.tail Demo.T1)) as Hu by reflexivity.
  split; [exact Hu|].
  pose proof (removeMsgData_purges_what_it_can Demo.T1 Demo.store1 Hu)
    as Hr.
  destruct (Topic.removeMsgData Demo.T1 Demo.store1) as [r s'].
  destruct Hr as (_ & _ & Hgone & Hrest). split.
  - apply (Hgone 3). by vm_compute.
  - simpl. rewrite (Hrest "T:tail"); [reflexivity|].
    intros i _. apply not_eq_sym, Acatui_ne_tailKey.
Defined.

(** ** Lines *)

Lemma loadLine_rebuilds_imap_witness :
  let v := mkLineStore 4 2 [mkInflight 3 100] in
  let s := mkStorage {["T/L2:recycle" := String.list_byte_of_string "10ns"]}
             [] [] in
  is_uint64 (Head v) ∧
  ∃ l, (Topic.loadLine "L2" v Demo.T1 s).1 = inr l ∧
       Line.imap l !! 2 = Some false ∧ Line.imap l !! 3 = Some true ∧
       Line.imap l !! 4 = None.
Proof.
  intros v s.
  assert (is_uint64 (Head v)) as Hu by reflexivity.
  split; [exact Hu|].
  pose proof (loadLine_rebuilds_imap "L2" v Demo.T1 s Hu) as Hl.
  destruct (Topic.loadLine "L2" v Demo.T1 s) as [r s'] eqn:Hrun.
  destruct r as [e|l].
  { apply (f_equal fst) in Hrun. vm_compute in Hrun. discriminate. }
  exists l. split; [reflexivity|].
  destruct Hl as (_ & _ & _ & _ & Himap).
  rewrite (Himap 2), (Himap 3), (Himap 4). by vm_compute.
Defined.

Lemma createLine_returns_error_or_attaches_witness :
  is_Some (Topic.lines Demo.T1 !! "L1") ∧
  (Topic.createLine "L1" 0 false ["L1"; "L2"] Demo.T1 Demo.store1).1.1
  = Returns (Some (NewError ErrLineExisted "topic createLine")).
Proof.
  assert (is_Some (Topic.lines Demo.T1 !! "L1")) as Hin
    by (by eexists).
  split; [exact Hin|].
  pose proof (createLine_returns_error_or_attaches "L1" 0 false ["L1"; "L2"]
                Demo.T1 Demo.store1) as Hc.
  destruct (Topic.createLine "L1" 0 false ["L1"; "L2"] Demo.T1
              Demo.store1) as [[r t'] s'] eqn:Hrun.
  destruct r as [[e|]| |].
  - destruct Hc as (_ & He). by destruct (He Hin) as (-> & _).
  - destruct Hc as (Hnone & _). destruct Hin as [l Hl]. congruence.
  - destruct Hc.
  - destruct Hc as (Hnone & _). destruct Hin as [l Hl]. congruence.
Defined.

Lemma T1_lines_named : lines_named Demo.T1.
Proof.
  intros k l Hl. simpl in Hl.
  apply lookup_insert_Some in Hl as [[<- <-]|[_ Hl]]; [reflexivity|].
  by apply lookup_singleton_Some in Hl as [<- <-].
Defined.

Lemma createLine_catalog_lists_the_lines_witness :
  lines_named Demo.T1 ∧
  ["L2"; "L3"; "L1"] ≡ₚ "L3" :: (map_to_list (Topic.lines Demo.T1)).*1 ∧
  let '(r, t', s') :=
    Topic.createLine "L3" 0 false ["L2"; "L3"; "L1"] Demo.T1 Demo.store1 in
  r = Returns None ∧ lines_named t' ∧
  Topic.lines t' !! "L1" = Some Demo.L1 ∧
  Topic.genTopicStore ["L2"; "L3"; "L1"] t' = ["L2"; "L3"; "L1"] ∧
  gobDecodeTopic (default [] (data s' !! "T")) = Some ["L2"; "L3"; "L1"].
Proof.
  assert (["L2"; "L3"; "L1"]
          ≡ₚ "L3" :: (map_to_list (Topic.lines Demo.T1)).*1) as Hord.
  { transitivity ("L3" :: ["L1"; "L2"]).
    - etransitivity; [apply perm_swap|]. apply perm_skip, perm_swap.
    - apply perm_skip. symmetry. exact T1_range. }
  split; [exact T1_lines_named|]. split; [exact Hord|].
  pose proof (createLine_catalog_lists_the_lines "L3" 0 false ["L2"; "L3"; "L1"]
                Demo.T1 Demo.store1 T1_lines_named Hord) as Hc.
  destruct (Topic.createLine "L3" 0 false ["L2"; "L3"; "L1"] Demo.T1
              Demo.store1) as [[r t'] s'] eqn:Hrun.
  assert (r = Returns None) as Hr.
  { apply (f_equal (λ x, x.1.1)) in Hrun. vm_compute in Hrun. by symmetry. }
  destruct (Hc Hr) as (Hnamed & _ & Hgen & b & Hb & Hdata).
  split; [exact Hr|]. split; [exact Hnamed|]. split.
  { change t' with (r, t', s').1.2. rewrite <-Hrun. reflexivity. }
  split; [exact Hgen|].
  change (Topic.name Demo.T1) with "T" in Hdata. rewrite Hdata. simpl.
  vm_compute in Hb. injection Hb as <-. reflexivity.
Defined.

(** ** Topics of the broker *)

Lemma createTopic_adds_or_restores_witness :
  let u := UnitedQueue.mkQueue {["T" := Demo.T0]} in
  is_Some (UnitedQueue.topics u !! "T") ∧
  (UnitedQueue.createTopic "T" false ["T"] u Demo.blank).1.1
  = Some (NewError ErrTopicExisted "queue createTopic").
Proof.
  intros u.
  assert (is_Some (UnitedQueue.topics u !! "T")) as Hin by (by eexists).
  split; [exact Hin|].
  pose proof (createTopic_adds_or_restores "T" false ["T"] u Demo.blank)
    as Hc.
  destruct (UnitedQueue.createTopic "T" false ["T"] u Demo.blank)
    as [[r u'] s'].
  destruct r as [e|].
  - destruct Hc as (_ & He). by destruct (He Hin) as (-> & _).
  - destruct Hc as (Hnone & _). destruct Hin as [t Ht]. congruence.
Defined.

Lemma createTopic_leaves_topic_catalog_unwritten_witness :
  "T" ≠ StorageKeyWord ∧ data Demo.blank !! "T" = None ∧
  data (UnitedQueue.createTopic "T" false ["T"] (UnitedQueue.mkQueue ∅)
          Demo.blank).2 !! "T" = None.
Proof.
  assert ("T" ≠ StorageKeyWord) as Hne by discriminate.
  assert (data Demo.blank !! "T" = None) as Hfree by reflexivity.
  split; [exact Hne|]. split; [exact Hfree|].
  pose proof (createTopic_leaves_topic_catalog_unwritten "T" false ["T"]
                (UnitedQueue.mkQueue ∅) Demo.blank Hne Hfree) as Hc.
  destruct (UnitedQueue.createTopic "T" false ["T"] (UnitedQueue.mkQueue ∅)
              Demo.blank) as [[r u'] s'].
  by destruct Hc as (Hc & _).
Defined.

Lemma exportQueue_lists_every_topic_once_witness :
  let u := UnitedQueue.mkQueue (<["U" := Demo.T0]> {["T" := Demo.T0]}) in
  range_of (UnitedQueue.topics u) ["T"; "U"] ∧
  UnitedQueue.genQueueStore ["T"; "U"] u = ["T"; "U"].
Proof.
  intros u.
  assert (range_of (UnitedQueue.topics u) ["T"; "U"]) as Hord.
  { unfold range_of. vm_compute. apply perm_swap. }
  split; [exact Hord|].
  by destruct (exportQueue_lists_every_topic_once ["T"; "U"] u Demo.blank
                 Hord) as (Hgen & _).
Defined.

Lemma Create_then_Push_stores_first_message_witness :
  "T" ≠ EmptyString ∧ UnitedQueue.topics (UnitedQueue.mkQueue ∅) !! "T" = None ∧
  faults Demo.blank = [] ∧
  (∀ names, ∃ b, gobEncodeQueue names = inr b) ∧
  let '(_, u1, s1) :=
    UnitedQueue.Create (mkRequest "T" EmptyString 0) ["T"]
      (UnitedQueue.mkQueue ∅) Demo.blank in
  data (UnitedQueue.Push "T" [Byte.x61] u1 s1).2 !! "T:0" = Some [Byte.x61].
Proof.
  assert ("T" ≠ EmptyString) as Hne by discriminate.
  assert (UnitedQueue.topics (UnitedQueue.mkQueue ∅) !! "T" = None) as Hfree
    by reflexivity.
  assert (∀ names, ∃ b, gobEncodeQueue names = inr b) as Henc
    by (intros names; eexists; reflexivity).
  split; [exact Hne|]. split; [exact Hfree|]. split; [reflexivity|].
  split; [exact Henc|].
  pose proof (Create_then_Push_stores_first_message "T" [Byte.x61] ["T"]
                (UnitedQueue.mkQueue ∅) Demo.blank Hne Hfree eq_refl Henc)
    as Hc.
  destruct (UnitedQueue.Create (mkRequest "T" EmptyString 0) ["T"]
              (UnitedQueue.mkQueue ∅) Demo.blank) as [[r1 u1] s1].
  destruct (UnitedQueue.Push "T" [Byte.x61] u1 s1) as [[r2 u2] s2].
  by destruct Hc as (_ & _ & _ & Hd & _).
Defined.

(** ** Request keys *)

Lemma Pop_routes_to_topic_and_line_witness :
  count_byte "/" "T" = 0%nat ∧ count_byte "/" "L1" = 0%nat ∧
  (UnitedQueue.Pop "T/L1" 0 (UnitedQueue.mkQueue ∅) Demo.blank).1.1
  = inl (NewError ErrTopicNotExisted "queue pop").
Proof.
  split; [reflexivity|]. split; [reflexivity|].
  exact (f_equal (λ x, x.1.1)
           (Pop_routes_to_topic_and_line "T" "L1" 0 (UnitedQueue.mkQueue ∅)
              Demo.blank eq_refl eq_refl)).
Defined.

Lemma slashed_topic_is_unreachable_witness :
  let u := UnitedQueue.mkQueue {["a/b" := Demo.T0]} in
  count_byte "/" "a/b" ≠ 0%nat ∧
  UnitedQueue.topics (UnitedQueue.Pop "a/b" 0 u Demo.blank).1.2 !! "a/b"
  = UnitedQueue.topics u !! "a/b".
Proof.
  intros u.
  assert (count_byte "/" "a/b" ≠ 0%nat) as Hne by discriminate.
  split; [exact Hne|].
  by destruct (slashed_topic_is_unreachable "a/b" "a/b" 0 (λ _, 0%Z) 1 u
                 Demo.blank Hne) as (Hpop & _).
Defined.

Lemma Confirm_routes_to_topic_line_and_id_witness :
  count_byte "/" "T" = 0%nat ∧ count_byte "/" "L1" = 0%nat ∧ is_uint64 7 ∧
  (UnitedQueue.Confirm "T/L1/7" (UnitedQueue.mkQueue ∅)).1
  = Some (NewError ErrTopicNotExisted "queue confirm").
Proof.
  split; [reflexivity|]. split; [reflexivity|]. split; [reflexivity|].
  exact (f_equal fst
           (Confirm_routes_to_topic_line_and_id "T" "L1" 7
              (UnitedQueue.mkQueue ∅) eq_refl eq_refl eq_refl)).
Defined.

(** ** Startup recovery *)

Lemma loadQueue_passes_over_unloadable_topics_witness :
  let u := UnitedQueue.mkQueue ∅ in
  let s := Demo.store_missing_anchor in
  anchors_decodable (data s) ∧
  gobDecodeQueue (default [] (data s !! StorageKeyWord)) = Some ["T"; "topic2"] ∧
  is_Some (data s !! "T") ∧ is_Some (data s !! ("T" +:+ KeyTopicHead)) ∧
  data s !! ("T" +:+ KeyTopicTail) = None ∧
  (UnitedQueue.loadQueue u s).1.1 = Returns None ∧
  UnitedQueue.topics (UnitedQueue.loadQueue u s).1.2 !! "T" = None ∧
  is_Some (UnitedQueue.topics (UnitedQueue.loadQueue u s).1.2 !! "topic2").
Proof.
  intros u s.
  assert (anchors_decodable (data s)) as Hanc.
  { intros tname v Hv.
    assert (∃ k, data s !! k = Some v) as [k Hk] by (destruct Hv; eauto).
    apply elem_of_list_to_map_2 in Hk.
    repeat (apply elem_of_cons in Hk as [Hk|Hk];
            [injection Hk as _ ->; vm_compute; lia|]).
    by apply elem_of_nil in Hk. }
  assert (data s !! ("T" +:+ KeyTopicTail) = None) as Hmiss by reflexivity.
  split; [exact Hanc|]. split; [reflexivity|].
  split; [by eexists|]. split; [by eexists|]. split; [exact Hmiss|].
  destruct (loadQueue_passes_over_unloadable_topics "T" ["topic2"] u s Hanc)
    as ((u' & s' & Hrun) & _ & Hpass).
  destruct Hpass as [_ Hleft]. { right. right. exact Hmiss. }
  split; [by rewrite Hrun|]. split; [exact Hleft|].
  vm_compute. by eexists.
Defined.

(** ** Invariants of a topic *)

Lemma wf_topic_is_an_invariant_witness :
  wf_topic Demo.T1 ∧
  wf_topic (Topic.push [Byte.x61] Demo.T1 Demo.store1).1.2 ∧
  wf_topic (Topic.clean [] ["L1"; "L2"] Demo.T1 Demo.store1).1.2.
Proof.
  split; [exact T1_wf|].
  destruct (wf_topic_is_an_invariant "T" [] [Byte.x61] [] [] ["L1"; "L2"]
              Demo.T1 Demo.store1) as (_ & _ & Hkeep).
  by destruct (Hkeep T1_wf) as (Hpush & _ & _ & Hclean).
Defined.

Lemma head_stays_behind_tail_witness :
  wf_topic Demo.T1 ∧ Topic.head Demo.T1 ≤ Topic.tail Demo.T1 ∧
  Topic.tail Demo.T1 < maxUint64 ∧
  Topic.head (Topic.clean [] ["L1"; "L2"] Demo.T1 Demo.store1).1.2
  ≤ Topic.tail (Topic.clean [] ["L1"; "L2"] Demo.T1 Demo.store1).1.2 ∧
  Topic.head (Topic.push [Byte.x61] Demo.T1 Demo.store1).1.2
  ≤ Topic.tail (Topic.push [Byte.x61] Demo.T1 Demo.store1).1.2.
Proof.
  assert (Topic.head Demo.T1 ≤ Topic.tail Demo.T1) as Hle
    by (by vm_compute).
  assert (Topic.tail Demo.T1 < maxUint64) as Hroom by reflexivity.
  split; [exact T1_wf|]. split; [exact Hle|]. split; [exact Hroom|].
  destruct (head_stays_behind_tail [Byte.x61] [] [] ["L1"; "L2"] Demo.T1
              Demo.store1 T1_wf Hle) as (Hclean & _ & Hpush & _).
  split; [exact Hclean|exact (Hpush Hroom)].
Defined.

(** ** The keys of the store *)

Lemma key_of_plain_names_inj_witness :
  plain_names (Message "T" 5) ∧ plain_names (Message ("T" +:+ EmptyString) (2 + 3)) ∧
  key_of (Message "T" 5) = key_of (Message ("T" +:+ EmptyString) (2 + 3)) ∧
  Message "T" 5 = Message ("T" +:+ EmptyString) (2 + 3).
Proof.
  assert (plain_names (Message "T" 5)) as H1 by (split; reflexivity).
  assert (plain_names (Message ("T" +:+ EmptyString) (2 + 3))) as H2
    by (split; reflexivity).
  assert (key_of (Message "T" 5)
          = key_of (Message ("T" +:+ EmptyString) (2 + 3))) as Hk
    by reflexivity.
  split; [exact H1|]. split; [exact H2|]. split; [exact Hk|].
  exact (key_of_plain_names_inj _ _ H1 H2 Hk).
Defined.

(** ** Recovery of what the store lists *)

Lemma loadQueue_recovers_listed_topic_witness :
  let cat := Byte.x51 :: String.list_byte_of_string
                           ("T" +:+ String Demo.nl
                              ("topic2" +:+ String Demo.nl EmptyString)) in
  let tcat := Byte.x54 :: String.list_byte_of_string
                            ("reader1" +:+ String Demo.nl EmptyString) in
  let s := mkStorage
             (list_to_map
                [("UnitedQueueKey", cat); ("T", tcat);
                 ("T:head", PutUint64 3); ("T:tail", PutUint64 5)]) [] [] in
  faults s = [] ∧ anchors_decodable (data s) ∧
  data s !! StorageKeyWord = Some cat ∧ cat ≠ [] ∧
  gobDecodeQueue cat = Some ["T"; "topic2"] ∧ "T" ∈ ["T"; "topic2"] ∧
  data s !! "T" = Some tcat ∧ tcat ≠ [] ∧
  gobDecodeTopic tcat = Some ["reader1"] ∧
  data s !! ("T" +:+ KeyTopicHead) = Some (PutUint64 3) ∧ is_uint64 3 ∧
  data s !! ("T" +:+ KeyTopicTail) = Some (PutUint64 5) ∧ is_uint64 5 ∧
  ∃ ls, UnitedQueue.topics
          (UnitedQueue.loadQueue (UnitedQueue.mkQueue ∅) s).1.2 !! "T"
        = Some (Topic.mkTopic "T" ls 3 "T:head" 5 "T:tail").
Proof.
  intros cat tcat s.
  assert (anchors_decodable (data s)) as Hanc.
  { intros tname v Hv.
    assert (∃ k, data s !! k = Some v) as [k Hk] by (destruct Hv; eauto).
    apply elem_of_list_to_map_2 in Hk.
    repeat (apply elem_of_cons in Hk as [Hk|Hk];
            [injection Hk as _ ->; vm_compute; lia|]).
    by apply elem_of_nil in Hk. }
  assert ("T" ∈ ["T"; "topic2"]) as Hin by left.
  assert (cat ≠ []) as Hcat by discriminate.
  assert (tcat ≠ []) as Htcat by discriminate.
  split; [reflexivity|]. split; [exact Hanc|]. split; [reflexivity|].
  split; [exact Hcat|]. split; [reflexivity|]. split; [exact Hin|].
  split; [reflexivity|]. split; [exact Htcat|]. split; [reflexivity|].
  split; [reflexivity|]. split; [reflexivity|]. split; [reflexivity|].
  split; [reflexivity|].
  pose proof (loadQueue_recovers_listed_topic "T" ["T"; "topic2"] ["reader1"]
                cat tcat 3 5 (UnitedQueue.mkQueue ∅) s eq_refl Hanc eq_refl
                Hcat eq_refl Hin eq_refl Htcat eq_refl eq_refl eq_refl eq_refl
                eq_refl) as Hl.
  destruct (UnitedQueue.loadQueue (UnitedQueue.mkQueue ∅) s) as [[r u'] s'].
  by destruct Hl as [_ Hl].
Defined.

(** ** What an operation leaves alone *)

Lemma topic_operations_touch_only_their_keys_witness :
  wf_topic Demo.T1 ∧ "T:4" ≠ Topic.headKey Demo.T1 ∧
  (∀ i, Topic.head Demo.T1 ≤ i < Topic.getEnd ["L1"; "L2"] Demo.T1 →
        "T:4" ≠ Acatui (Topic.name Demo.T1) ":" i) ∧
  data (Topic.clean [] ["L1"; "L2"] Demo.T1 Demo.store1).2 !! "T:4"
  = Some [Byte.x65].
Proof.
  assert ("T:4" ≠ Topic.headKey Demo.T1) as Hkh by discriminate.
  assert (∀ i, Topic.head Demo.T1 ≤ i
               < Topic.getEnd ["L1"; "L2"] Demo.T1 →
               "T:4" ≠ Acatui (Topic.name Demo.T1) ":" i) as Hkm.
  { intros i [_ Hi] Heq.
    change "T:4" with (Acatui (Topic.name Demo.T1) ":" 4) in Heq.
    apply Acatui_inj in Heq. subst i. by vm_compute in Hi. }
  split; [exact T1_wf|]. split; [exact Hkh|]. split; [exact Hkm|].
  destruct (topic_operations_touch_only_their_keys [] [] [] ["L1"; "L2"]
              Demo.T1 Demo.store1 "T:4" T1_wf) as (_ & _ & Hclean).
  rewrite (Hclean Hkh Hkm). reflexivity.
Defined.
